(** * Differential evolution (DE/rand/1/bin): a shallow embedding of
    [main.ipynb] and the properties of its optimisers.

    Conventions of the embedding.
    - numpy floats are idealised as rationals ([Q]); rounding, infinities
      and NaN are outside that model.  Where rounding decides (the range
      of [init_population]) the expression is evaluated in IEEE binary64
      as well ([init_population_f64]).
    - The process-wide generator [np.random] is an explicit tape of raw
      cells read through a cursor; the tape is fixed, the cursor moves.  An integer draw reduces the cell's
      numerator modulo the requested range, a float draw is the fraction
      [(num mod (den+1)) / (den+1)], so every tape yields draws in range and
      every in-range outcome is produced by some tape.
    - Python exceptions are values of [exn]; the [while] loops carry fuel.
    - Every call of the objective function is recorded in [evals]. *)

From Stdlib Require Import ZArith QArith Lqa String DecimalString.
From Stdlib Require SpecFloat.
From stdpp Require Import base list.

Open Scope nat_scope.

(** ** Values, exceptions and results *)

Abbreviation vec := (list Q).
Abbreviation matrix := (list (list Q)).

Inductive exn :=
| Exception (msg : string)
| ValueError
| TypeError
| IndexError
| ObjectiveError.

Inductive res (A : Type) :=
| Ok (a : A)
| Raise (e : exn)
| OutOfFuel.
Arguments Ok {A} a.
Arguments Raise {A} e.
Arguments OutOfFuel {A}.

(** ** The world: random tape and evaluation log *)

Record cell := Cell { num : nat; den : nat }.

Definition tape := nat -> cell.

(** [pos] is the generator's cursor on the tape, [evals] the vectors the
    objective has been called on, oldest first. *)
Record world := World {
  pos : nat;
  evals : list vec
}.

(** A computation reads the tape, threads the world, and returns, raises
    or runs out of fuel. *)
Definition M (A : Type) := tape -> world -> res (A * world).

#[global] Instance M_ret : MRet M := fun A a _ w => Ok (a, w).
#[global] Instance M_bind : MBind M := fun A B k m t w =>
  match m t w with
  | Ok (a, w') => k a t w'
  | Raise e => Raise e
  | OutOfFuel => OutOfFuel
  end.

Definition raise {A} (e : exn) : M A := fun _ _ => Raise e.
Definition out_of_fuel {A} : M A := fun _ _ => OutOfFuel.

Definition lift_idx {A} (o : option A) : M A :=
  match o with Some a => mret a | None => raise IndexError end.

(** [for v in l: s = body(s, v)] *)
Fixpoint for_each {A St} (l : list A) (body : St -> A -> M St) (s : St) : M St :=
  match l with
  | [] => mret s
  | a :: l' => s' ← body s a; for_each l' body s'
  end.

(** Raw generator access. *)
Definition draw_cell : M cell := fun t w =>
  Ok (t (pos w), World (S (pos w)) (evals w)).

(** The fraction in [[0,1)] carried by a cell. *)
Definition unit_of (c : cell) : Q :=
  Z.of_nat (num c mod S (den c)) # Pos.of_succ_nat (den c).

(** [np.random.randint(0, high)] / [np.random.randint(high)] *)
Definition randint (high : nat) : M nat :=
  match high with
  | 0 => raise ValueError
  | S _ => c ← draw_cell; mret (num c mod high)
  end.

(** [np.random.randint(0, high, 3)] *)
Definition randint3 (high : nat) : M (nat * nat * nat) :=
  a ← randint high; b ← randint high; c ← randint high; mret (a, b, c).

(** One uniform float of [[0,1)]. *)
Definition random_float : M Q := c ← draw_cell; mret (unit_of c).

(** [np.random.random(d)] *)
Fixpoint random_sample (d : nat) : M vec :=
  match d with
  | 0 => mret []
  | S d' => r ← random_float; rs ← random_sample d'; mret (r :: rs)
  end.

(** [np.random.rand(NP, d)], filled row by row. *)
Fixpoint rand (NP d : nat) : M matrix :=
  match NP with
  | 0 => mret []
  | S NP' => r ← random_sample d; rs ← rand NP' d; mret (r :: rs)
  end.

(** ** Comparison on the idealised floats *)

Definition Qltb (a b : Q) : bool :=
  match (a ?= b)%Q with Lt => true | _ => false end.

(** ** [init_population] *)

(** [np.random.rand(NP,d)*(ub-lb)+lb]; negative dimensions are refused by
    numpy with a [ValueError].  The arithmetic is exact here; its rounding
    is the subject of [init_population_f64] below. *)
Definition init_population (NP d : Z) (lb ub : Q) : M matrix :=
  if ((NP <? 0) || (d <? 0))%Z then raise ValueError
  else m ← rand (Z.to_nat NP) (Z.to_nat d);
       mret (fmap (M:=list) (fmap (M:=list) (fun r => r * (ub - lb) + lb)%Q) m).

(** ** [init_population] in binary64

    numpy computes [np.random.rand(NP,d)*(ub-lb)+lb] in IEEE binary64:
    precision 53, round to nearest, ties to even.  The three operations
    are those of [SpecFloat]; the expression is applied, as numpy
    broadcasts it, to every entry of the array [draws] that
    [np.random.rand(NP,d)] returned. *)
Definition f64 := SpecFloat.spec_float.
Definition f64_add : f64 -> f64 -> f64 := SpecFloat.SFadd 53 1024.
Definition f64_sub : f64 -> f64 -> f64 := SpecFloat.SFsub 53 1024.
Definition f64_mul : f64 -> f64 -> f64 := SpecFloat.SFmul 53 1024.
Definition f64_ltb : f64 -> f64 -> bool := SpecFloat.SFltb.
Definition f64_leb : f64 -> f64 -> bool := SpecFloat.SFleb.

(** The double nearest to [m * 2^e]. *)
Definition f64_of_Z (m e : Z) : f64 :=
  SpecFloat.binary_normalize 53 1024 m e false.

(** The doubles [np.random.rand] produces: 53 random bits [k] scaled by
    [2^-53], so the multiples of [2^-53] in [[0,1)]. *)
Definition f64_draw (k : Z) : f64 := f64_of_Z (k mod 2 ^ 53) (-53).

Definition f64_eqb : f64 -> f64 -> bool := SpecFloat.SFeqb.

(** Neither NaN nor an infinity. *)
Definition f64_is_finite (x : f64) : bool :=
  match x with
  | SpecFloat.S754_zero _ | SpecFloat.S754_finite _ _ _ => true
  | _ => false
  end.

(** [0 <= r < 1] *)
Definition f64_unit (r : f64) : bool :=
  f64_leb (f64_of_Z 0 0) r && f64_ltb r (f64_of_Z 1 0).

Definition init_population_f64 (draws : list (list f64)) (lb ub : f64)
    : list (list f64) :=
  fmap (M:=list)
       (fmap (M:=list) (fun r => f64_add (f64_mul r (f64_sub ub lb)) lb))
       draws.

(** ** [pick_rand_idx] *)

(** [while bad(r): r = np.random.randint(0,NP)] *)
Fixpoint redraw (fuel : nat) (bad : nat -> bool) (NP : nat) (r : nat) : M nat :=
  if bad r then
    match fuel with
    | 0 => out_of_fuel
    | S n => r' ← randint NP; redraw n bad NP r'
    end
  else mret r.

Definition pick_rand_idx (fuel : nat) (i NP : nat) : M (nat * nat * nat) :=
  '(r1, r2, r3) ← randint3 NP;
  r1 ← redraw fuel (fun r => r =? i) NP r1;
  r2 ← redraw fuel (fun r => (r =? r1) || (r =? i)) NP r2;
  r3 ← redraw fuel (fun r => (r =? r2) || (r =? r1) || (r =? i)) NP r3;
  mret (r1, r2, r3).

(** ** [mutate_at_pos] *)

Definition get2 (x : matrix) (r k : nat) : M Q :=
  row ← lift_idx (x !! r); lift_idx (row !! k).

Definition mutate_at_pos (fuel : nat) (x : matrix) (F : Q) (i k : nat) : M Q :=
  '(r1, r2, r3) ← pick_rand_idx fuel i (length x);
  a ← get2 x r1 k;
  b ← get2 x r2 k;
  c ← get2 x r3 k;
  mret (a + F * (b - c))%Q.

(** ** The objective function *)

(** An objective is a Python function that maps a vector to a scalar;
    [None] stands for a raised exception.  Each call is appended to the
    evaluation log. *)
Definition objective := vec -> option Q.

Definition log_eval (v : vec) (w : world) : world :=
  World (pos w) (evals w ++ [v]).

Definition call_f (f : objective) (v : vec) : M Q := fun _ w =>
  match f v with
  | Some y => Ok (y, log_eval v w)
  | None => Raise ObjectiveError
  end.

(** [while (n_gen < max_gen): s = body(s); n_gen += 1] *)
Fixpoint while_lt {St} (gas : nat) (max_gen : Z) (body : St -> M St)
    (n_gen : Z) (s : St) : M St :=
  if (n_gen <? max_gen)%Z then
    match gas with
    | 0 => out_of_fuel
    | S g => s' ← body s; while_lt g max_gen body (n_gen + 1)%Z s'
    end
  else mret s.

(** [init_population(NP, d, *obj_bounds)]: missing bounds fall back on the
    defaults [lb=0], [ub=1]; more than two are a [TypeError]. *)
Definition init_population_star (NP d : Z) (obj_bounds : list Q) : M matrix :=
  match obj_bounds with
  | [] => init_population NP d 0 1
  | [lb] => init_population NP d lb 1
  | [lb; ub] => init_population NP d lb ub
  | _ => raise TypeError
  end.

(** ** [differential_evolution] *)

(** The arrays of a run.  [arr0] is the array returned by
    [init_population], [u] and [x_g] are the two [np.zeros((NP,d))] arrays.
    The Python variable [x] is a reference to one of the arrays: it starts
    bound to [arr0] and [x = x_g] rebinds it to the very array that
    [x_g] names. *)
Inductive loc := Larr0 | Lx_g.

Record store := Store {
  arr0 : matrix;
  u : matrix;
  x_g : matrix;
  x : loc
}.

(** The array that [x] currently denotes. *)
Definition cur (s : store) : matrix :=
  match x s with Larr0 => arr0 s | Lx_g => x_g s end.

Definition zeros (NP d : nat) : matrix := replicate NP (replicate d 0%Q).

(** [u[i][k] = v] *)
Definition set_u (s : store) (i k : nat) (v : Q) : M store :=
  row ← lift_idx (u s !! i);
  if k <? length row
  then mret (Store (arr0 s) (<[i := <[k := v]> row]> (u s)) (x_g s) (x s))
  else raise IndexError.

(** [x_g[i] = row]: the values of [row] are copied into row [i] of the
    array [x_g]. *)
Definition set_x_g (s : store) (i : nat) (row : vec) : M store :=
  old ← lift_idx (x_g s !! i);
  if length row =? length old
  then mret (Store (arr0 s) (u s) (<[i := row]> (x_g s)) (x s))
  else raise ValueError.

(** [x = x_g] *)
Definition rebind_x (s : store) : store := Store (arr0 s) (u s) (x_g s) Lx_g.

(** Body of [for k in range(d)]. *)
Definition crossover_at (fuel : nat) (CR F : Q) (i rnbr : nat) (randb : vec)
    (s : store) (k : nat) : M store :=
  b ← (if k =? rnbr then mret true
       else rb ← lift_idx (randb !! k); mret (Qltb rb CR));
  if (b : bool) then v ← mutate_at_pos fuel (cur s) F i k; set_u s i k v
  else v ← get2 (cur s) i k; set_u s i k v.

(** [if f(u[i]) < f(x[i]): x_g[i] = u[i]  else: x_g[i] = x[i]] *)
Definition select (f : objective) (i : nat) (s : store) : M store :=
  ui ← lift_idx (u s !! i);
  fu ← call_f f ui;
  xi ← lift_idx (cur s !! i);
  fx ← call_f f xi;
  if Qltb fu fx then set_x_g s i ui else set_x_g s i xi.

(** Body of [for i in range(NP)], first part: the draws of [rnbr] and
    [randb] and the loop over the dimensions, which fills [u[i]].  The
    drawn [rnbr] and [randb] are returned with the store. *)
Definition build_trial (fuel : nat) (CR F : Q) (d : nat) (s : store) (i : nat)
    : M (nat * vec * store) :=
  rnbr ← randint d;
  randb ← random_sample d;
  s ← for_each (seq 0 d) (crossover_at fuel CR F i rnbr randb) s;
  mret (rnbr, randb, s).

(** Body of [for i in range(NP)]: trial vector, then selection. *)
Definition evolve_member (fuel : nat) (f : objective) (CR F : Q) (d : nat)
    (s : store) (i : nat) : M store :=
  '(_, _, s) ← build_trial fuel CR F d s i;
  select f i s.

(** Body of the [while] loop. *)
Definition generation (fuel : nat) (f : objective) (CR F : Q) (NP d : nat)
    (s : store) : M store :=
  s ← for_each (seq 0 NP) (evolve_member fuel f CR F d) s;
  mret (rebind_x s).

(** [for i, cand in enumerate(x): fitnesses[i] = f(cand)] *)
Fixpoint fitness_all (f : objective) (xs : matrix) : M (list Q) :=
  match xs with
  | [] => mret []
  | cand :: xs' => y ← call_f f cand; ys ← fitness_all f xs'; mret (y :: ys)
  end.

(** [np.argmin]: the first index holding the minimum. *)
Fixpoint argmin_from (best_i : nat) (best : Q) (j : nat) (l : list Q) : nat :=
  match l with
  | [] => best_i
  | y :: l' =>
      if Qltb y best then argmin_from j y (S j) l'
      else argmin_from best_i best (S j) l'
  end.

Definition argmin (l : list Q) : M nat :=
  match l with
  | [] => raise ValueError
  | y :: l' => mret (argmin_from 0 y 1 l')
  end.

(** The call [check_param(...)] on the first line of the body is commented
    out in the source, so it is absent here. *)
Definition differential_evolution (fuel : nat) (NP : Z) (f : objective)
    (CR F : Q) (max_gen d : Z) (obj_bounds : list Q) : M vec :=
  x ← init_population_star NP d obj_bounds;
  let s := Store x (zeros (Z.to_nat NP) (Z.to_nat d))
                   (zeros (Z.to_nat NP) (Z.to_nat d)) Larr0 in
  s ← while_lt fuel max_gen
        (generation fuel f CR F (Z.to_nat NP) (Z.to_nat d)) 0%Z s;
  fitnesses ← fitness_all f (cur s);
  idx_best ← argmin fitnesses;
  lift_idx (cur s !! idx_best).

(** ** [check_obj_func] and [check_param] *)

(** Dynamically typed arguments, as far as [check_param] inspects them:
    a Python [int], a [float] or an [np.float64] of finite value, and any
    object that is none of these and that numpy refuses as a dimension
    (a string, [None], a list).  NaN, the infinities and numpy's integer
    types are not represented; [obj_bounds] is a sequence of finite
    numbers. *)
Inductive pyval :=
| PInt (z : Z)
| PFloat (q : Q)
| PNpFloat64 (q : Q)
| POther.

(** [str(d)] for an integer. *)
Definition str_int (z : Z) : string := NilZero.string_of_int (Z.to_int z).

(** [try: f(x)  except: return -1  else: return 0].  The [print] of the
    [except] branch reads [f.__name__]: the objective is taken to be a
    function object ([def] or [lambda], as every objective of the notebook
    is), which has one; what is printed is not modelled. *)
Definition try_f (f : objective) (v : vec) : M Z := fun _ w =>
  match f v with
  | Some _ => Ok (0%Z, log_eval v w)
  | None => Ok ((-1)%Z, log_eval v w)
  end.

Definition check_obj_func (f : objective) (d : pyval) : M Z :=
  match d with
  | PInt dz =>
      p ← init_population 1 dz 0 1;
      x ← lift_idx (p !! 0);
      try_f f x
  | _ => raise TypeError
  end.

Definition not_int_or (p : Z -> bool) (v : pyval) : bool :=
  match v with PInt z => p z | _ => true end.

Definition not_float_or (p : Q -> bool) (v : pyval) : bool :=
  match v with PFloat q | PNpFloat64 q => p q | _ => true end.

Definition msg_obj (d : pyval) : string :=
  ("Objective function must be able to handle "
   ++ match d with PInt z => str_int z | _ => "" end
   ++ " dimensional vectors")%string.
Definition msg_NP : string :=
  "NP must be an integer greater than or equal to 4.".
Definition msg_CR : string := "CR must be a float in the range [0,1].".
Definition msg_F : string := "F must be a float in the range (0,2].".
Definition msg_max_gen : string := "max_gen must be a positive integer.".
Definition msg_d : string := "d must be a positive integer.".
Definition msg_len : string :=
  "obj_bounds must be a list-like object of length two.".
Definition msg_bounds : string :=
  "The upper bound must be greater than the lower bound.".

Definition check_param (NP : pyval) (f : objective) (CR F max_gen d : pyval)
    (obj_bounds : list Q) : M Z :=
  c ← check_obj_func f d;
  if (c =? -1)%Z then raise (Exception (msg_obj d))
  else if not_int_or (fun z => z <? 4)%Z NP then raise (Exception msg_NP)
  else if not_float_or (fun q => Qltb q 0 || Qltb 1 q) CR
       then raise (Exception msg_CR)
  else if not_float_or (fun q => Qle_bool q 0 || Qltb 2 q) F
       then raise (Exception msg_F)
  else if not_int_or (fun z => z <=? 0)%Z max_gen
       then raise (Exception msg_max_gen)
  else if not_int_or (fun z => z <=? 0)%Z d then raise (Exception msg_d)
  else match obj_bounds with
       | [b0; b1] =>
           if Qle_bool b1 b0 then raise (Exception msg_bounds) else mret 0%Z
       | _ => raise (Exception msg_len)
       end.

(** ** [rand_search] *)

(** Body of [for v in x]. *)
Definition keep_best (f : objective) (best : vec * Q) (v : vec) : M (vec * Q) :=
  score ← call_f f v;
  if Qltb score (snd best) then mret (v, score) else mret best.

(** Body of the [while] loop. *)
Definition search_round (f : objective) (NP d : Z) (obj_bounds : list Q)
    (best : vec * Q) : M (vec * Q) :=
  x ← init_population_star NP d obj_bounds;
  for_each x (keep_best f) best.

Definition rand_search (fuel : nat) (NP : Z) (f : objective) (max_gen d : Z)
    (obj_bounds : list Q) : M vec :=
  x ← init_population_star NP d obj_bounds;
  best_sol ← lift_idx (x !! 0);
  best_score ← call_f f best_sol;
  best ← while_lt fuel max_gen (search_round f NP d obj_bounds) 0%Z
           (best_sol, best_score);
  mret (fst best).

(** ** Synchronous generations, as the specification words them

    The reference against which the engine is compared: every trial vector
    of a generation is built from a frozen copy of the previous population,
    and the next population is a separate array. *)
Definition generation_sync (fuel : nat) (f : objective) (CR F : Q) (NP d : nat)
    (s : store) : M store :=
  let prev := cur s in
  s' ← for_each (seq 0 NP) (evolve_member fuel f CR F d)
         (Store prev (u s) (zeros NP d) Larr0);
  mret (Store (x_g s') (u s') (zeros NP d) Larr0).

Definition differential_evolution_sync (fuel : nat) (NP : Z) (f : objective)
    (CR F : Q) (max_gen d : Z) (obj_bounds : list Q) : M vec :=
  x ← init_population_star NP d obj_bounds;
  let s := Store x (zeros (Z.to_nat NP) (Z.to_nat d))
                   (zeros (Z.to_nat NP) (Z.to_nat d)) Larr0 in
  s ← while_lt fuel max_gen
        (generation_sync fuel f CR F (Z.to_nat NP) (Z.to_nat d)) 0%Z s;
  fitnesses ← fitness_all f (cur s);
  idx_best ← argmin fitnesses;
  lift_idx (cur s !! idx_best).

(** ** Tapes *)

(** A tape that repeats a finite list of cells. *)
Definition cyclic (l : list cell) : tape :=
  fun n => nth (n mod length l) l (Cell 0 0).

(** The tape whose [n]-th cell carries the numerator [n]. *)
Definition counting (den0 : nat) : tape := fun n => Cell n den0.

Definition start : world := World 0 [].

(** A tape is fair for a range [NP] when, from every position on, every
    index of [[0,NP)] is drawn again. *)
Definition fair (NP : nat) (t : tape) : Prop :=
  forall p v, v < NP -> exists q, p <= q /\ num (t q) mod NP = v.

(** Sample objectives: the first coordinate, and the sum of squares. *)
Definition first_coord : objective := fun v => Some (hd 0%Q v).
Definition sphere : objective :=
  fun v => Some (fold_right (fun a acc => a * a + acc)%Q 0%Q v).

(** Cells for integer draws: the numerator is the index drawn. *)
Definition ints (l : list nat) : list cell := (fun n => Cell n 0) <$> l.

(** Cells for float draws: [n] stands for [n/8]. *)
Definition eighths (l : list nat) : list cell := (fun n => Cell n 7) <$> l.

(** A run of two generations on four one-dimensional members
    [[4/8; 5/8; 6/8; 7/8]] with [F = 2].  Each member consumes five cells
    per generation: [rnbr], [randb[0]] and the three donors. *)
Definition tape_two_gens : tape :=
  cyclic (eighths [4; 5; 6; 7]
          (* generation 1: no trial vector is fitter than its target *)
          ++ ints [0; 0; 3; 2; 1] ++ ints [0; 0; 3; 2; 0]
          ++ ints [0; 0; 3; 1; 0] ++ ints [0; 0; 2; 1; 0]
          (* generation 2 *)
          ++ ints [0; 0; 1; 2; 3] ++ ints [0; 0; 0; 2; 3]
          ++ ints [0; 0; 0; 3; 1] ++ ints [0; 0; 1; 2; 0]).

(** ** Sample populations *)

(** Four one-dimensional members spread over [[0,1)]. *)
Definition pop_spread : matrix := [[1#2]; [1#4]; [3#4]; [1#8]]%Q.

(** Four one-dimensional members, equal in pairs. *)
Definition pop_pairs : matrix := [[1#2]; [1#2]; [3#4]; [3#4]]%Q.

(** Five two-dimensional members. *)
Definition pop_2d : matrix :=
  [[1#2; 1#4]; [1#4; 1#2]; [3#4; 1#8]; [1#8; 3#4]; [3#8; 1#2]]%Q.

(** The store at the start of the first generation. *)
Definition store_of (m : matrix) (d : nat) : store :=
  Store m (zeros (length m) d) (zeros (length m) d) Larr0.

(** ** Notions used in the statements *)

(** Two vectors hold the same numbers. *)
Definition veq (a b : vec) : Prop := Forall2 Qeq a b.

(** Component [k] of row [i]. *)
Definition at2 (m : matrix) (i k : nat) : option Q :=
  row ← m !! i; row !! k.

Definition shaped (NP d : nat) (m : matrix) : Prop :=
  length m = NP /\ Forall (fun row => length row = d) m.

(** The objective never raises. *)
Definition total (f : objective) : Prop := forall v, is_Some (f v).

(** The crossover test [(k == rnbr) or (randb[k] < CR)]. *)
Definition crossed (CR : Q) (rnbr : nat) (randb : vec) (k : nat) : bool :=
  (k =? rnbr) || match randb !! k with Some rb => Qltb rb CR | None => false end.

(** All three arrays of a run have [NP] rows of [d] components. *)
Definition store_ok (NP d : nat) (s : store) : Prop :=
  shaped NP d (arr0 s) /\ shaped NP d (u s) /\ shaped NP d (x_g s).

(** [best] is a sample of [seen], paired with its fitness, and no sample
    of [seen] has a lower fitness. *)
Definition best_among (f : objective) (seen : list vec) (best : vec * Q)
    : Prop :=
  best.1 ∈ seen /\ f best.1 = Some best.2 /\
  forall c z, c ∈ seen -> f c = Some z -> (best.2 <= z)%Q.

(** [body] run exactly [n] times in sequence. *)
Fixpoint iterate {St} (n : nat) (body : St -> M St) (s : St) : M St :=
  match n with
  | 0 => mret s
  | S n' => s' ← body s; iterate n' body s'
  end.

(** [idx] is the first position of [l] holding its minimum. *)
Definition first_min (l : list Q) (idx : nat) : Prop :=
  exists y, l !! idx = Some y /\
    (forall j z, l !! j = Some z -> (y <= z)%Q) /\
    (forall j z, j < idx -> l !! j = Some z -> (y < z)%Q).

(** [c], run from [w] on tape [t], returns with every large enough fuel,
    the same result each time, and the result satisfies [P]. *)
Definition conv {A} (c : nat -> M A) (t : tape) (w : world)
    (P : A -> world -> Prop) : Prop :=
  exists n a w', P a w' /\ forall m, n <= m -> c m t w = Ok (a, w').

(** [c] returns no result, whatever the fuel. *)
Definition diverges {A} (c : nat -> M A) (t : tape) (w : world) : Prop :=
  forall fuel, c fuel t w = OutOfFuel.

(** ** [grad] and [grad_descent] *)

(** [e = 0.0000001] *)
Definition eps : Q := 1 # 10000000.

(** [e_v = np.zeros(d); e_v[i] = e] *)
Definition unit_step (d i : nat) : vec := <[i := eps]> (replicate d 0%Q).

(** Elementwise [a + b], [a - b] and [g * c] on arrays of one shape. *)
Definition vadd (a b : vec) : vec := zip_with Qplus a b.
Definition vsub (a b : vec) : vec := zip_with Qminus a b.
Definition vscale (g : vec) (c : Q) : vec := (fun y => y * c)%Q <$> g.

(** Body of [for i in range(d)] in [grad]. *)
Definition grad_at (f : objective) (v : vec) (fv : Q) (ret : vec) (i : nat)
    : M vec :=
  y ← call_f f (vadd v (unit_step (length v) i));
  if i <? length ret then mret (<[i := ((y - fv) / eps)%Q]> ret)
  else raise IndexError.

Definition grad (v : vec) (f : objective) : M vec :=
  fv ← call_f f v;
  for_each (seq 0 (length v)) (grad_at f v fv) (replicate (length v) 0%Q).

(** Body of [for v in x]: [v] is a view of row [i], so [v -= diff] writes
    into [x]. *)
Definition descend (f : objective) (learning_rate : Q) (x : matrix) (i : nat)
    : M matrix :=
  v ← lift_idx (x !! i);
  g ← grad v f;
  mret (<[i := vsub v (vscale g learning_rate)]> x).

(** Body of the [while] loop. *)
Definition descent_sweep (f : objective) (learning_rate : Q) (x : matrix)
    : M matrix :=
  for_each (seq 0 (length x)) (descend f learning_rate) x.

(** Body of the final [for v in x]; [None] is Python's [None]. *)
Definition pick_best (f : objective) (best : option (vec * Q)) (v : vec)
    : M (option (vec * Q)) :=
  score ← call_f f v;
  match best with
  | None => mret (Some (v, score))
  | Some (_, best_score) =>
      if Qltb score best_score then mret (Some (v, score)) else mret best
  end.

Definition grad_descent (fuel : nat) (NP : Z) (f : objective)
    (learning_rate : Q) (max_gen d : Z) (obj_bounds : list Q)
    : M (option vec) :=
  x ← init_population_star NP d obj_bounds;
  x ← while_lt fuel max_gen (descent_sweep f learning_rate) 0%Z x;
  best ← for_each x (pick_best f) None;
  mret (fst <$> best).

(** ** [rosenbrock] *)

(** Body of [for i in range(d-1)]. *)
Definition rosenbrock_step (x : vec) (acc : option Q) (i : nat) : option Q :=
  ros ← acc;
  xi ← x !! i;
  xn ← x !! (i + 1);
  Some (ros + (100 * (xn - xi * xi) ^ 2 + (1 - xi) ^ 2))%Q.

Definition rosenbrock : objective := fun x =>
  foldl (rosenbrock_step x) (Some 0%Q)
        (seq 0 (Z.to_nat (Z.of_nat (length x) - 1))).

(** ** Further notions used in the statements *)

(** The constraints that [check_param] tests after its smoke test. *)
Definition is_float_in (ok : Q -> Prop) (v : pyval) : Prop :=
  exists q, (v = PFloat q \/ v = PNpFloat64 q) /\ ok q.
Definition is_int_in (ok : Z -> Prop) (v : pyval) : Prop :=
  exists z, v = PInt z /\ ok z.

Definition params_ok (NP CR F max_gen d : pyval) (obj_bounds : list Q) : Prop :=
  is_int_in (fun z => 4 <= z)%Z NP /\
  is_float_in (fun q => 0 <= q /\ q <= 1)%Q CR /\
  is_float_in (fun q => 0 < q /\ q <= 2)%Q F /\
  is_int_in (fun z => 0 < z)%Z max_gen /\
  is_int_in (fun z => 0 < z)%Z d /\
  exists b0 b1, obj_bounds = [b0; b1] /\ (b0 < b1)%Q.

Definition is_float (v : pyval) : Prop :=
  exists q, v = PFloat q \/ v = PNpFloat64 q.

(** The same constraints as the source tests them: a parameter passes when
    it has the required type and the comparison that would reject it does
    not hold. *)
Definition tests_pass (NP CR F max_gen d : pyval) (obj_bounds : list Q)
    : Prop :=
  is_int_in (fun z => ~ (z < 4))%Z NP /\
  is_float_in (fun q => ~ (q < 0 \/ 1 < q))%Q CR /\
  is_float_in (fun q => ~ (q <= 0 \/ 2 < q))%Q F /\
  is_int_in (fun z => ~ (z <= 0))%Z max_gen /\
  is_int_in (fun z => ~ (z <= 0))%Z d /\
  exists b0 b1, obj_bounds = [b0; b1] /\ ~ (b1 <= b0)%Q.

(** [best] is the running best of the final loop of [grad_descent] after
    the samples [p]: nothing yet when [p] is empty, otherwise the first
    sample of least fitness, with its fitness. *)
Definition first_best (f : objective) (p : list vec) (best : option (vec * Q))
    : Prop :=
  match best with
  | None => p = []
  | Some (v, y) =>
      exists fits idx,
        Forall2 (fun c z => f c = Some z) p fits /\ first_min fits idx /\
        p !! idx = Some v /\ fits !! idx = Some y
  end.

(** * Properties *)

(** ** The monad *)

Lemma bind_run {A B} (m : M A) (k : A -> M B) t w :
  (m ≫= k) t w =
  match m t w with
  | Ok (a, w') => k a t w'
  | Raise e => Raise e
  | OutOfFuel => OutOfFuel
  end.
Proof. reflexivity. Qed.

Lemma ret_run {A} (a : A) t w : (mret a : M A) t w = Ok (a, w).
Proof. reflexivity. Qed.

Lemma bind_Ok {A B} (m : M A) (k : A -> M B) t w r :
  (m ≫= k) t w = Ok r ->
  exists a w1, m t w = Ok (a, w1) /\ k a t w1 = Ok r.
Proof.
  rewrite bind_run. destruct (m t w) as [[a w1]| |]; try discriminate.
  intros H. exists a, w1. split; [reflexivity | exact H].
Qed.

Lemma ret_Ok {A} (a : A) t w r : (mret a : M A) t w = Ok r -> r = (a, w).
Proof. intros H. injection H as <-. reflexivity. Qed.

Lemma lift_idx_Ok {A} (o : option A) t w a w' :
  lift_idx o t w = Ok (a, w') -> o = Some a /\ w' = w.
Proof.
  destruct o as [b|]; cbn; [|discriminate].
  intros H. injection H as <- <-. split; reflexivity.
Qed.

Ltac inv_bind H :=
  let a := fresh "a" in
  let w1 := fresh "w" in
  let H1 := fresh "H" in
  apply bind_Ok in H as (a & w1 & H1 & H).

Ltac inv_ret H := apply ret_Ok in H; injection H as ? ?; subst.

(** ** Random draws *)

Lemma randint_pos high t w :
  0 < high ->
  randint high t w =
  Ok (num (t (pos w)) mod high, World (S (pos w)) (evals w)).
Proof. destruct high; [lia | reflexivity]. Qed.

Lemma randint_Ok high t w v w' :
  randint high t w = Ok (v, w') ->
  v = num (t (pos w)) mod high /\ v < high /\
  w' = World (S (pos w)) (evals w).
Proof.
  destruct high as [|h]; [discriminate|].
  intros H. rewrite (randint_pos (S h) t w) in H by lia.
  assert (Hv : v = num (t (pos w)) mod S h) by congruence.
  assert (Hw : w' = World (S (pos w)) (evals w)) by congruence.
  subst. split; [reflexivity|]. split; [|reflexivity].
  apply Nat.mod_upper_bound. discriminate.
Qed.

Lemma redraw_Ok fuel bad NP : forall r t w r' w',
  redraw fuel bad NP r t w = Ok (r', w') ->
  r < NP ->
  bad r' = false /\ r' < NP /\ pos w <= pos w' /\ evals w' = evals w.
Proof.
  induction fuel as [|n IH]; intros r t w r' w' H Hr; cbn in H.
  - destruct (bad r) eqn:Hb; [discriminate|].
    inv_ret H. auto.
  - destruct (bad r) eqn:Hb.
    + inv_bind H. apply randint_Ok in H0 as (-> & Hlt & ->).
      apply IH in H as (? & ? & ? & ?); [|exact Hlt].
      cbn in *. repeat split; auto; lia.
    + inv_ret H. auto.
Qed.

Lemma pick_rand_idx_Ok fuel i NP t w r1 r2 r3 w' :
  pick_rand_idx fuel i NP t w = Ok ((r1, r2, r3), w') ->
  (r1 < NP /\ r2 < NP /\ r3 < NP) /\
  (r1 <> r2 /\ r1 <> r3 /\ r2 <> r3) /\
  (r1 <> i /\ r2 <> i /\ r3 <> i) /\
  pos w + 3 <= pos w' /\ evals w' = evals w.
Proof.
  unfold pick_rand_idx, randint3. intros H.
  inv_bind H. destruct a as [[a1 a2] a3].
  inv_bind H0. inv_bind H0. inv_bind H0. inv_ret H0.
  apply randint_Ok in H1 as (_ & Ha1 & ->).
  apply randint_Ok in H2 as (_ & Ha2 & ->).
  apply randint_Ok in H3 as (_ & Ha3 & ->).
  inv_bind H. apply redraw_Ok in H0 as (Hb1 & Hr1 & Hp1 & He1); [|exact Ha1].
  inv_bind H. apply redraw_Ok in H0 as (Hb2 & Hr2 & Hp2 & He2); [|exact Ha2].
  inv_bind H. apply redraw_Ok in H0 as (Hb3 & Hr3 & Hp3 & He3); [|exact Ha3].
  inv_ret H. cbn in *.
  apply Nat.eqb_neq in Hb1.
  apply orb_false_elim in Hb2 as [Hb21 Hb2i].
  apply orb_false_elim in Hb3 as [Hb3' Hb3i].
  apply orb_false_elim in Hb3' as [Hb32 Hb31].
  apply Nat.eqb_neq in Hb21, Hb2i, Hb3i, Hb32, Hb31.
  repeat split; try assumption; try lia; congruence.
Qed.

(** C3. Whenever [pick_rand_idx(i, NP)] returns, for [NP >= 4] and [i] in
    [[0, NP)], the three indices lie in [[0, NP)], are pairwise distinct
    and each differs from [i]. *)
Theorem pick_rand_idx_distinct fuel i NP t w r1 r2 r3 w' :
  4 <= NP -> i < NP ->
  pick_rand_idx fuel i NP t w = Ok ((r1, r2, r3), w') ->
  (r1 < NP /\ r2 < NP /\ r3 < NP) /\
  (r1 <> r2 /\ r1 <> r3 /\ r2 <> r3) /\
  (r1 <> i /\ r2 <> i /\ r3 <> i).
Proof.
  intros _ _ H. apply pick_rand_idx_Ok in H as (H1 & H2 & H3 & _).
  auto.
Qed.

Lemma pick_rand_idx_distinct_witness :
  pick_rand_idx 5 0 4 (counting 3) start = Ok ((3, 1, 2), World 4 []) /\
  (3 < 4 /\ 1 < 4 /\ 2 < 4) /\
  (3 <> 1 /\ 3 <> 2 /\ 1 <> 2) /\ (3 <> 0 /\ 1 <> 0 /\ 2 <> 0).
Proof.
  split; [reflexivity|].
  apply (pick_rand_idx_distinct 5 0 4 (counting 3) start 3 1 2 (World 4 []));
    [lia | lia | reflexivity].
Defined.

(** ** Convergence *)

Lemma conv_ret {A} (a : A) t w (P : A -> world -> Prop) :
  P a w -> conv (fun _ => mret a) t w P.
Proof. intros HP. exists 0, a, w. split; [exact HP | reflexivity]. Qed.

Lemma conv_bind {A B} (c : nat -> M A) (k : nat -> A -> M B) t w P Q :
  conv c t w P ->
  (forall a w', P a w' -> conv (fun m => k m a) t w' Q) ->
  conv (fun m => c m ≫= k m) t w Q.
Proof.
  intros (n1 & a & w1 & HP & Hc) Hk.
  destruct (Hk a w1 HP) as (n2 & b & w2 & HQ & Hk2).
  exists (Nat.max n1 n2), b, w2. split; [exact HQ|].
  intros m Hm. rewrite bind_run, Hc by lia. apply Hk2. lia.
Qed.

Lemma conv_weaken {A} (c : nat -> M A) t w (P Q : A -> world -> Prop) :
  conv c t w P -> (forall a w', P a w' -> Q a w') -> conv c t w Q.
Proof.
  intros (n & a & w' & HP & Hc) HPQ. exists n, a, w'. auto.
Qed.

(** A postcondition that every returned result satisfies can be added. *)
Lemma conv_post {A} (c : nat -> M A) t w (P Q : A -> world -> Prop) :
  conv c t w P ->
  (forall m a w', c m t w = Ok (a, w') -> Q a w') ->
  conv c t w (fun a w' => P a w' /\ Q a w').
Proof.
  intros (n & a & w' & HP & Hc) HQ. exists n, a, w'.
  split; [|exact Hc]. split; [exact HP|]. apply (HQ n). apply Hc. lia.
Qed.

Lemma conv_for_each {A St} (body : nat -> St -> A -> M St) t
    (I : St -> world -> Prop) (l : list A) :
  (forall s a w, In a l -> I s w -> conv (fun m => body m s a) t w I) ->
  forall s w, I s w -> conv (fun m => for_each l (body m) s) t w I.
Proof.
  induction l as [|a l IH]; intros Hb s w HI.
  - apply conv_ret. exact HI.
  - cbn [for_each].
    apply (conv_bind (fun m => body m s a)
                     (fun m s' => for_each l (body m) s') t w I I).
    + apply Hb; [left; reflexivity | exact HI].
    + intros s' w' HI'. apply IH; [|exact HI'].
      intros s0 a0 w0 Hin. apply Hb. right. exact Hin.
Qed.

(** The [while] loop returns once gas and fuel are large enough. *)
Lemma while_lt_converges {St} (body : nat -> St -> M St) t max_gen
    (I : St -> world -> Prop) :
  (forall s w, I s w -> conv (fun m => body m s) t w I) ->
  forall k n_gen s w, Z.to_nat (max_gen - n_gen) = k -> I s w ->
  exists n s' w', I s' w' /\
    forall g m, n <= g -> n <= m ->
      while_lt g max_gen (body m) n_gen s t w = Ok (s', w').
Proof.
  intros Hb. induction k as [|k IH]; intros n_gen s w Hk HI.
  - exists 0, s, w. split; [exact HI|]. intros g m _ _.
    destruct g; cbn; destruct (Z.ltb_spec n_gen max_gen); try lia;
      reflexivity.
  - destruct (Hb s w HI) as (n1 & s1 & w1 & HI1 & Hc1).
    destruct (IH (n_gen + 1)%Z s1 w1) as (n2 & s2 & w2 & HI2 & Hc2);
      [lia | exact HI1 |].
    exists (S (Nat.max n1 n2)), s2, w2. split; [exact HI2|].
    intros g m Hg Hm. destruct g as [|g]; [lia|]. cbn [while_lt].
    destruct (Z.ltb_spec n_gen max_gen); [|lia].
    rewrite bind_run, Hc1 by lia. apply Hc2; lia.
Qed.

(** ** Termination of the rejection loops *)

Lemma redraw_S fuel bad NP r :
  redraw (S fuel) bad NP r =
  if bad r then randint NP ≫= redraw fuel bad NP else mret r.
Proof. reflexivity. Qed.

Lemma redraw_good fuel bad NP r t w :
  bad r = false -> redraw fuel bad NP r t w = Ok (r, w).
Proof. intros H. destruct fuel; cbn; rewrite H; reflexivity. Qed.

Lemma redraw_reaches bad NP t v :
  0 < NP -> bad v = false ->
  forall k w r, num (t (pos w + k)) mod NP = v ->
  exists r' w', forall m, S k <= m -> redraw m bad NP r t w = Ok (r', w').
Proof.
  intros HNP Hv. induction k as [|k IH]; intros w r Hq.
  - destruct (bad r) eqn:Hb.
    + exists v, (World (S (pos w)) (evals w)). intros m Hm.
      destruct m as [|m]; [lia|]. rewrite redraw_S, Hb, bind_run.
      rewrite randint_pos by exact HNP.
      rewrite Nat.add_0_r in Hq. rewrite Hq. apply redraw_good, Hv.
    + exists r, w. intros m _. apply redraw_good, Hb.
  - destruct (bad r) eqn:Hb.
    + destruct (IH (World (S (pos w)) (evals w))
                   (num (t (pos w)) mod NP)) as (r' & w' & Hc).
      { cbn. rewrite <- Hq. f_equal. f_equal. f_equal. lia. }
      exists r', w'. intros m Hm. destruct m as [|m]; [lia|].
      rewrite redraw_S, Hb, bind_run, randint_pos by exact HNP.
      apply Hc. lia.
    + exists r, w. intros m _. apply redraw_good, Hb.
Qed.

Lemma redraw_conv bad NP t :
  fair NP t -> (exists v, v < NP /\ bad v = false) ->
  forall r w, conv (fun m => redraw m bad NP r) t w (fun _ _ => True).
Proof.
  intros Hfair (v & Hlt & Hv) r w.
  destruct (Hfair (pos w) v Hlt) as (q & Hq & Hdraw).
  destruct (redraw_reaches bad NP t v ltac:(lia) Hv (q - pos w) w r)
    as (r' & w' & Hc).
  { rewrite <- Hdraw. f_equal. f_equal. f_equal. lia. }
  exists (S (q - pos w)), r', w'. split; [exact I | exact Hc].
Qed.

Lemma exists_fresh3 NP a b c :
  4 <= NP -> exists v, v < NP /\ v <> a /\ v <> b /\ v <> c.
Proof.
  intros H.
  destruct (decide (0 <> a /\ 0 <> b /\ 0 <> c)); [exists 0; lia|].
  destruct (decide (1 <> a /\ 1 <> b /\ 1 <> c)); [exists 1; lia|].
  destruct (decide (2 <> a /\ 2 <> b /\ 2 <> c)); [exists 2; lia|].
  exists 3. lia.
Qed.

Lemma randint_conv NP t w :
  0 < NP -> conv (fun _ => randint NP) t w (fun r _ => r < NP).
Proof.
  intros H. exists 0, (num (t (pos w)) mod NP), (World (S (pos w)) (evals w)).
  split; [apply Nat.mod_upper_bound; lia|].
  intros m _. apply randint_pos, H.
Qed.

Lemma pick_rand_idx_conv i NP t w :
  4 <= NP -> fair NP t ->
  conv (fun fuel => pick_rand_idx fuel i NP) t w
       (fun r _ => r.1.1 < NP /\ r.1.2 < NP /\ r.2 < NP).
Proof.
  intros HNP Hfair.
  assert (Hc : conv (fun fuel => pick_rand_idx fuel i NP) t w (fun _ _ => True)).
  { unfold pick_rand_idx.
    apply (conv_bind (fun _ => randint3 NP) _ t w (fun _ _ => True)).
    { unfold randint3.
      repeat (apply (conv_bind (fun _ => randint NP) _ _ _ (fun _ _ => True));
              [eapply conv_weaken; [apply randint_conv; lia | auto]|];
              intros ? ? _).
      apply conv_ret. exact I. }
    intros [[a1 a2] a3] w1 _.
    apply (conv_bind (fun m => redraw m _ NP a1) _ _ _ (fun _ _ => True)).
    { apply redraw_conv; [exact Hfair|].
      destruct (exists_fresh3 NP i i i HNP) as (v & ? & ? & _).
      exists v. split; [assumption|]. apply Nat.eqb_neq. assumption. }
    intros r1 w2 _.
    apply (conv_bind (fun m => redraw m _ NP a2) _ _ _ (fun _ _ => True)).
    { apply redraw_conv; [exact Hfair|].
      destruct (exists_fresh3 NP r1 i i HNP) as (v & ? & ? & ? & _).
      exists v. split; [assumption|].
      apply orb_false_intro; apply Nat.eqb_neq; assumption. }
    intros r2 w3 _.
    apply (conv_bind (fun m => redraw m _ NP a3) _ _ _ (fun _ _ => True)).
    { apply redraw_conv; [exact Hfair|].
      destruct (exists_fresh3 NP r2 r1 i HNP) as (v & ? & ? & ? & ?).
      exists v. split; [assumption|].
      repeat apply orb_false_intro; apply Nat.eqb_neq; assumption. }
    intros r3 w4 _. apply conv_ret. exact I. }
  eapply conv_weaken.
  - apply (conv_post _ _ _ _
             (fun r _ => r.1.1 < NP /\ r.1.2 < NP /\ r.2 < NP) Hc).
    intros m [[r1 r2] r3] w' H.
    apply pick_rand_idx_Ok in H as (H & _). exact H.
  - intros a w' [_ H]. exact H.
Qed.

(** ** Failure of the rejection loops on small populations *)

Lemma redraw_no_raise bad NP e t :
  0 < NP -> forall fuel r w, redraw fuel bad NP r t w <> Raise e.
Proof.
  intros HNP. induction fuel as [|n IH]; intros r w.
  - cbn. destruct (bad r); discriminate.
  - rewrite redraw_S. destruct (bad r); [|discriminate].
    rewrite bind_run, randint_pos by exact HNP. apply IH.
Qed.

Lemma randint3_pos NP t w :
  0 < NP ->
  randint3 NP t w =
  Ok ((num (t (pos w)) mod NP, num (t (S (pos w))) mod NP,
       num (t (S (S (pos w)))) mod NP),
      World (S (S (S (pos w)))) (evals w)).
Proof.
  intros H. unfold randint3.
  rewrite bind_run, randint_pos by exact H. cbn beta iota.
  rewrite bind_run, randint_pos by exact H. cbn beta iota.
  rewrite bind_run, randint_pos by exact H. reflexivity.
Qed.

Lemma pick_rand_idx_small i NP t w :
  i < NP -> NP < 4 -> diverges (fun fuel => pick_rand_idx fuel i NP) t w.
Proof.
  intros Hi HNP fuel. unfold pick_rand_idx.
  assert (H0 : 0 < NP) by lia.
  assert (Hlt : forall n, n mod NP < NP)
    by (intros n; apply Nat.mod_upper_bound; lia).
  rewrite bind_run, randint3_pos by exact H0. cbn beta iota.
  rewrite bind_run.
  match goal with |- context [redraw fuel ?b NP ?r t ?w0] =>
    destruct (redraw fuel b NP r t w0) as [[r1 w1]| e |] eqn:E1 end;
    [| exfalso; exact (redraw_no_raise _ NP e t H0 _ _ _ E1) | reflexivity].
  apply redraw_Ok in E1 as (Hb1 & Hr1 & _); [|apply Hlt].
  rewrite bind_run.
  match goal with |- context [redraw fuel ?b NP ?r t ?w0] =>
    destruct (redraw fuel b NP r t w0) as [[r2 w2]| e |] eqn:E2 end;
    [| exfalso; exact (redraw_no_raise _ NP e t H0 _ _ _ E2) | reflexivity].
  apply redraw_Ok in E2 as (Hb2 & Hr2 & _); [|apply Hlt].
  rewrite bind_run.
  match goal with |- context [redraw fuel ?b NP ?r t ?w0] =>
    destruct (redraw fuel b NP r t w0) as [[r3 w3]| e |] eqn:E3 end;
    [| exfalso; exact (redraw_no_raise _ NP e t H0 _ _ _ E3) | reflexivity].
  apply redraw_Ok in E3 as (Hb3 & Hr3 & _); [|apply Hlt].
  exfalso.
  apply Nat.eqb_neq in Hb1.
  apply orb_false_elim in Hb2 as [Hb21 Hb2i].
  apply orb_false_elim in Hb3 as [Hb3' Hb3i].
  apply orb_false_elim in Hb3' as [Hb32 Hb31].
  apply Nat.eqb_neq in Hb21, Hb2i, Hb3i, Hb32, Hb31.
  lia.
Qed.

Lemma counting_fair NP den0 : 0 < NP -> fair NP (counting den0).
Proof.
  intros HNP p v Hv. exists (v + p * NP). split; [nia|].
  cbn. rewrite Nat.Div0.mod_add. apply Nat.mod_small, Hv.
Qed.

(** C9. The rejection loops of [pick_rand_idx(i, NP)], for [i] in
    [[0, NP)]: with [NP >= 4] the call returns, on every tape on which
    each index of [[0, NP)] keeps being drawn; with [NP < 4] it never
    returns, whatever the tape and the fuel; and with [NP = 0] the first
    draw raises. *)
Theorem pick_rand_idx_termination i NP t w :
  (i < NP -> 4 <= NP -> fair NP t ->
   conv (fun fuel => pick_rand_idx fuel i NP) t w
        (fun r _ => r.1.1 < NP /\ r.1.2 < NP /\ r.2 < NP)) /\
  (i < NP -> NP < 4 -> diverges (fun fuel => pick_rand_idx fuel i NP) t w) /\
  (NP = 0 -> forall fuel, pick_rand_idx fuel i NP t w = Raise ValueError).
Proof.
  split; [|split].
  - intros _. apply pick_rand_idx_conv.
  - apply pick_rand_idx_small.
  - intros -> fuel. reflexivity.
Qed.

Lemma pick_rand_idx_termination_witness :
  conv (fun fuel => pick_rand_idx fuel 1 4) (counting 0) start
       (fun r _ => r.1.1 < 4 /\ r.1.2 < 4 /\ r.2 < 4) /\
  diverges (fun fuel => pick_rand_idx fuel 1 3) (counting 0) start /\
  (forall fuel, pick_rand_idx fuel 1 0 (counting 0) start = Raise ValueError).
Proof.
  split; [|split].
  - apply (proj1 (pick_rand_idx_termination 1 4 (counting 0) start));
      [lia | lia | apply counting_fair; lia].
  - apply (proj1 (proj2 (pick_rand_idx_termination 1 3 (counting 0) start)));
      lia.
  - apply (proj2 (proj2 (pick_rand_idx_termination 1 0 (counting 0) start))).
    reflexivity.
Defined.

(** ** [init_population] *)

Lemma random_sample_run d t : forall w,
  random_sample d t w =
  Ok ((fun j => unit_of (t (pos w + j))) <$> seq 0 d,
      World (pos w + d) (evals w)).
Proof.
  induction d as [|d IH]; intros w.
  - cbn. rewrite Nat.add_0_r. destruct w; reflexivity.
  - cbn [random_sample]. unfold random_float at 1.
    rewrite bind_run, bind_run. unfold draw_cell. cbn beta iota.
    rewrite ret_run. cbn beta iota. rewrite bind_run, IH. cbn [pos evals].
    cbn [seq]. rewrite fmap_cons, <- fmap_S_seq, <- list_fmap_compose.
    rewrite Nat.add_0_r, ret_run.
    replace (S (pos w) + d) with (pos w + S d) by lia.
    f_equal. f_equal. f_equal.
    apply list_fmap_ext. intros _ j _. cbn. f_equal. f_equal. lia.
Qed.

Lemma rand_run NP d t : forall w,
  rand NP d t w =
  Ok ((fun a => (fun b => unit_of (t (pos w + a * d + b))) <$> seq 0 d)
        <$> seq 0 NP,
      World (pos w + NP * d) (evals w)).
Proof.
  induction NP as [|NP IH]; intros w.
  - cbn. rewrite Nat.add_0_r. destruct w; reflexivity.
  - cbn [rand]. rewrite bind_run, random_sample_run. cbn beta iota.
    rewrite bind_run, IH. cbn [pos evals].
    cbn [seq]. rewrite fmap_cons, <- fmap_S_seq, <- list_fmap_compose.
    replace (pos w + d + NP * d) with (pos w + S NP * d) by lia.
    rewrite ret_run. f_equal. f_equal. f_equal.
    + apply list_fmap_ext. intros _ b _. f_equal. f_equal. lia.
    + apply list_fmap_ext. intros _ a _. cbn.
      apply list_fmap_ext. intros _ b _. f_equal. f_equal. lia.
Qed.

Lemma init_population_run NP d lb ub t w :
  (0 <= NP)%Z -> (0 <= d)%Z ->
  init_population NP d lb ub t w =
  Ok (fmap (M:=list) (fmap (M:=list) (fun r => r * (ub - lb) + lb)%Q)
        ((fun a => (fun b => unit_of (t (pos w + a * Z.to_nat d + b)))
                     <$> seq 0 (Z.to_nat d))
           <$> seq 0 (Z.to_nat NP)),
      World (pos w + Z.to_nat NP * Z.to_nat d) (evals w)).
Proof.
  intros HNP Hd. unfold init_population.
  destruct (Z.ltb_spec NP 0); [lia|]. destruct (Z.ltb_spec d 0); [lia|].
  cbn [orb]. rewrite bind_run, rand_run. reflexivity.
Qed.

Lemma unit_of_range c : (0 <= unit_of c /\ unit_of c < 1)%Q.
Proof.
  unfold unit_of, Qle, Qlt. cbn [Qnum Qden].
  pose proof (Nat.mod_upper_bound (num c) (S (den c)) ltac:(discriminate)).
  rewrite Zpos_P_of_succ_nat. split; lia.
Qed.

Lemma shaped_fmap_seq {A} NP d (g : nat -> nat -> A) (h : A -> Q) :
  shaped NP d (fmap (M:=list) (fmap (M:=list) h)
                 ((fun a => g a <$> seq 0 d) <$> seq 0 NP)).
Proof.
  split.
  - rewrite !length_fmap, length_seq. reflexivity.
  - rewrite !Forall_fmap. apply Forall_forall. intros a _.
    cbn. rewrite !length_fmap, length_seq. reflexivity.
Qed.

Lemma at2_fmap_seq NP d (g : nat -> nat -> Q) (h : Q -> Q) a b :
  at2 (fmap (M:=list) (fmap (M:=list) h)
         ((fun a => g a <$> seq 0 d) <$> seq 0 NP)) a b =
  if decide (a < NP /\ b < d) then Some (h (g a b)) else None.
Proof.
  unfold at2. rewrite !list_lookup_fmap.
  destruct (decide (a < NP)) as [Ha|Ha].
  - rewrite lookup_seq_lt by exact Ha. cbn. rewrite !list_lookup_fmap.
    destruct (decide (b < d)) as [Hb|Hb].
    + rewrite lookup_seq_lt by exact Hb. cbn.
      rewrite decide_True by auto. reflexivity.
    + rewrite lookup_seq_ge by lia. cbn.
      rewrite decide_False by tauto. reflexivity.
  - rewrite lookup_seq_ge by lia. cbn.
    rewrite decide_False by tauto. reflexivity.
Qed.

(** C8 (where the code departs from it).  The components of
    [init_population] do not all lie in [[lb, ub)]: in binary64 the
    expression [r*(ub-lb)+lb] rounds up to [ub] itself.  With [lb = 1],
    [ub = 2] and the draw [r = 1 - 2^-53] (the largest value of
    [np.random.rand]) the population of one vector of dimension one is
    [[2.0]]; with [lb = 2^60], [ub = 2^60 + 256] the draw [r = 0.75]
    gives [[ub]] as well.  In both cases [0 <= r < 1] and [lb < ub], and
    the component [c] fails [c < ub]. *)
Theorem init_population_reaches_upper_bound :
  (let r := f64_draw (2 ^ 53 - 1) in
   let lb := f64_of_Z 1 0 in
   let ub := f64_of_Z 2 0 in
   f64_unit r = true /\ f64_ltb lb ub = true /\
   exists c, init_population_f64 [[r]] lb ub = [[c]] /\
             c = ub /\ f64_ltb c ub = false) /\
  (let r := f64_draw (3 * 2 ^ 51) in
   let lb := f64_of_Z 1 60 in
   let ub := f64_of_Z (2 ^ 60 + 256) 0 in
   f64_unit r = true /\ f64_ltb lb ub = true /\
   exists c, init_population_f64 [[r]] lb ub = [[c]] /\
             c = ub /\ f64_ltb c ub = false).
Proof.
  split; cbv zeta.
  - split; [vm_compute; reflexivity|].
    split; [vm_compute; reflexivity|].
    exists (f64_of_Z 2 0).
    split; [vm_compute; reflexivity|].
    split; [reflexivity | vm_compute; reflexivity].
  - split; [vm_compute; reflexivity|].
    split; [vm_compute; reflexivity|].
    exists (f64_of_Z (2 ^ 60 + 256) 0).
    split; [vm_compute; reflexivity|].
    split; [reflexivity | vm_compute; reflexivity].
Qed.

(** ** Mutation *)

Lemma get2_Ok (m : matrix) r k t w v w' :
  get2 m r k t w = Ok (v, w') -> at2 m r k = Some v /\ w' = w.
Proof.
  unfold get2, at2. intros H. inv_bind H.
  apply lift_idx_Ok in H0 as [-> ->].
  apply lift_idx_Ok in H as [H ->]. cbn. auto.
Qed.

Lemma mutate_at_pos_Ok fuel (m : matrix) F i k t w v w' :
  mutate_at_pos fuel m F i k t w = Ok (v, w') ->
  exists r1 r2 r3 a b c,
    pick_rand_idx fuel i (length m) t w = Ok ((r1, r2, r3), w') /\
    at2 m r1 k = Some a /\ at2 m r2 k = Some b /\ at2 m r3 k = Some c /\
    v = (a + F * (b - c))%Q.
Proof.
  unfold mutate_at_pos. intros H. inv_bind H. destruct a as [[r1 r2] r3].
  inv_bind H. apply get2_Ok in H1 as [Ha ->].
  inv_bind H. apply get2_Ok in H1 as [Hb ->].
  inv_bind H. apply get2_Ok in H1 as [Hc ->].
  inv_ret H. exists r1, r2, r3, a, a0, a1. auto.
Qed.

(** ** Crossover *)

Lemma set_u_Ok s i k v t w s' w' :
  set_u s i k v t w = Ok (s', w') ->
  w' = w /\
  exists row, u s !! i = Some row /\ k < length row /\
    s' = Store (arr0 s) (<[i := <[k := v]> row]> (u s)) (x_g s) (x s).
Proof.
  unfold set_u. intros H. inv_bind H. apply lift_idx_Ok in H0 as [Hrow ->].
  destruct (Nat.ltb_spec k (length a)); [|discriminate].
  inv_ret H. split; [reflexivity|]. exists a. auto.
Qed.

Lemma crossover_at_Ok fuel CR F i rnbr randb s k t w s' w' :
  crossover_at fuel CR F i rnbr randb s k t w = Ok (s', w') ->
  exists row v,
    u s !! i = Some row /\ k < length row /\
    s' = Store (arr0 s) (<[i := <[k := v]> row]> (u s)) (x_g s) (x s) /\
    if crossed CR rnbr randb k
    then mutate_at_pos fuel (cur s) F i k t w = Ok (v, w')
    else at2 (cur s) i k = Some v /\ w' = w.
Proof.
  unfold crossover_at, crossed. intros H. inv_bind H.
  assert (Hb : a = ((k =? rnbr) ||
            match randb !! k with Some rb => Qltb rb CR | None => false end)
          /\ w0 = w).
  { destruct (k =? rnbr).
    - inv_ret H0. auto.
    - inv_bind H0. apply lift_idx_Ok in H1 as [-> ->]. inv_ret H0. auto. }
  destruct Hb as [-> ->].
  destruct (_ || _).
  - inv_bind H. apply set_u_Ok in H as (-> & row & Hrow & Hk & ->).
    exists row, a. auto.
  - inv_bind H. apply get2_Ok in H1 as [Hv ->].
    apply set_u_Ok in H as (-> & row & Hrow & Hk & ->).
    exists row, a. auto.
Qed.

(** What one pass over the dimensions [a, a+n) leaves in the store. *)
Lemma crossover_loop_Ok fuel CR F i rnbr randb t : forall n a s w s' w',
  for_each (seq a n) (crossover_at fuel CR F i rnbr randb) s t w
    = Ok (s', w') ->
  arr0 s' = arr0 s /\ x_g s' = x_g s /\ x s' = x s /\
  pos w <= pos w' /\ evals w' = evals w /\
  (forall j, j <> i -> u s' !! j = u s !! j) /\
  (forall k, k < a \/ a + n <= k -> at2 (u s') i k = at2 (u s) i k) /\
  (forall k, a <= k < a + n -> exists v,
     at2 (u s') i k = Some v /\
     if crossed CR rnbr randb k
     then exists wk wk', pos w <= pos wk /\ pos wk + 3 <= pos wk' /\
            pos wk' <= pos w' /\
            mutate_at_pos fuel (cur s) F i k t wk = Ok (v, wk')
     else at2 (cur s) i k = Some v).
Proof.
  induction n as [|n IH]; intros a s w s' w' H.
  - cbn in H. inv_ret H. repeat split; auto. intros k Hk. lia.
  - cbn [seq for_each] in H. inv_bind H.
    apply crossover_at_Ok in H0 as (row & v & Hrow & Hk & -> & Hv).
    apply IH in H as (H1 & H2 & H3 & Hp & He & Hu & Hout & Hin).
    cbn [arr0 x_g x u] in *.
    assert (Hcur : forall s0, cur (Store (arr0 s) s0 (x_g s) (x s)) = cur s)
      by (intros; reflexivity).
    assert (Hw : pos w <= pos w0 /\ evals w0 = evals w /\
                 (crossed CR rnbr randb a = true -> pos w + 3 <= pos w0)).
    { destruct (crossed CR rnbr randb a).
      - apply mutate_at_pos_Ok in Hv as (r1 & r2 & r3 & _ & _ & _ & Hpick & _).
        apply pick_rand_idx_Ok in Hpick as (_ & _ & _ & Hpos & Hev).
        repeat split; [lia | exact Hev | intros _; exact Hpos].
      - destruct Hv as [_ ->]. repeat split; [lia | discriminate]. }
    destruct Hw as (Hw1 & Hw2 & Hw3).
    repeat split; try assumption; try lia; try congruence.
    + intros j Hj. rewrite Hu by exact Hj.
      apply list_lookup_insert_ne. congruence.
    + intros k Hka. rewrite Hout by lia. unfold at2.
      rewrite list_lookup_insert_eq by (eapply lookup_lt_Some; exact Hrow).
      rewrite Hrow. cbn. apply list_lookup_insert_ne. lia.
    + intros k Hka. destruct (decide (k = a)) as [->|Hne].
      * exists v. split.
        -- rewrite Hout by lia. unfold at2.
           rewrite list_lookup_insert_eq by (eapply lookup_lt_Some; exact Hrow).
           cbn. apply list_lookup_insert_eq. exact Hk.
        -- destruct (crossed CR rnbr randb a) eqn:Hc.
           ++ exists w, w0.
              repeat split; [lia | auto | lia | exact Hv].
           ++ destruct Hv as [Hv _]. exact Hv.
      * destruct (Hin k ltac:(lia)) as (v' & Hv' & Hc).
        exists v'. split; [exact Hv'|].
        rewrite Hcur in Hc.
        destruct (crossed CR rnbr randb k); [|exact Hc].
        destruct Hc as (wk & wk' & ? & ? & ? & ?).
        exists wk, wk'. repeat split; [lia | lia | lia | assumption].
Qed.

Lemma cur_eq s s' :
  arr0 s' = arr0 s -> x_g s' = x_g s -> x s' = x s -> cur s' = cur s.
Proof. unfold cur. intros -> -> ->. reflexivity. Qed.

Lemma for_each_app {A St} (l1 l2 : list A) (body : St -> A -> M St) s t w :
  for_each (l1 ++ l2) body s t w =
  (for_each l1 body s ≫= for_each l2 body) t w.
Proof.
  revert s w. induction l1 as [|a l1 IH]; intros s w.
  - reflexivity.
  - cbn [app for_each]. rewrite !bind_run.
    destruct (body s a t w) as [[s1 w1]| |]; [|reflexivity..].
    rewrite IH. reflexivity.
Qed.

(** Two crossed dimensions are mutated by two calls, the second one
    starting on the tape where the first one has stopped or later. *)
Lemma crossover_pair fuel CR F i rnbr randb t d s w s' w' k1 k2 :
  for_each (seq 0 d) (crossover_at fuel CR F i rnbr randb) s t w
    = Ok (s', w') ->
  k1 < k2 < d ->
  crossed CR rnbr randb k1 = true -> crossed CR rnbr randb k2 = true ->
  exists v1 v2 wa wa' wb wb',
    at2 (u s') i k1 = Some v1 /\ at2 (u s') i k2 = Some v2 /\
    mutate_at_pos fuel (cur s) F i k1 t wa = Ok (v1, wa') /\
    mutate_at_pos fuel (cur s) F i k2 t wb = Ok (v2, wb') /\
    pos wa + 3 <= pos wa' /\ pos wa' <= pos wb /\ pos wb + 3 <= pos wb'.
Proof.
  intros H Hk Hc1 Hc2.
  replace d with (k2 + (d - k2)) in H by lia.
  rewrite seq_app, for_each_app in H. inv_bind H.
  apply crossover_loop_Ok in H0 as (E1 & E2 & E3 & _ & _ & _ & _ & Hin1).
  pose proof H as H'.
  apply crossover_loop_Ok in H as (_ & _ & _ & _ & _ & _ & Hout2 & Hin2).
  rewrite (cur_eq _ _ E1 E2 E3) in Hin2.
  destruct (Hin1 k1 ltac:(lia)) as (v1 & Hv1 & Hm1).
  destruct (Hin2 k2 ltac:(lia)) as (v2 & Hv2 & Hm2).
  rewrite Hc1 in Hm1. rewrite Hc2 in Hm2.
  destruct Hm1 as (wa & wa' & _ & Ha & Ha' & Hma).
  destruct Hm2 as (wb & wb' & Hb & Hb' & _ & Hmb).
  exists v1, v2, wa, wa', wb, wb'.
  rewrite Hout2 by lia. repeat split; try assumption. lia.
Qed.

Lemma random_sample_Ok d t w randb w' :
  random_sample d t w = Ok (randb, w') ->
  length randb = d /\ pos w' = pos w + d /\ evals w' = evals w /\
  Forall (fun r => (0 <= r /\ r < 1)%Q) randb.
Proof.
  rewrite random_sample_run. intros H.
  assert (Hr : randb = (fun j => unit_of (t (pos w + j))) <$> seq 0 d)
    by congruence.
  assert (Hw : w' = World (pos w + d) (evals w)) by congruence.
  subst. rewrite length_fmap, length_seq. repeat split.
  apply Forall_fmap, Forall_forall. intros j _. apply unit_of_range.
Qed.

Lemma build_trial_Ok fuel CR F d s i t w rnbr randb s' w' :
  build_trial fuel CR F d s i t w = Ok ((rnbr, randb, s'), w') ->
  rnbr < d /\ length randb = d /\
  arr0 s' = arr0 s /\ x_g s' = x_g s /\ x s' = x s /\
  pos w <= pos w' /\ evals w' = evals w /\
  (forall j, j <> i -> u s' !! j = u s !! j) /\
  (forall k, k < d -> exists v,
     at2 (u s') i k = Some v /\
     if crossed CR rnbr randb k
     then exists wk wk', pos w <= pos wk /\ pos wk + 3 <= pos wk' /\
            pos wk' <= pos w' /\
            mutate_at_pos fuel (cur s) F i k t wk = Ok (v, wk')
     else at2 (cur s) i k = Some v).
Proof.
  unfold build_trial. intros H. inv_bind H.
  apply randint_Ok in H0 as (_ & Hr & ->).
  inv_bind H. apply random_sample_Ok in H0 as (Hlen & Hp & He & _).
  inv_bind H. inv_ret H.
  apply crossover_loop_Ok in H0 as (H1 & H2 & H3 & Hp' & He' & Hu & _ & Hin).
  cbn [pos evals] in *.
  repeat split; try assumption; try lia; try congruence.
  intros k Hk. destruct (Hin k ltac:(lia)) as (v & Hv & Hc).
  exists v. split; [exact Hv|].
  destruct (crossed CR a a0 k); [|exact Hc].
  destruct Hc as (wk & wk' & ? & ? & ? & ?).
  exists wk, wk'. repeat split; [lia | lia | lia | assumption].
Qed.

(** C6. The value returned by [mutate_at_pos(x, F, i, k)] is
    [x[r1][k] + F * (x[r2][k] - x[r3][k])], unclamped, for donors
    [r1, r2, r3] that this very call draws with [pick_rand_idx] from at
    least three fresh tape cells; and in the construction of a trial
    vector every crossed dimension [k] gets its value from a call of its
    own, on its own stretch of the tape. *)
Theorem mutate_at_pos_formula fuel (m : matrix) F i k t w v w' :
  mutate_at_pos fuel m F i k t w = Ok (v, w') ->
  (exists r1 r2 r3 a b c,
     pick_rand_idx fuel i (length m) t w = Ok ((r1, r2, r3), w') /\
     pos w + 3 <= pos w' /\
     at2 m r1 k = Some a /\ at2 m r2 k = Some b /\ at2 m r3 k = Some c /\
     v = (a + F * (b - c))%Q) /\
  (forall CR d s j w0 rnbr randb s1 w1,
     build_trial fuel CR F d s j t w0 = Ok ((rnbr, randb, s1), w1) ->
     forall k1 k2, k1 < k2 < d ->
       crossed CR rnbr randb k1 = true -> crossed CR rnbr randb k2 = true ->
       exists v1 v2 wa wa' wb wb',
         at2 (u s1) j k1 = Some v1 /\ at2 (u s1) j k2 = Some v2 /\
         mutate_at_pos fuel (cur s) F j k1 t wa = Ok (v1, wa') /\
         mutate_at_pos fuel (cur s) F j k2 t wb = Ok (v2, wb') /\
         pos wa + 3 <= pos wa' /\ pos wa' <= pos wb /\
         pos wb + 3 <= pos wb').
Proof.
  intros H. split.
  - apply mutate_at_pos_Ok in H as (r1 & r2 & r3 & a & b & c & Hp & Hrest).
    exists r1, r2, r3, a, b, c. split; [exact Hp|].
    apply pick_rand_idx_Ok in Hp as (_ & _ & _ & Hpos & _). auto.
  - intros CR d s j w0 rnbr randb s1 w1 Hb k1 k2 Hk Hc1 Hc2.
    unfold build_trial in Hb. inv_bind Hb. inv_bind Hb. inv_bind Hb.
    inv_ret Hb.
    exact (crossover_pair _ _ _ _ _ _ _ _ _ _ _ _ _ _ H2 Hk Hc1 Hc2).
Qed.

Lemma mutate_at_pos_formula_witness :
  (mutate_at_pos 5 pop_spread 2 0 0 (counting 0) start
     = Ok ((1#8) + 2 * ((1#4) - (3#4)), World 4 [])%Q /\
   exists r1 r2 r3 a b c,
     pick_rand_idx 5 0 (length pop_spread) (counting 0) start
       = Ok ((r1, r2, r3), World 4 []) /\
     pos start + 3 <= pos (World 4 []) /\
     at2 pop_spread r1 0 = Some a /\ at2 pop_spread r2 0 = Some b /\
     at2 pop_spread r3 0 = Some c /\
     ((1#8) + 2 * ((1#4) - (3#4)) = a + 2 * (b - c))%Q) /\
  (exists s1 w1,
     build_trial 5 (9#10) 2 2 (store_of pop_2d 2) 0 (counting 0) start
       = Ok ((0, [0; 0]%Q, s1), w1) /\
     crossed (9#10) 0 [0; 0]%Q 0 = true /\
     crossed (9#10) 0 [0; 0]%Q 1 = true /\
     exists v1 v2 wa wa' wb wb',
       at2 (u s1) 0 0 = Some v1 /\ at2 (u s1) 0 1 = Some v2 /\
       mutate_at_pos 5 (cur (store_of pop_2d 2)) 2 0 0 (counting 0) wa
         = Ok (v1, wa') /\
       mutate_at_pos 5 (cur (store_of pop_2d 2)) 2 0 1 (counting 0) wb
         = Ok (v2, wb') /\
       pos wa + 3 <= pos wa' /\ pos wa' <= pos wb /\ pos wb + 3 <= pos wb').
Proof.
  pose proof (mutate_at_pos_formula 5 pop_spread 2 0 0 (counting 0) start
                ((1#8) + 2 * ((1#4) - (3#4)))%Q (World 4 []) eq_refl)
    as [H1 H2].
  split; [split; [reflexivity | exact H1]|].
  destruct (build_trial 5 (9#10) 2 2 (store_of pop_2d 2) 0 (counting 0) start)
    as [[[[rnbr randb] s1] w1]| |] eqn:E; [| vm_compute in E; discriminate..].
  assert (Hr : rnbr = 0 /\ randb = [0; 0]%Q)
    by (vm_compute in E; split; congruence).
  destruct Hr as [-> ->].
  exists s1, w1. split; [reflexivity|].
  split; [reflexivity|]. split; [reflexivity|].
  apply (H2 (9#10) 2 (store_of pop_2d 2) 0 start 0 [0; 0]%Q s1 w1 E 0 1);
    [lia | reflexivity | reflexivity].
Defined.

(** The two dimensions of one trial vector get different donors: cells 3
    to 6 of the tape give [(3, 4, 1)] for dimension 0, cells 7 to 9 give
    [(2, 3, 4)] for dimension 1. *)
Example donors_redrawn_per_dimension :
  pick_rand_idx 5 0 5 (counting 0) (World 3 []) = Ok ((3, 4, 1), World 7 []) /\
  pick_rand_idx 5 0 5 (counting 0) (World 7 []) = Ok ((2, 3, 4), World 10 []) /\
  exists rnbr randb s1,
    build_trial 5 (9#10) 2 2 (store_of pop_2d 2) 0 (counting 0) start
      = Ok ((rnbr, randb, s1), World 10 []) /\
    u s1 !! 0 = Some [(1#8) + 2 * ((3#8) - (1#4));
                      (1#8) + 2 * ((3#4) - (1#2))]%Q.
Proof.
  split; [reflexivity|]. split; [reflexivity|].
  eexists _, _, _. split; reflexivity.
Qed.

(** C4 (as the code has it). Building the trial vector for [i] draws
    [rnbr] in [[0, d)] and [d] numbers [randb]; component [k] of the trial
    vector is a value returned by [mutate_at_pos] exactly when [k = rnbr] or
    [randb[k] < CR], and is [x[i][k]] otherwise; the dimension [rnbr] is
    always a mutated one; the population [x] is left as it was. *)
Theorem trial_vector_components fuel CR F d s i t w rnbr randb s' w' :
  build_trial fuel CR F d s i t w = Ok ((rnbr, randb, s'), w') ->
  rnbr < d /\ length randb = d /\
  crossed CR rnbr randb rnbr = true /\
  cur s' = cur s /\
  forall k, k < d -> exists v,
    at2 (u s') i k = Some v /\
    if crossed CR rnbr randb k
    then exists wk wk', mutate_at_pos fuel (cur s) F i k t wk = Ok (v, wk')
    else at2 (cur s) i k = Some v.
Proof.
  intros H.
  apply build_trial_Ok in H as (Hr & Hl & E1 & E2 & E3 & _ & _ & _ & Hin).
  split; [exact Hr|]. split; [exact Hl|]. split.
  { unfold crossed. rewrite Nat.eqb_refl. reflexivity. }
  split; [apply cur_eq; assumption|].
  intros k Hk. destruct (Hin k Hk) as (v & Hv & Hc).
  exists v. split; [exact Hv|].
  destruct (crossed CR rnbr randb k); [|exact Hc].
  destruct Hc as (wk & wk' & _ & _ & _ & Hm). exists wk, wk'. exact Hm.
Qed.

Lemma trial_vector_components_witness :
  build_trial 5 (9#10) 2 1 (store_of pop_spread 1) 0 (counting 0) start
    = Ok ((0, [0%Q], Store pop_spread
                       [[(3#4) + 2 * ((1#8) - (1#4))]; [0]; [0]; [0]]%Q
                       (zeros 4 1) Larr0), World 6 []) /\
  0 < 1 /\ length [0%Q] = 1 /\
  crossed (9#10) 0 [0%Q] 0 = true.
Proof.
  split; [reflexivity|].
  destruct (trial_vector_components 5 (9#10) 2 1 (store_of pop_spread 1) 0
              (counting 0) start 0 [0%Q] _ (World 6 []) eq_refl)
    as (H1 & H2 & H3 & _).
  exact (conj H1 (conj H2 H3)).
Defined.

(** The trial vector can be the same vector as its target: with donors
    [1, 2, 3] on a population whose members 2 and 3 coincide and whose
    member 1 equals the target, the mutated value is the target's. *)
Lemma trial_can_equal_target :
  exists rnbr randb s' w' trial target,
    build_trial 5 (9#10) (8#10) 1 (store_of pop_pairs 1) 0
      (cyclic (ints [0; 0; 1; 2; 3])) start = Ok ((rnbr, randb, s'), w') /\
    u s' !! 0 = Some trial /\
    cur (store_of pop_pairs 1) !! 0 = Some target /\
    veq trial target.
Proof.
  eexists _, _, _, _, _, _.
  split; [vm_compute; reflexivity|].
  split; [reflexivity|]. split; [reflexivity|].
  constructor; [reflexivity | constructor].
Qed.

(** ** Selection *)

Lemma call_f_Ok f v t w y w' :
  call_f f v t w = Ok (y, w') -> f v = Some y /\ w' = log_eval v w.
Proof.
  unfold call_f. destruct (f v) as [z|]; [|discriminate].
  intros H. split; congruence.
Qed.

Lemma set_x_g_Ok s i row t w s' w' :
  set_x_g s i row t w = Ok (s', w') ->
  w' = w /\ i < length (x_g s) /\
  s' = Store (arr0 s) (u s) (<[i := row]> (x_g s)) (x s).
Proof.
  unfold set_x_g. intros H. inv_bind H. apply lift_idx_Ok in H0 as [Ho ->].
  destruct (length row =? length a); [|discriminate].
  inv_ret H. apply lookup_lt_Some in Ho. auto.
Qed.

Lemma select_Ok f i s t w s' w' :
  select f i s t w = Ok (s', w') ->
  exists trial target ft fx,
    u s !! i = Some trial /\ cur s !! i = Some target /\
    f trial = Some ft /\ f target = Some fx /\
    i < length (x_g s) /\
    s' = Store (arr0 s) (u s)
           (<[i := if Qltb ft fx then trial else target]> (x_g s)) (x s) /\
    w' = log_eval target (log_eval trial w).
Proof.
  unfold select. intros H.
  inv_bind H. apply lift_idx_Ok in H0 as [Hu ->].
  inv_bind H. apply call_f_Ok in H0 as [Hft ->].
  inv_bind H. apply lift_idx_Ok in H0 as [Hx ->].
  inv_bind H. apply call_f_Ok in H0 as [Hfx ->].
  exists a, a1, a0, a2.
  destruct (Qltb a0 a2); apply set_x_g_Ok in H as (-> & Hi & ->); auto 10.
Qed.

(** What the processing of member [i] leaves in the store. *)
Lemma evolve_member_Ok fuel f CR F d s i t w s' w' :
  evolve_member fuel f CR F d s i t w = Ok (s', w') ->
  arr0 s' = arr0 s /\ x s' = x s /\
  (forall j, j <> i -> u s' !! j = u s !! j /\ x_g s' !! j = x_g s !! j) /\
  exists trial target ft fx,
    u s' !! i = Some trial /\ cur s !! i = Some target /\
    f trial = Some ft /\ f target = Some fx /\
    x_g s' !! i = Some (if Qltb ft fx then trial else target).
Proof.
  unfold evolve_member. intros H. inv_bind H. destruct a as [[rnbr randb] s1].
  apply build_trial_Ok in H0 as (_ & _ & E1 & E2 & E3 & _ & _ & Hu & _).
  apply select_Ok in H
    as (trial & target & ft & fx & Ht & Hx & Hft & Hfx & Hi & -> & _).
  cbn [arr0 u x_g x]. rewrite (cur_eq _ _ E1 E2 E3) in Hx.
  split; [exact E1|]. split; [exact E3|]. split.
  - intros j Hj. split; [apply Hu, Hj|].
    rewrite list_lookup_insert_ne by congruence. rewrite E2. reflexivity.
  - exists trial, target, ft, fx. repeat split; try assumption.
    apply list_lookup_insert_eq. exact Hi.
Qed.

Lemma cur_lookup_frame s s' j :
  arr0 s' = arr0 s -> x s' = x s -> x_g s' !! j = x_g s !! j ->
  cur s' !! j = cur s !! j.
Proof.
  unfold cur. intros -> ->. destruct (x s); [reflexivity | auto].
Qed.

(** What a sweep over the members [a, a+n) leaves in the store. *)
Lemma sweep_Ok fuel f CR F d t : forall n a s w s' w',
  for_each (seq a n) (evolve_member fuel f CR F d) s t w = Ok (s', w') ->
  arr0 s' = arr0 s /\ x s' = x s /\
  (forall j, j < a \/ a + n <= j ->
     u s' !! j = u s !! j /\ x_g s' !! j = x_g s !! j) /\
  (forall i, a <= i < a + n ->
     exists trial target ft fx,
       u s' !! i = Some trial /\ cur s !! i = Some target /\
       f trial = Some ft /\ f target = Some fx /\
       x_g s' !! i = Some (if Qltb ft fx then trial else target)).
Proof.
  induction n as [|n IH]; intros a s w s' w' H.
  - cbn in H. inv_ret H. repeat split; auto. intros i Hi. lia.
  - cbn [seq for_each] in H. inv_bind H.
    apply evolve_member_Ok in H0 as (E1 & E3 & Hframe & Ha).
    apply IH in H as (E1' & E3' & Hout & Hin).
    split; [congruence|]. split; [congruence|]. split.
    + intros j Hj. destruct (Hout j ltac:(lia)) as [-> ->].
      apply Hframe. lia.
    + intros i Hi. destruct (decide (i = a)) as [->|Hne].
      * destruct Ha as (trial & target & ft & fx & Hu & Hx & Hft & Hfx & Hg).
        exists trial, target, ft, fx.
        destruct (Hout a ltac:(lia)) as [-> ->]. auto.
      * destruct (Hin i ltac:(lia))
          as (trial & target & ft & fx & Hu & Hx & Hft & Hfx & Hg).
        exists trial, target, ft, fx.
        rewrite (cur_lookup_frame s a0 i) in Hx;
          [auto | exact E1 | exact E3 | apply Hframe; lia].
Qed.

Lemma Qltb_lt a b : Qltb a b = true <-> (a < b)%Q.
Proof.
  unfold Qltb. rewrite Qlt_alt. destruct (a ?= b)%Q; split; congruence.
Qed.

Lemma Qltb_ge a b : Qltb a b = false <-> (b <= a)%Q.
Proof.
  rewrite <- not_true_iff_false, Qltb_lt. split.
  - apply Qnot_lt_le.
  - apply Qle_not_lt.
Qed.

(** C5. After a generation, the member at each index [i] is the trial
    vector [u[i]] exactly when [f(u[i]) < f(x[i])] for the target [x[i]] of
    the generation before, and is that target, unchanged, otherwise; its
    fitness is at most the target's. *)
Theorem selection_never_degrades fuel f CR F NP d s t w s' w' :
  generation fuel f CR F NP d s t w = Ok (s', w') ->
  forall i, i < NP ->
    exists trial target next ft fx fn,
      u s' !! i = Some trial /\ cur s !! i = Some target /\
      cur s' !! i = Some next /\
      f trial = Some ft /\ f target = Some fx /\ f next = Some fn /\
      ((ft < fx)%Q -> next = trial) /\
      (~ (ft < fx)%Q -> next = target) /\
      (fn <= fx)%Q.
Proof.
  unfold generation. intros H i Hi. inv_bind H. inv_ret H.
  apply sweep_Ok in H0 as (_ & _ & _ & Hin).
  destruct (Hin i ltac:(lia))
    as (trial & target & ft & fx & Hu & Hx & Hft & Hfx & Hg).
  exists trial, target, (if Qltb ft fx then trial else target), ft, fx,
         (if Qltb ft fx then ft else fx).
  cbn [rebind_x cur x u x_g].
  destruct (Qltb ft fx) eqn:Hlt.
  - apply Qltb_lt in Hlt.
    split; [exact Hu|]. split; [exact Hx|]. split; [exact Hg|].
    split; [exact Hft|]. split; [exact Hfx|]. split; [exact Hft|].
    split; [reflexivity|]. split; [|apply Qlt_le_weak, Hlt].
    intros Hn. exfalso. exact (Hn Hlt).
  - apply Qltb_ge in Hlt.
    split; [exact Hu|]. split; [exact Hx|]. split; [exact Hg|].
    split; [exact Hft|]. split; [exact Hfx|]. split; [exact Hfx|].
    split; [|split; [reflexivity | apply Qle_refl]].
    intros Hc. exfalso. exact (Qlt_not_le _ _ Hc Hlt).
Qed.

Lemma selection_never_degrades_witness :
  exists s' w',
    generation 5 first_coord (9#10) 2 4 1 (store_of pop_spread 1)
      (counting 0) start = Ok (s', w') /\
    forall i, i < 4 ->
      exists trial target next ft fx fn,
        u s' !! i = Some trial /\
        cur (store_of pop_spread 1) !! i = Some target /\
        cur s' !! i = Some next /\
        first_coord trial = Some ft /\ first_coord target = Some fx /\
        first_coord next = Some fn /\
        ((ft < fx)%Q -> next = trial) /\
        (~ (ft < fx)%Q -> next = target) /\
        (fn <= fx)%Q.
Proof.
  destruct (generation 5 first_coord (9#10) 2 4 1 (store_of pop_spread 1)
              (counting 0) start) as [[s' w']| |] eqn:E;
    [| vm_compute in E; discriminate..].
  exists s', w'. split; [reflexivity|].
  exact (selection_never_degrades _ _ _ _ _ _ _ _ _ _ _ E).
Defined.

(** ** The generation loop and the final choice *)

Lemma while_lt_iterate {St} (body : St -> M St) max_gen t : forall gas n_gen s w r,
  while_lt gas max_gen body n_gen s t w = Ok r ->
  iterate (Z.to_nat (max_gen - n_gen)) body s t w = Ok r.
Proof.
  induction gas as [|g IH]; intros n_gen s w r H; cbn [while_lt] in H;
    destruct (Z.ltb_spec n_gen max_gen) as [Hlt|Hge]; try discriminate.
  - replace (Z.to_nat (max_gen - n_gen)) with 0 by lia. exact H.
  - replace (Z.to_nat (max_gen - n_gen))
      with (S (Z.to_nat (max_gen - (n_gen + 1)))) by lia.
    cbn [iterate]. inv_bind H. rewrite bind_run, H0. apply IH, H.
  - replace (Z.to_nat (max_gen - n_gen)) with 0 by lia. exact H.
Qed.

Lemma fitness_all_Ok f t : forall xs w fits w',
  fitness_all f xs t w = Ok (fits, w') ->
  Forall2 (fun c y => f c = Some y) xs fits /\
  w' = World (pos w) (evals w ++ xs).
Proof.
  induction xs as [|c xs IH]; intros w fits w' H; cbn [fitness_all] in H.
  - inv_ret H. rewrite app_nil_r. destruct w; auto.
  - inv_bind H. apply call_f_Ok in H0 as [Hc ->].
    inv_bind H. apply IH in H0 as [Hall ->]. inv_ret H.
    split; [constructor; assumption|].
    cbn. rewrite <- app_assoc. reflexivity.
Qed.

Lemma argmin_from_spec : forall l p best_i best,
  p !! best_i = Some best ->
  (forall j z, p !! j = Some z -> (best <= z)%Q) ->
  (forall j z, j < best_i -> p !! j = Some z -> (best < z)%Q) ->
  first_min (p ++ l) (argmin_from best_i best (length p) l).
Proof.
  induction l as [|y l IH]; intros p bi b Hb Hmin Hfirst.
  - cbn. rewrite app_nil_r. exists b. auto.
  - cbn [argmin_from].
    replace (p ++ y :: l) with ((p ++ [y]) ++ l)
      by (rewrite <- app_assoc; reflexivity).
    replace (S (length p)) with (length (p ++ [y]))
      by (rewrite length_app; cbn; lia).
    pose proof (lookup_lt_Some _ _ _ Hb) as Hbi.
    destruct (Qltb y b) eqn:Hlt.
    + apply Qltb_lt in Hlt. apply IH.
      * rewrite lookup_app_r by lia. rewrite Nat.sub_diag. reflexivity.
      * intros j z Hj. apply lookup_app_Some in Hj as [Hj | [_ Hj]].
        -- apply Qlt_le_weak. eapply Qlt_le_trans; [exact Hlt|].
           eapply Hmin, Hj.
        -- destruct (j - length p); cbn in Hj; [|discriminate].
           injection Hj as <-. apply Qle_refl.
      * intros j z Hjl Hj. rewrite lookup_app_l in Hj by exact Hjl.
        eapply Qlt_le_trans; [exact Hlt|]. eapply Hmin, Hj.
    + apply Qltb_ge in Hlt. apply IH.
      * rewrite lookup_app_l by exact Hbi. exact Hb.
      * intros j z Hj. apply lookup_app_Some in Hj as [Hj | [_ Hj]].
        -- eapply Hmin, Hj.
        -- destruct (j - length p); cbn in Hj; [|discriminate].
           injection Hj as <-. exact Hlt.
      * intros j z Hjl Hj. rewrite lookup_app_l in Hj by lia.
        eapply Hfirst; [exact Hjl | exact Hj].
Qed.

Lemma argmin_Ok l t w idx w' :
  argmin l t w = Ok (idx, w') -> first_min l idx /\ w' = w.
Proof.
  destruct l as [|y l]; [discriminate|]. cbn [argmin]. intros H. inv_ret H.
  split; [|reflexivity].
  apply (argmin_from_spec l [y] 0 y); [reflexivity | |].
  - intros [|j] z Hj; cbn in Hj; [|discriminate].
    injection Hj as <-. apply Qle_refl.
  - intros j z Hj. lia.
Qed.

Lemma differential_evolution_Ok fuel NP f CR F max_gen d obj_bounds t w v w' :
  differential_evolution fuel NP f CR F max_gen d obj_bounds t w = Ok (v, w') ->
  exists x0 w1 s w2 fits idx,
    init_population_star NP d obj_bounds t w = Ok (x0, w1) /\
    iterate (Z.to_nat max_gen)
      (generation fuel f CR F (Z.to_nat NP) (Z.to_nat d))
      (Store x0 (zeros (Z.to_nat NP) (Z.to_nat d))
                (zeros (Z.to_nat NP) (Z.to_nat d)) Larr0) t w1 = Ok (s, w2) /\
    Forall2 (fun c y => f c = Some y) (cur s) fits /\
    first_min fits idx /\
    cur s !! idx = Some v /\
    pos w' = pos w2 /\ evals w' = evals w2 ++ cur s.
Proof.
  unfold differential_evolution. intros H.
  inv_bind H. cbn zeta in H. inv_bind H.
  apply while_lt_iterate in H1. rewrite Z.sub_0_r in H1.
  inv_bind H. apply fitness_all_Ok in H2 as [Hfit ->].
  inv_bind H. apply argmin_Ok in H2 as [Hmin ->].
  apply lift_idx_Ok in H as [Hv ->].
  exists a, w0, a0, w1, a1, a2. auto 10.
Qed.

(** ** The engine returns *)

Lemma conv_now {A} (c : M A) t w (P : A -> world -> Prop) a w' :
  c t w = Ok (a, w') -> P a w' -> conv (fun _ => c) t w P.
Proof. intros Hc HP. exists 0, a, w'. auto. Qed.

Lemma shaped_lookup NP d (m : matrix) r :
  shaped NP d m -> r < NP -> exists row, m !! r = Some row /\ length row = d.
Proof.
  intros [Hlen Hrows] Hr.
  destruct (lookup_lt_is_Some_2 m r ltac:(lia)) as [row Hrow].
  exists row. split; [exact Hrow|].
  exact (proj1 (Forall_lookup _ _) Hrows r row Hrow).
Qed.

Lemma shaped_insert NP d (m : matrix) i row :
  shaped NP d m -> length row = d -> shaped NP d (<[i := row]> m).
Proof.
  intros [Hlen Hrows] Hrow. split.
  - rewrite length_insert. exact Hlen.
  - apply Forall_insert; assumption.
Qed.

Lemma shaped_zeros NP d : shaped NP d (zeros NP d).
Proof.
  unfold zeros. split.
  - apply length_replicate.
  - apply Forall_replicate. apply length_replicate.
Qed.

Lemma store_ok_cur NP d s : store_ok NP d s -> shaped NP d (cur s).
Proof. intros (H0 & _ & Hg). unfold cur. destruct (x s); assumption. Qed.

Lemma get2_run NP d (m : matrix) r k t w :
  shaped NP d m -> r < NP -> k < d ->
  exists v, get2 m r k t w = Ok (v, w).
Proof.
  intros Hm Hr Hk. destruct (shaped_lookup _ _ _ _ Hm Hr) as (row & Hrow & Hl).
  destruct (lookup_lt_is_Some_2 row k ltac:(lia)) as [v Hv].
  exists v. unfold get2. rewrite bind_run, Hrow. cbn. rewrite Hv. reflexivity.
Qed.

Lemma mutate_at_pos_conv NP d (m : matrix) F i k t w :
  4 <= NP -> fair NP t -> shaped NP d m -> k < d ->
  conv (fun fuel => mutate_at_pos fuel m F i k) t w (fun _ _ => True).
Proof.
  intros HNP Hfair Hm Hk. unfold mutate_at_pos.
  rewrite (proj1 Hm).
  apply (conv_bind (fun fuel => pick_rand_idx fuel i NP) _ t w
           (fun r _ => r.1.1 < NP /\ r.1.2 < NP /\ r.2 < NP)).
  { apply pick_rand_idx_conv; assumption. }
  intros [[r1 r2] r3] w1 (H1 & H2 & H3). cbn in H1, H2, H3.
  destruct (get2_run _ _ _ _ k t w1 Hm H1 Hk) as [a Ha].
  destruct (get2_run _ _ _ _ k t w1 Hm H2 Hk) as [b Hb].
  destruct (get2_run _ _ _ _ k t w1 Hm H3 Hk) as [c Hc].
  eapply conv_now; [|exact I].
  rewrite bind_run, Ha. cbn beta iota. rewrite bind_run, Hb. cbn beta iota.
  rewrite bind_run, Hc. reflexivity.
Qed.

Lemma set_u_run NP d s i k v t w :
  store_ok NP d s -> i < NP -> k < d ->
  exists s', set_u s i k v t w = Ok (s', w) /\ store_ok NP d s'.
Proof.
  intros (H0 & Hu & Hg) Hi Hk.
  destruct (shaped_lookup _ _ _ _ Hu Hi) as (row & Hrow & Hl).
  eexists. split.
  - unfold set_u. rewrite bind_run, Hrow. cbn [lift_idx].
    rewrite ret_run. cbn beta iota.
    destruct (Nat.ltb_spec k (length row)); [reflexivity | lia].
  - split; [exact H0|]. split; [|exact Hg]. cbn [u].
    apply shaped_insert; [exact Hu|]. rewrite length_insert. exact Hl.
Qed.

Lemma crossover_at_conv NP d CR F i rnbr randb s k t w :
  4 <= NP -> fair NP t -> store_ok NP d s -> i < NP -> k < d ->
  length randb = d ->
  conv (fun fuel => crossover_at fuel CR F i rnbr randb s k) t w
       (fun s' _ => store_ok NP d s').
Proof.
  intros HNP Hfair Hs Hi Hk Hlen. unfold crossover_at.
  destruct (lookup_lt_is_Some_2 randb k ltac:(lia)) as [rb Hrb].
  set (b := (k =? rnbr) || Qltb rb CR).
  apply (conv_bind (fun _ => _) _ t w (fun b' w' => b' = b /\ w' = w)).
  { eapply conv_now; [|split; reflexivity]. subst b.
    destruct (k =? rnbr); [reflexivity|].
    rewrite bind_run, Hrb. reflexivity. }
  intros b' w' [-> ->]. destruct b.
  - apply (conv_bind (fun fuel => mutate_at_pos fuel _ F i k) _ t w
             (fun _ _ => True)).
    + exact (mutate_at_pos_conv NP d (cur s) F i k t w HNP Hfair
               (store_ok_cur _ _ _ Hs) Hk).
    + intros v w1 _.
      destruct (set_u_run NP d s i k v t w1 Hs Hi Hk) as (s' & Hset & Hok).
      eapply conv_now; [exact Hset | exact Hok].
  - destruct (get2_run _ _ _ i k t w (store_ok_cur _ _ _ Hs) Hi Hk) as [v Hv].
    destruct (set_u_run NP d s i k v t w Hs Hi Hk) as (s' & Hset & Hok).
    eapply conv_now; [|exact Hok].
    rewrite bind_run, Hv. exact Hset.
Qed.

Lemma build_trial_conv NP d CR F s i t w :
  4 <= NP -> fair NP t -> store_ok NP d s -> i < NP -> 0 < d ->
  conv (fun fuel => build_trial fuel CR F d s i) t w
       (fun r _ => store_ok NP d r.2).
Proof.
  intros HNP Hfair Hs Hi Hd. unfold build_trial.
  apply (conv_bind (fun _ => randint d) _ t w (fun _ _ => True)).
  { eapply conv_weaken; [apply randint_conv, Hd | auto]. }
  intros rnbr w1 _.
  apply (conv_bind (fun _ => random_sample d) _ t w1
           (fun randb _ => length randb = d)).
  { eapply conv_now; [apply random_sample_run|].
    rewrite length_fmap, length_seq. reflexivity. }
  intros randb w2 Hlen.
  apply (conv_bind
           (fun fuel => for_each (seq 0 d)
                          (crossover_at fuel CR F i rnbr randb) s)
           _ t w2 (fun s' _ => store_ok NP d s')).
  - apply (conv_for_each
             (fun fuel => crossover_at fuel CR F i rnbr randb) t
             (fun s' _ => store_ok NP d s')); [|exact Hs].
    intros s0 k w0 Hk Hs0. apply in_seq in Hk.
    apply (crossover_at_conv NP d); try assumption. lia.
  - intros s' w3 Hs'. apply conv_ret. exact Hs'.
Qed.

Lemma select_run NP d f i s t w :
  total f -> store_ok NP d s -> i < NP ->
  exists s' w', select f i s t w = Ok (s', w') /\ store_ok NP d s'.
Proof.
  intros Hf Hs Hi. pose proof Hs as (H0 & Hu & Hg).
  destruct (shaped_lookup _ _ _ _ Hu Hi) as (ui & Hui & Hlu).
  destruct (shaped_lookup _ _ _ _ (store_ok_cur _ _ _ Hs) Hi)
    as (xi & Hxi & Hlx).
  destruct (shaped_lookup _ _ _ _ Hg Hi) as (old & Hold & Hlo).
  destruct (Hf ui) as [fu Hfu]. destruct (Hf xi) as [fx Hfx].
  assert (Hset : forall row, length row = d ->
            set_x_g s i row t (log_eval xi (log_eval ui w)) =
            Ok (Store (arr0 s) (u s) (<[i := row]> (x_g s)) (x s),
                log_eval xi (log_eval ui w))).
  { intros row Hrow. unfold set_x_g. rewrite bind_run, Hold. cbn [lift_idx].
    rewrite ret_run. cbn beta iota.
    rewrite Hrow, Hlo, Nat.eqb_refl. reflexivity. }
  exists (Store (arr0 s) (u s)
            (<[i := if Qltb fu fx then ui else xi]> (x_g s)) (x s)),
         (log_eval xi (log_eval ui w)).
  split.
  - unfold select. rewrite bind_run, Hui. cbn [lift_idx].
    rewrite ret_run. cbn beta iota.
    rewrite bind_run. unfold call_f at 1. rewrite Hfu. cbn beta iota.
    rewrite bind_run, Hxi. cbn [lift_idx]. rewrite ret_run. cbn beta iota.
    rewrite bind_run. unfold call_f at 1. rewrite Hfx. cbn beta iota.
    destruct (Qltb fu fx); apply Hset; assumption.
  - split; [exact H0|]. split; [exact Hu|]. cbn [x_g].
    apply shaped_insert; [exact Hg|]. destruct (Qltb fu fx); assumption.
Qed.

Lemma evolve_member_conv NP d f CR F s i t w :
  4 <= NP -> fair NP t -> total f -> store_ok NP d s -> i < NP -> 0 < d ->
  conv (fun fuel => evolve_member fuel f CR F d s i) t w
       (fun s' _ => store_ok NP d s').
Proof.
  intros HNP Hfair Hf Hs Hi Hd. unfold evolve_member.
  apply (conv_bind (fun fuel => build_trial fuel CR F d s i) _ t w
           (fun r _ => store_ok NP d r.2)).
  { apply build_trial_conv; assumption. }
  intros [[rnbr randb] s1] w1 Hs1. cbn in Hs1.
  destruct (select_run NP d f i s1 t w1 Hf Hs1 Hi) as (s' & w' & Hsel & Hok).
  eapply conv_now; [exact Hsel | exact Hok].
Qed.

Lemma generation_conv NP d f CR F s t w :
  4 <= NP -> fair NP t -> total f -> store_ok NP d s -> 0 < d ->
  conv (fun fuel => generation fuel f CR F NP d s) t w
       (fun s' _ => store_ok NP d s').
Proof.
  intros HNP Hfair Hf Hs Hd. unfold generation.
  apply (conv_bind
           (fun fuel => for_each (seq 0 NP) (evolve_member fuel f CR F d) s)
           _ t w (fun s' _ => store_ok NP d s')).
  - apply (conv_for_each (fun fuel => evolve_member fuel f CR F d) t
             (fun s' _ => store_ok NP d s')); [|exact Hs].
    intros s0 i w0 Hin Hs0. apply in_seq in Hin.
    apply evolve_member_conv; try assumption. lia.
  - intros s' w' Hs'. apply conv_ret. exact Hs'.
Qed.

Lemma fitness_all_run f t : total f -> forall xs w,
  exists fits, fitness_all f xs t w = Ok (fits, World (pos w) (evals w ++ xs))
               /\ length fits = length xs.
Proof.
  intros Hf. induction xs as [|c xs IH]; intros w.
  - exists []. rewrite app_nil_r. destruct w. auto.
  - destruct (Hf c) as [y Hy].
    destruct (IH (log_eval c w)) as (ys & Hys & Hlen).
    exists (y :: ys). split; [|cbn; congruence].
    cbn [fitness_all]. rewrite bind_run. unfold call_f at 1. rewrite Hy.
    cbn beta iota. rewrite bind_run, Hys. cbn beta iota. rewrite ret_run.
    cbn. rewrite <- app_assoc. reflexivity.
Qed.

Lemma argmin_from_lt : forall l best_i best j,
  best_i < j -> argmin_from best_i best j l < j + length l.
Proof.
  induction l as [|y l IH]; intros bi b j Hj; cbn [argmin_from length].
  - lia.
  - destruct (Qltb y b).
    + pose proof (IH j y (S j) ltac:(lia)). lia.
    + pose proof (IH bi b (S j) ltac:(lia)). lia.
Qed.

(** The final choice returns on any non-empty population. *)
Lemma best_run f (m : matrix) t w :
  total f -> 0 < length m ->
  exists v w', (fitnesses ← fitness_all f m;
                idx_best ← argmin fitnesses;
                lift_idx (m !! idx_best)) t w = Ok (v, w').
Proof.
  intros Hf Hm. destruct (fitness_all_run f t Hf m w) as (fits & Hfit & Hlen).
  rewrite bind_run, Hfit. cbn beta iota.
  destruct fits as [|y fits]; [cbn in Hlen; lia|].
  rewrite bind_run. cbn [argmin]. rewrite ret_run. cbn beta iota.
  pose proof (argmin_from_lt fits 0 y 1 ltac:(lia)) as Hidx.
  destruct (lookup_lt_is_Some_2 m (argmin_from 0 y 1 fits)) as [v Hv].
  { cbn in Hlen. lia. }
  rewrite Hv. eexists _, _. reflexivity.
Qed.

Lemma init_population_star_run NP d obj_bounds t w :
  (0 <= NP)%Z -> (0 <= d)%Z -> length obj_bounds <= 2 ->
  exists m w', init_population_star NP d obj_bounds t w = Ok (m, w') /\
               shaped (Z.to_nat NP) (Z.to_nat d) m /\
               pos w' = pos w + Z.to_nat NP * Z.to_nat d /\
               evals w' = evals w.
Proof.
  intros HNP Hd Hlen.
  assert (H : forall lb ub, exists m w',
            init_population NP d lb ub t w = Ok (m, w') /\
            shaped (Z.to_nat NP) (Z.to_nat d) m /\
            pos w' = pos w + Z.to_nat NP * Z.to_nat d /\
            evals w' = evals w).
  { intros lb ub. eexists _, _.
    split; [apply init_population_run; assumption|].
    split; [apply shaped_fmap_seq|]. split; reflexivity. }
  destruct obj_bounds as [|lb [|ub [|? ?]]]; cbn in Hlen; try lia; apply H.
Qed.

Lemma differential_evolution_conv NP f CR F max_gen d obj_bounds t w :
  (4 <= NP)%Z -> (0 < d)%Z -> length obj_bounds <= 2 ->
  fair (Z.to_nat NP) t -> total f ->
  conv (fun fuel => differential_evolution fuel NP f CR F max_gen d obj_bounds)
       t w (fun _ _ => True).
Proof.
  intros HNP Hd Hlen Hfair Hf. unfold differential_evolution.
  destruct (init_population_star_run NP d obj_bounds t w)
    as (x0 & w1 & Hinit & Hx0 & _); [lia | lia | exact Hlen |].
  set (s0 := Store x0 (zeros (Z.to_nat NP) (Z.to_nat d))
                      (zeros (Z.to_nat NP) (Z.to_nat d)) Larr0).
  assert (Hs0 : store_ok (Z.to_nat NP) (Z.to_nat d) s0).
  { split; [exact Hx0|]. split; apply shaped_zeros. }
  destruct (while_lt_converges
              (fun fuel => generation fuel f CR F (Z.to_nat NP) (Z.to_nat d))
              t max_gen (fun s _ => store_ok (Z.to_nat NP) (Z.to_nat d) s)
              ltac:(intros s w0 Hs; apply generation_conv;
                    [lia | exact Hfair | exact Hf | exact Hs | lia])
              (Z.to_nat (max_gen - 0)) 0%Z s0 w1 eq_refl Hs0)
    as (n & s & w2 & Hs & Hloop).
  destruct (best_run f (cur s) t w2 Hf) as (v & w3 & Hbest).
  { rewrite (proj1 (store_ok_cur _ _ _ Hs)). lia. }
  exists n, v, w3. split; [exact I|]. intros m Hm.
  rewrite bind_run, Hinit. cbn beta iota zeta.
  rewrite bind_run. fold s0. rewrite (Hloop m m Hm Hm). exact Hbest.
Qed.

(** C7. [differential_evolution] runs the generation step exactly
    [max_gen] times on the initial population and returns the member of
    the final population with the least fitness, the first such member in
    population order; it does return, for [NP >= 4], [d >= 1], a total
    objective and a fair tape; and with [max_gen = 0] it returns a member
    of the initial population, drawing nothing after the initialisation
    and calling the objective only for the final choice. *)
Theorem differential_evolution_returns_best NP f CR F max_gen d obj_bounds t w :
  (forall fuel v w',
     differential_evolution fuel NP f CR F max_gen d obj_bounds t w
       = Ok (v, w') ->
     exists x0 w1 s w2 fits idx,
       init_population_star NP d obj_bounds t w = Ok (x0, w1) /\
       iterate (Z.to_nat max_gen)
         (generation fuel f CR F (Z.to_nat NP) (Z.to_nat d))
         (Store x0 (zeros (Z.to_nat NP) (Z.to_nat d))
                   (zeros (Z.to_nat NP) (Z.to_nat d)) Larr0) t w1
         = Ok (s, w2) /\
       Forall2 (fun c y => f c = Some y) (cur s) fits /\
       first_min fits idx /\
       cur s !! idx = Some v) /\
  ((4 <= NP)%Z -> (0 < d)%Z -> length obj_bounds <= 2 ->
   fair (Z.to_nat NP) t -> total f ->
   conv (fun fuel =>
           differential_evolution fuel NP f CR F max_gen d obj_bounds)
        t w (fun _ _ => True)) /\
  (max_gen = 0%Z -> (0 < NP)%Z -> (0 <= d)%Z -> length obj_bounds <= 2 ->
   total f ->
   forall fuel, exists x0 w1 v w',
     init_population_star NP d obj_bounds t w = Ok (x0, w1) /\
     differential_evolution fuel NP f CR F max_gen d obj_bounds t w
       = Ok (v, w') /\
     v ∈ x0 /\ pos w' = pos w1 /\ evals w' = evals w ++ x0).
Proof.
  split; [|split].
  - intros fuel v w' H.
    apply differential_evolution_Ok in H
      as (x0 & w1 & s & w2 & fits & idx & H1 & H2 & H3 & H4 & H5 & _).
    exists x0, w1, s, w2, fits, idx. auto.
  - apply differential_evolution_conv.
  - intros -> HNP Hd Hlen Hf fuel.
    destruct (init_population_star_run NP d obj_bounds t w)
      as (x0 & w1 & Hinit & Hx0 & _ & Hev); [lia | exact Hd | exact Hlen |].
    destruct (best_run f x0 t w1 Hf) as (v & w' & Hbest).
    { rewrite (proj1 Hx0). lia. }
    assert (Hrun : differential_evolution fuel NP f CR F 0 d obj_bounds t w
                   = Ok (v, w')).
    { unfold differential_evolution. rewrite bind_run, Hinit.
      cbn beta iota zeta. rewrite bind_run.
      destruct fuel; exact Hbest. }
    exists x0, w1, v, w'. split; [exact Hinit|]. split; [exact Hrun|].
    apply differential_evolution_Ok in Hrun
      as (x0' & w1' & s & w2 & fits & idx & H1 & H2 & _ & _ & H5 & H6 & H7).
    rewrite Hinit in H1. injection H1 as <- <-.
    cbn in H2. injection H2 as <- <-. cbn [cur x arr0] in *.
    split; [eapply list_elem_of_lookup_2; exact H5|].
    split; [exact H6|]. rewrite H7, Hev. reflexivity.
Qed.

Lemma total_first_coord : total first_coord.
Proof. intros v. eexists. reflexivity. Qed.

Lemma differential_evolution_returns_best_witness :
  (exists v w',
     differential_evolution 10 4 first_coord (9#10) 2 2 1 [0; 1]%Q
       (counting 3) start = Ok (v, w') /\
     exists x0 w1 s w2 fits idx,
       init_population_star 4 1 [0; 1]%Q (counting 3) start = Ok (x0, w1) /\
       iterate (Z.to_nat 2)
         (generation 10 first_coord (9#10) 2 (Z.to_nat 4) (Z.to_nat 1))
         (Store x0 (zeros (Z.to_nat 4) (Z.to_nat 1))
                   (zeros (Z.to_nat 4) (Z.to_nat 1)) Larr0) (counting 3) w1
         = Ok (s, w2) /\
       Forall2 (fun c y => first_coord c = Some y) (cur s) fits /\
       first_min fits idx /\
       cur s !! idx = Some v) /\
  conv (fun fuel =>
          differential_evolution fuel 4 first_coord (9#10) 2 2 1 [0; 1]%Q)
       (counting 3) start (fun _ _ => True) /\
  (forall fuel, exists x0 w1 v w',
     init_population_star 4 1 [0; 1]%Q (counting 3) start = Ok (x0, w1) /\
     differential_evolution fuel 4 first_coord (9#10) 2 0 1 [0; 1]%Q
       (counting 3) start = Ok (v, w') /\
     v ∈ x0 /\ pos w' = pos w1 /\ evals w' = evals start ++ x0).
Proof.
  split; [|split].
  - destruct (differential_evolution 10 4 first_coord (9#10) 2 2 1 [0; 1]%Q
                (counting 3) start) as [[v w']| |] eqn:E;
      [| vm_compute in E; discriminate..].
    exists v, w'. split; [reflexivity|].
    exact (proj1 (differential_evolution_returns_best 4 first_coord (9#10) 2
                    2 1 [0; 1]%Q (counting 3) start) 10 v w' E).
  - apply (proj1 (proj2 (differential_evolution_returns_best 4 first_coord
                           (9#10) 2 2 1 [0; 1]%Q (counting 3) start)));
      [lia | lia | cbn; lia | apply counting_fair; lia
      | apply total_first_coord].
  - apply (proj2 (proj2 (differential_evolution_returns_best 4 first_coord
                           (9#10) 2 0 1 [0; 1]%Q (counting 3) start)));
      [reflexivity | lia | lia | cbn; lia | apply total_first_coord].
Defined.

(** ** Random search *)

Lemma init_population_star_Ok NP d obj_bounds t w m w' :
  init_population_star NP d obj_bounds t w = Ok (m, w') ->
  evals w' = evals w /\ shaped (Z.to_nat NP) (Z.to_nat d) m.
Proof.
  assert (H : forall lb ub, init_population NP d lb ub t w = Ok (m, w') ->
            evals w' = evals w /\ shaped (Z.to_nat NP) (Z.to_nat d) m).
  { intros lb ub H. unfold init_population in H.
    destruct ((NP <? 0)%Z || (d <? 0)%Z); [discriminate|].
    rewrite bind_run, rand_run in H. cbn beta iota in H. inv_ret H.
    split; [reflexivity | apply shaped_fmap_seq]. }
  destruct obj_bounds as [|lb [|ub [|? ?]]]; cbn [init_population_star];
    try discriminate; apply H.
Qed.

Lemma init_population_star_world NP d obj_bounds t w m w' :
  init_population_star NP d obj_bounds t w = Ok (m, w') ->
  w' = World (pos w + Z.to_nat NP * Z.to_nat d) (evals w).
Proof.
  assert (H : forall lb ub, init_population NP d lb ub t w = Ok (m, w') ->
            w' = World (pos w + Z.to_nat NP * Z.to_nat d) (evals w)).
  { intros lb ub H. unfold init_population in H.
    destruct ((NP <? 0)%Z || (d <? 0)%Z); [discriminate|].
    rewrite bind_run, rand_run in H. cbn beta iota in H. inv_ret H.
    reflexivity. }
  destruct obj_bounds as [|lb [|ub [|? ?]]]; cbn [init_population_star];
    try discriminate; apply H.
Qed.

Lemma keep_best_loop f t : forall xs seen best w best' w',
  for_each xs (keep_best f) best t w = Ok (best', w') ->
  best_among f seen best ->
  best_among f (seen ++ xs) best' /\ pos w' = pos w /\
  evals w' = evals w ++ xs.
Proof.
  induction xs as [|v xs IH]; intros seen best w best' w' H Hinv.
  - cbn in H. inv_ret H. rewrite !app_nil_r. auto.
  - cbn [for_each] in H. inv_bind H. unfold keep_best in H0.
    inv_bind H0. apply call_f_Ok in H1 as [Hv ->].
    destruct Hinv as (Hin & Hfb & Hmin).
    replace (seen ++ v :: xs) with ((seen ++ [v]) ++ xs)
      by (rewrite <- app_assoc; reflexivity).
    replace (evals w ++ v :: xs) with ((evals w ++ [v]) ++ xs)
      by (rewrite <- app_assoc; reflexivity).
    destruct (Qltb a0 best.2) eqn:Hlt; inv_ret H0;
      apply (IH (seen ++ [v])) in H; try exact H.
    + apply Qltb_lt in Hlt. split; [|split].
      * cbn. apply elem_of_app. right. apply list_elem_of_singleton.
        reflexivity.
      * exact Hv.
      * cbn. intros c z Hc Hz. apply elem_of_app in Hc as [Hc | Hc].
        -- apply Qlt_le_weak. eapply Qlt_le_trans; [exact Hlt|].
           eapply Hmin; [exact Hc | exact Hz].
        -- apply list_elem_of_singleton in Hc. subst c.
           rewrite Hv in Hz. injection Hz as <-. apply Qle_refl.
    + apply Qltb_ge in Hlt. split; [|split].
      * apply elem_of_app. left. exact Hin.
      * exact Hfb.
      * intros c z Hc Hz. apply elem_of_app in Hc as [Hc | Hc].
        -- eapply Hmin; [exact Hc | exact Hz].
        -- apply list_elem_of_singleton in Hc. subst c.
           rewrite Hv in Hz. injection Hz as <-. exact Hlt.
Qed.

Lemma search_rounds f NP d obj_bounds t : forall n seen best w best' w',
  iterate n (search_round f NP d obj_bounds) best t w = Ok (best', w') ->
  best_among f seen best ->
  exists pops,
    length pops = n /\
    (forall j p, pops !! j = Some p ->
       init_population_star NP d obj_bounds t
         (World (pos w + j * (Z.to_nat NP * Z.to_nat d))
                (evals w ++ concat (take j pops)))
       = Ok (p, World (pos w + S j * (Z.to_nat NP * Z.to_nat d))
                      (evals w ++ concat (take j pops)))) /\
    best_among f (seen ++ concat pops) best' /\
    evals w' = evals w ++ concat pops /\
    pos w' = pos w + n * (Z.to_nat NP * Z.to_nat d).
Proof.
  induction n as [|n IH]; intros seen best w best' w' H Hinv.
  - cbn in H. inv_ret H. exists []. cbn. rewrite !app_nil_r.
    split; [reflexivity|]. split; [intros j p Hj; discriminate|].
    split; [exact Hinv|]. split; [reflexivity | lia].
  - cbn [iterate] in H. inv_bind H. unfold search_round in H0.
    inv_bind H0. pose proof H1 as Hdraw.
    apply init_population_star_world in H1. subst w1.
    apply (keep_best_loop f t a0 seen) in H0 as (Hinv1 & Hpos1 & Hev1);
      [|exact Hinv].
    cbn [pos evals] in Hpos1, Hev1.
    apply (IH (seen ++ a0)) in H
      as (pops & Hlen & Hall & Hinv2 & Hev2 & Hpos2); [|exact Hinv1].
    exists (a0 :: pops). cbn [concat length].
    split; [congruence|]. split; [|split; [|split]].
    + intros [|j] p Hj.
      * cbn in Hj. injection Hj as <-. cbn [take concat].
        rewrite app_nil_r, Nat.mul_0_l, Nat.add_0_r, Nat.mul_1_l.
        destruct w. exact Hdraw.
      * cbn in Hj. apply Hall in Hj. rewrite Hpos1, Hev1 in Hj.
        cbn [take concat].
        replace (pos w + S j * (Z.to_nat NP * Z.to_nat d))
          with (pos w + Z.to_nat NP * Z.to_nat d
                + j * (Z.to_nat NP * Z.to_nat d)) by lia.
        replace (pos w + S (S j) * (Z.to_nat NP * Z.to_nat d))
          with (pos w + Z.to_nat NP * Z.to_nat d
                + S j * (Z.to_nat NP * Z.to_nat d)) by lia.
        rewrite app_assoc. exact Hj.
    + rewrite !app_assoc. exact Hinv2.
    + rewrite Hev2, Hev1, <- app_assoc. reflexivity.
    + rewrite Hpos2, Hpos1. lia.
Qed.

Lemma rand_search_Ok fuel NP f max_gen d obj_bounds t w v w' :
  rand_search fuel NP f max_gen d obj_bounds t w = Ok (v, w') ->
  exists x0 w1 first pops,
    init_population_star NP d obj_bounds t w = Ok (x0, w1) /\
    x0 !! 0 = Some first /\
    length pops = Z.to_nat max_gen /\
    (forall j p, pops !! j = Some p ->
       init_population_star NP d obj_bounds t
         (World (pos w + S j * (Z.to_nat NP * Z.to_nat d))
                (evals w ++ first :: concat (take j pops)))
       = Ok (p, World (pos w + S (S j) * (Z.to_nat NP * Z.to_nat d))
                      (evals w ++ first :: concat (take j pops)))) /\
    evals w' = evals w ++ first :: concat pops /\
    pos w' = pos w + S (Z.to_nat max_gen) * (Z.to_nat NP * Z.to_nat d) /\
    v ∈ first :: concat pops /\
    exists y, f v = Some y /\
      forall c z, c ∈ first :: concat pops -> f c = Some z -> (y <= z)%Q.
Proof.
  unfold rand_search. intros H. inv_bind H. pose proof H0 as Hinit.
  apply init_population_star_world in H0. subst w0.
  inv_bind H. apply lift_idx_Ok in H0 as [Hfirst ->].
  inv_bind H. apply call_f_Ok in H0 as [Hf0 ->].
  inv_bind H. inv_ret H.
  apply while_lt_iterate in H0. rewrite Z.sub_0_r in H0.
  apply (search_rounds f NP d obj_bounds t _ [a0]) in H0
    as (pops & Hlen & Hall & (Hin & Hfv & Hmin) & Hevs & Hpos).
  - cbn [log_eval pos evals] in Hall, Hevs, Hpos.
    exists a, (World (pos w + Z.to_nat NP * Z.to_nat d) (evals w)), a0, pops.
    split; [exact Hinit|]. split; [exact Hfirst|]. split; [exact Hlen|].
    split; [|split; [|split; [|split]]].
    + intros j p Hj. apply Hall in Hj.
      replace (pos w + S j * (Z.to_nat NP * Z.to_nat d))
        with (pos w + Z.to_nat NP * Z.to_nat d
              + j * (Z.to_nat NP * Z.to_nat d)) by lia.
      replace (pos w + S (S j) * (Z.to_nat NP * Z.to_nat d))
        with (pos w + Z.to_nat NP * Z.to_nat d
              + S j * (Z.to_nat NP * Z.to_nat d)) by lia.
      rewrite <- app_assoc in Hj. exact Hj.
    + rewrite Hevs, <- app_assoc. reflexivity.
    + rewrite Hpos. lia.
    + exact Hin.
    + exists a2.2. split; [exact Hfv | exact Hmin].
  - split; [|split].
    + apply list_elem_of_singleton. reflexivity.
    + exact Hf0.
    + cbn. intros c z Hc Hz. apply list_elem_of_singleton in Hc. subst c.
      rewrite Hf0 in Hz. injection Hz as <-. apply Qle_refl.
Qed.

Lemma keep_best_run f t : total f -> forall xs best w,
  exists best' w', for_each xs (keep_best f) best t w = Ok (best', w').
Proof.
  intros Hf. induction xs as [|v xs IH]; intros best w.
  - eexists _, _. reflexivity.
  - destruct (Hf v) as [y Hy]. cbn [for_each]. rewrite bind_run.
    unfold keep_best at 1. rewrite bind_run. unfold call_f at 1. rewrite Hy.
    cbn beta iota. destruct (Qltb y best.2); rewrite ret_run; apply IH.
Qed.

Lemma while_lt_run {St} (body : St -> M St) max_gen t :
  (forall s w, exists s' w', body s t w = Ok (s', w')) ->
  forall gas n_gen s w, Z.to_nat (max_gen - n_gen) <= gas ->
  exists s' w', while_lt gas max_gen body n_gen s t w = Ok (s', w').
Proof.
  intros Hb. induction gas as [|g IH]; intros n_gen s w Hg; cbn [while_lt];
    destruct (Z.ltb_spec n_gen max_gen) as [Hlt|Hge]; try lia.
  - eexists _, _. reflexivity.
  - destruct (Hb s w) as (s1 & w1 & H1). rewrite bind_run, H1.
    apply IH. lia.
  - eexists _, _. reflexivity.
Qed.

Lemma rand_search_run fuel NP f max_gen d obj_bounds t w :
  (0 < NP)%Z -> (0 <= d)%Z -> length obj_bounds <= 2 -> total f ->
  Z.to_nat max_gen <= fuel ->
  exists v w', rand_search fuel NP f max_gen d obj_bounds t w = Ok (v, w').
Proof.
  intros HNP Hd Hlen Hf Hfuel. unfold rand_search.
  destruct (init_population_star_run NP d obj_bounds t w)
    as (x0 & w1 & Hinit & Hx0 & _); [lia | exact Hd | exact Hlen |].
  destruct (shaped_lookup _ _ _ 0 Hx0 ltac:(lia)) as (first & Hfirst & _).
  destruct (Hf first) as [y Hy].
  rewrite bind_run, Hinit. cbn beta iota. rewrite bind_run, Hfirst.
  cbn [lift_idx]. rewrite ret_run. cbn beta iota.
  rewrite bind_run. unfold call_f at 1. rewrite Hy. cbn beta iota.
  destruct (while_lt_run (search_round f NP d obj_bounds) max_gen t)
    with (gas := fuel) (n_gen := 0%Z) (s := (first, y))
         (w := log_eval first w1) as (best & w' & Hloop).
  - intros s w0. unfold search_round.
    destruct (init_population_star_run NP d obj_bounds t w0)
      as (p & w2 & Hp & _); [lia | exact Hd | exact Hlen |].
    rewrite bind_run, Hp. apply keep_best_run, Hf.
  - lia.
  - rewrite bind_run, Hloop. eexists _, _. reflexivity.
Qed.

(** C10. [rand_search] evaluates, of the initial population, its first
    member only.  The objective is called on that member and then, in
    order, on every member of [max_gen] further populations; population
    [j] of these is the one [init_population] draws from the cells that
    follow those of the initial population and of the populations before
    it (with [sz = NP * d] cells each, from cell [pos + (j+1) * sz] on),
    so none of them is the initial population read again, and the run
    consumes [(max_gen + 1) * sz] cells in all.  The result is a sample of
    least fitness among the members evaluated.  With [max_gen = 0] the
    result is the first member of the initial population, whatever the
    objective says of the others, which are never evaluated.  The call
    returns when [NP >= 1] and the objective is total. *)
Theorem rand_search_first_member_only NP f max_gen d obj_bounds t w :
  (forall fuel v w',
     rand_search fuel NP f max_gen d obj_bounds t w = Ok (v, w') ->
     exists x0 w1 first pops,
       init_population_star NP d obj_bounds t w = Ok (x0, w1) /\
       x0 !! 0 = Some first /\
       length pops = Z.to_nat max_gen /\
       (forall j p, pops !! j = Some p ->
          init_population_star NP d obj_bounds t
            (World (pos w + S j * (Z.to_nat NP * Z.to_nat d))
                   (evals w ++ first :: concat (take j pops)))
          = Ok (p, World (pos w + S (S j) * (Z.to_nat NP * Z.to_nat d))
                         (evals w ++ first :: concat (take j pops)))) /\
       evals w' = evals w ++ first :: concat pops /\
       pos w' = pos w + S (Z.to_nat max_gen) * (Z.to_nat NP * Z.to_nat d) /\
       v ∈ first :: concat pops /\
       exists y, f v = Some y /\
         forall c z, c ∈ first :: concat pops -> f c = Some z -> (y <= z)%Q) /\
  ((0 < NP)%Z -> (0 <= d)%Z -> length obj_bounds <= 2 -> total f ->
   forall fuel, Z.to_nat max_gen <= fuel ->
     exists v w', rand_search fuel NP f max_gen d obj_bounds t w = Ok (v, w')) /\
  (max_gen = 0%Z -> (0 < NP)%Z -> (0 <= d)%Z -> length obj_bounds <= 2 ->
   total f ->
   forall fuel, exists x0 w1 first w',
     init_population_star NP d obj_bounds t w = Ok (x0, w1) /\
     x0 !! 0 = Some first /\
     rand_search fuel NP f max_gen d obj_bounds t w = Ok (first, w') /\
     evals w' = evals w ++ [first]).
Proof.
  split; [|split].
  - intros fuel v w'. apply rand_search_Ok.
  - intros HNP Hd Hlen Hf fuel Hfuel. apply rand_search_run; assumption.
  - intros -> HNP Hd Hlen Hf fuel.
    destruct (rand_search_run fuel NP f 0 d obj_bounds t w)
      as (v & w' & Hrun); try assumption; [cbn; lia|].
    pose proof Hrun as Hrun'.
    apply rand_search_Ok in Hrun'
      as (x0 & w1 & first & pops & Hinit & Hfirst & Hlen' & _ & Hev & _
          & Hin & _).
    destruct pops; [|discriminate]. cbn [concat] in *.
    apply list_elem_of_singleton in Hin. subst v.
    exists x0, w1, first, w'. auto.
Qed.

Lemma total_sphere : total sphere.
Proof. intros v. eexists. reflexivity. Qed.

Lemma rand_search_first_member_only_witness :
  (exists v w',
     rand_search 3 4 sphere 2 1 [-1; 1]%Q (counting 15) start = Ok (v, w') /\
     exists x0 w1 first pops,
       init_population_star 4 1 [-1; 1]%Q (counting 15) start = Ok (x0, w1) /\
       x0 !! 0 = Some first /\
       length pops = Z.to_nat 2 /\
       (forall j p, pops !! j = Some p ->
          init_population_star 4 1 [-1; 1]%Q (counting 15)
            (World (pos start + S j * (Z.to_nat 4 * Z.to_nat 1))
                   (evals start ++ first :: concat (take j pops)))
          = Ok (p, World (pos start + S (S j) * (Z.to_nat 4 * Z.to_nat 1))
                         (evals start ++ first :: concat (take j pops)))) /\
       evals w' = evals start ++ first :: concat pops /\
       pos w' = pos start + S (Z.to_nat 2) * (Z.to_nat 4 * Z.to_nat 1) /\
       v ∈ first :: concat pops /\
       exists y, sphere v = Some y /\
         forall c z, c ∈ first :: concat pops -> sphere c = Some z ->
                     (y <= z)%Q) /\
  (forall fuel, Z.to_nat 2 <= fuel ->
     exists v w',
       rand_search fuel 4 sphere 2 1 [-1; 1]%Q (counting 15) start
         = Ok (v, w')) /\
  (forall fuel, exists x0 w1 first w',
     init_population_star 4 1 [-1; 1]%Q (counting 15) start = Ok (x0, w1) /\
     x0 !! 0 = Some first /\
     rand_search fuel 4 sphere 0 1 [-1; 1]%Q (counting 15) start
       = Ok (first, w') /\
     evals w' = evals start ++ [first]).
Proof.
  split; [|split].
  - destruct (rand_search 3 4 sphere 2 1 [-1; 1]%Q (counting 15) start)
      as [[v w']| |] eqn:E; [| vm_compute in E; discriminate..].
    exists v, w'. split; [reflexivity|].
    exact (proj1 (rand_search_first_member_only 4 sphere 2 1 [-1; 1]%Q
                    (counting 15) start) 3 v w' E).
  - apply (proj1 (proj2 (rand_search_first_member_only 4 sphere 2 1
                           [-1; 1]%Q (counting 15) start)));
      [lia | lia | cbn; lia | apply total_sphere].
  - apply (proj2 (proj2 (rand_search_first_member_only 4 sphere 0 1
                           [-1; 1]%Q (counting 15) start)));
      [reflexivity | lia | lia | cbn; lia | apply total_sphere].
Defined.

(** ** Parameter validation *)

Lemma check_param_after_smoke NP f CR F max_gen d obj_bounds t w w1 :
  check_obj_func f d t w = Ok (0%Z, w1) ->
  check_param NP f CR F max_gen d obj_bounds t w =
  (if not_int_or (fun z => z <? 4)%Z NP then raise (Exception msg_NP)
   else if not_float_or (fun q => Qltb q 0 || Qltb 1 q) CR
        then raise (Exception msg_CR)
   else if not_float_or (fun q => Qle_bool q 0 || Qltb 2 q) F
        then raise (Exception msg_F)
   else if not_int_or (fun z => z <=? 0)%Z max_gen
        then raise (Exception msg_max_gen)
   else if not_int_or (fun z => z <=? 0)%Z d then raise (Exception msg_d)
   else match obj_bounds with
        | [b0; b1] =>
            if Qle_bool b1 b0 then raise (Exception msg_bounds) else mret 0%Z
        | _ => raise (Exception msg_len)
        end) t w1.
Proof.
  intros H. unfold check_param. rewrite bind_run, H. reflexivity.
Qed.

Lemma check_obj_func_Ok f d t w c w1 :
  check_obj_func f d t w = Ok (c, w1) ->
  exists dz sample,
    d = PInt dz /\ pos w1 = pos w + Z.to_nat dz /\
    evals w1 = evals w ++ [sample].
Proof.
  destruct d as [dz| | |]; try discriminate.
  cbn [check_obj_func]. intros H. inv_bind H.
  unfold init_population in H0.
  destruct ((1 <? 0)%Z || (dz <? 0)%Z); [discriminate|].
  rewrite bind_run, rand_run in H0. cbn beta iota in H0. inv_ret H0.
  inv_bind H. apply lift_idx_Ok in H0 as [_ ->].
  exists dz, a. split; [reflexivity|].
  unfold try_f in H. destruct (f a); injection H as <- <-; cbn; split;
    try reflexivity; lia.
Qed.

(** C2 (as the code has it). [check_param] first draws one sample vector
    and calls the objective on it; when that smoke test passes, it raises
    an exception whose message names the offending parameter and its
    constraint for [NP = 3], for [CR = 1.5], for [F = 0] and for
    [max_gen = -1], the parameters before the offending one being valid. *)
Theorem check_param_rejects f d obj_bounds t w w1 :
  check_obj_func f d t w = Ok (0%Z, w1) ->
  (exists dz sample, d = PInt dz /\ pos w1 = pos w + Z.to_nat dz /\
                     evals w1 = evals w ++ [sample]) /\
  (forall CR F max_gen,
     check_param (PInt 3) f CR F max_gen d obj_bounds t w
       = Raise (Exception msg_NP)) /\
  (forall np F max_gen, (4 <= np)%Z ->
     check_param (PInt np) f (PFloat (15#10)) F max_gen d obj_bounds t w
       = Raise (Exception msg_CR)) /\
  (forall np cr max_gen, (4 <= np)%Z -> (0 <= cr)%Q -> (cr <= 1)%Q ->
     check_param (PInt np) f (PFloat cr) (PFloat 0) max_gen d obj_bounds t w
       = Raise (Exception msg_F) /\
     check_param (PInt np) f (PFloat cr) (PInt 0) max_gen d obj_bounds t w
       = Raise (Exception msg_F)) /\
  (forall np cr fw, (4 <= np)%Z -> (0 <= cr)%Q -> (cr <= 1)%Q ->
     (0 < fw)%Q -> (fw <= 2)%Q ->
     check_param (PInt np) f (PFloat cr) (PFloat fw) (PInt (-1)) d
       obj_bounds t w = Raise (Exception msg_max_gen)).
Proof.
  intros H. split; [exact (check_obj_func_Ok _ _ _ _ _ _ H)|].
  assert (Hnp : forall np, (4 <= np)%Z ->
            not_int_or (fun z => z <? 4)%Z (PInt np) = false).
  { intros np Hnp. cbn. apply Z.ltb_ge. exact Hnp. }
  assert (Hcr : forall cr, (0 <= cr)%Q -> (cr <= 1)%Q ->
            not_float_or (fun q => Qltb q 0 || Qltb 1 q) (PFloat cr) = false).
  { intros cr H0 H1. cbn. apply orb_false_intro; apply Qltb_ge; assumption. }
  split; [|split; [|split]].
  - intros CR F max_gen. rewrite (check_param_after_smoke _ _ _ _ _ _ _ _ _ _ H).
    reflexivity.
  - intros np F max_gen Hn.
    rewrite (check_param_after_smoke _ _ _ _ _ _ _ _ _ _ H), (Hnp np Hn).
    reflexivity.
  - intros np cr max_gen Hn H0 H1.
    rewrite !(check_param_after_smoke _ _ _ _ _ _ _ _ _ _ H), (Hnp np Hn),
      (Hcr cr H0 H1).
    split; reflexivity.
  - intros np cr fw Hn H0 H1 Hf0 Hf2.
    rewrite (check_param_after_smoke _ _ _ _ _ _ _ _ _ _ H), (Hnp np Hn),
      (Hcr cr H0 H1).
    assert (Hfw : not_float_or (fun q => Qle_bool q 0 || Qltb 2 q) (PFloat fw)
                  = false).
    { cbn. apply orb_false_intro; [|apply Qltb_ge; exact Hf2].
      apply not_true_iff_false. rewrite Qle_bool_iff.
      apply Qlt_not_le, Hf0. }
    rewrite Hfw. reflexivity.
Qed.

Lemma check_param_rejects_witness :
  check_obj_func first_coord (PInt 1) (counting 3) start
    = Ok (0%Z, World 1 [[0 # 4]]) /\
  check_param (PInt 3) first_coord (PFloat (9#10)) (PFloat (8#10)) (PInt 100)
    (PInt 1) [0; 1]%Q (counting 3) start = Raise (Exception msg_NP) /\
  check_param (PInt 30) first_coord (PFloat (15#10)) (PFloat (8#10))
    (PInt 100) (PInt 1) [0; 1]%Q (counting 3) start
    = Raise (Exception msg_CR) /\
  check_param (PInt 30) first_coord (PFloat (9#10)) (PFloat 0) (PInt 100)
    (PInt 1) [0; 1]%Q (counting 3) start = Raise (Exception msg_F) /\
  check_param (PInt 30) first_coord (PFloat (9#10)) (PFloat (8#10))
    (PInt (-1)) (PInt 1) [0; 1]%Q (counting 3) start
    = Raise (Exception msg_max_gen).
Proof.
  assert (E : check_obj_func first_coord (PInt 1) (counting 3) start
              = Ok (0%Z, World 1 [[0 # 4]])) by reflexivity.
  destruct (check_param_rejects first_coord (PInt 1) [0; 1]%Q (counting 3)
              start (World 1 [[0 # 4]]) E) as (_ & H1 & H2 & H3 & H4).
  split; [exact E|]. split; [apply H1|]. split; [apply H2; lia|].
  split.
  - apply (H3 30%Z (9#10) (PInt 100)); [lia | | ]; unfold Qle; cbn; lia.
  - apply (H4 30%Z (9#10) (8#10)); [lia | | | |];
      unfold Qle, Qlt; cbn; lia.
Defined.

(** [differential_evolution] itself validates nothing: with
    [max_gen = -1], with [CR = 1.5] and with [F = 0] it returns a vector,
    and with [NP = 3] it spends its fuel in [pick_rand_idx]; no exception
    is raised. *)
Lemma differential_evolution_accepts_invalid :
  differential_evolution 0 4 first_coord (9#10) (8#10) (-1) 1 [0; 1]%Q
    (counting 3) start = Ok ([0 # 4], World 4 [[0#4]; [1#4]; [2#4]; [3#4]]) /\
  (exists v w',
     differential_evolution 5 4 first_coord (15#10) (8#10) 1 1 [0; 1]%Q
       (counting 3) start = Ok (v, w')) /\
  (exists v w',
     differential_evolution 5 4 first_coord (9#10) 0 1 1 [0; 1]%Q
       (counting 3) start = Ok (v, w')) /\
  differential_evolution 50 3 first_coord (9#10) (8#10) 1 1 [0; 1]%Q
    (counting 3) start = OutOfFuel.
Proof.
  split; [vm_compute; reflexivity|].
  split; [eexists _, _; vm_compute; reflexivity|].
  split; [eexists _, _; vm_compute; reflexivity|].
  vm_compute. reflexivity.
Qed.

(** ** Aliasing of [x] and [x_g] *)

(** C1 (where the code departs from it). On four one-dimensional members
    [4/8, 5/8, 6/8, 7/8] with [F = 2], the first generation keeps every
    member.  In the second generation member 0 becomes [3/8]; the trial
    vector of member 1, with donors [0, 2, 3], is then
    [3/8 + 2 * (6/8 - 7/8) = 1/8], computed from the value that member 0
    has just received, where the previous generation gives
    [4/8 + 2 * (6/8 - 7/8) = 2/8].  The run returns [1/8]; a run that
    builds every trial vector from the previous generation returns
    [2/8]. *)
Theorem second_sweep_reads_updated_member :
  exists x0 w1 s1 w2 s2 w3 trial s2' w3' trial' best best' w4 w4',
    init_population_star 4 1 [0; 1]%Q tape_two_gens start = Ok (x0, w1) /\
    generation 10 first_coord (9#10) 2 4 1 (store_of x0 1) tape_two_gens w1
      = Ok (s1, w2) /\
    Forall2 veq (cur s1) [[4#8]; [5#8]; [6#8]; [7#8]]%Q /\
    x s1 = Lx_g /\
    generation 10 first_coord (9#10) 2 4 1 s1 tape_two_gens w2
      = Ok (s2, w3) /\
    u s2 !! 1 = Some trial /\ veq trial [1#8]%Q /\
    generation_sync 10 first_coord (9#10) 2 4 1 s1 tape_two_gens w2
      = Ok (s2', w3') /\
    u s2' !! 1 = Some trial' /\ veq trial' [2#8]%Q /\
    differential_evolution 10 4 first_coord (9#10) 2 2 1 [0; 1]%Q
      tape_two_gens start = Ok (best, w4) /\
    veq best [1#8]%Q /\
    differential_evolution_sync 10 4 first_coord (9#10) 2 2 1 [0; 1]%Q
      tape_two_gens start = Ok (best', w4') /\
    veq best' [2#8]%Q.
Proof.
  eexists _, _, _, _, _, _, _, _, _, _, _, _, _, _.
  split; [vm_compute; reflexivity|].
  split; [vm_compute; reflexivity|].
  split; [repeat constructor|].
  split; [reflexivity|].
  split; [vm_compute; reflexivity|].
  split; [reflexivity|].
  split; [repeat constructor|].
  split; [vm_compute; reflexivity|].
  split; [reflexivity|].
  split; [repeat constructor|].
  split; [vm_compute; reflexivity|].
  split; [repeat constructor|].
  split; [vm_compute; reflexivity|].
  repeat constructor.
Qed.

(** * Further properties of the code *)

(** ** [check_param] and [check_obj_func] *)

Lemma check_obj_func_code f d t w c w1 :
  check_obj_func f d t w = Ok (c, w1) -> c = 0%Z \/ c = (-1)%Z.
Proof.
  destruct d as [dz| | |]; try discriminate.
  cbn [check_obj_func]. intros H. inv_bind H. inv_bind H.
  unfold try_f in H. destruct (f a0); injection H as <- _; auto.
Qed.

Lemma not_int_or_false p v :
  not_int_or p v = false <-> exists z, v = PInt z /\ p z = false.
Proof.
  destruct v as [z|q|q|]; cbn.
  - split; [intros Hp; exists z; auto |].
    intros (z' & E & Hp). injection E as <-. exact Hp.
  - split; [discriminate | intros (z' & E & _); discriminate].
  - split; [discriminate | intros (z' & E & _); discriminate].
  - split; [discriminate | intros (z' & E & _); discriminate].
Qed.

Lemma not_float_or_false p v :
  not_float_or p v = false <->
  exists q, (v = PFloat q \/ v = PNpFloat64 q) /\ p q = false.
Proof.
  destruct v as [z|q|q|]; cbn.
  - split; [discriminate | intros (q' & [E | E] & _); discriminate].
  - split; [intros Hp; exists q; auto |].
    intros (q' & [E | E] & Hp); [|discriminate].
    injection E as <-. exact Hp.
  - split; [intros Hp; exists q; auto |].
    intros (q' & [E | E] & Hp); [discriminate|].
    injection E as <-. exact Hp.
  - split; [discriminate | intros (q' & [E | E] & _); discriminate].
Qed.

Lemma Qle_bool_false a b : Qle_bool a b = false <-> (b < a)%Q.
Proof.
  rewrite <- not_true_iff_false, Qle_bool_iff. split.
  - apply Qnot_le_lt.
  - apply Qlt_not_le.
Qed.

(** X1. [check_param] returns exactly when its smoke test of the objective
    returns 0 and none of its tests fires, and it then returns 0 without
    any effect of its own: [NP] is an int and [NP < 4] does not hold, [CR]
    is a float or an [np.float64] and neither [CR < 0] nor [CR > 1] holds,
    [F] is one and neither [F <= 0] nor [F > 2] holds, [max_gen] and [d]
    are ints and neither is [<= 0], [obj_bounds] has length two and
    [obj_bounds[0] >= obj_bounds[1]] does not hold.  In particular it
    returns 0 for an [NP >= 4], a [CR] in [[0,1]], an [F] in [(0,2]],
    positive [max_gen] and [d] and bounds in increasing order.  (The
    acceptance is worded by the comparisons of the source because a value
    that fails every comparison passes them.) *)
Theorem check_param_accepts NP f CR F max_gen d obj_bounds t w :
  (forall c w1,
     check_param NP f CR F max_gen d obj_bounds t w = Ok (c, w1) <->
     c = 0%Z /\ check_obj_func f d t w = Ok (0%Z, w1) /\
     tests_pass NP CR F max_gen d obj_bounds) /\
  (params_ok NP CR F max_gen d obj_bounds ->
   forall w1, check_obj_func f d t w = Ok (0%Z, w1) ->
     check_param NP f CR F max_gen d obj_bounds t w = Ok (0%Z, w1)).
Proof.
  assert (Hiff : forall c w1,
     check_param NP f CR F max_gen d obj_bounds t w = Ok (c, w1) <->
     c = 0%Z /\ check_obj_func f d t w = Ok (0%Z, w1) /\
     tests_pass NP CR F max_gen d obj_bounds).
  { intros c w1. split.
    - intros H. pose proof H as H'. unfold check_param in H. inv_bind H.
      destruct (check_obj_func_code _ _ _ _ _ _ H0) as [-> | ->];
        [|discriminate].
      rewrite (check_param_after_smoke _ _ _ _ _ _ _ _ _ _ H0) in H'.
      clear H.
      destruct (not_int_or _ NP) eqn:E1; [discriminate|].
      destruct (not_float_or _ CR) eqn:E2; [discriminate|].
      destruct (not_float_or _ F) eqn:E3; [discriminate|].
      destruct (not_int_or _ max_gen) eqn:E4; [discriminate|].
      destruct (not_int_or _ d) eqn:E5; [discriminate|].
      destruct obj_bounds as [|b0 [|b1 [|? ?]]]; try discriminate.
      destruct (Qle_bool b1 b0) eqn:E6; [discriminate|].
      rewrite ret_run in H'.
      assert (Hc : c = 0%Z) by congruence.
      assert (Hw : w0 = w1) by congruence. subst.
      split; [reflexivity|]. split; [exact H0|].
      apply not_int_or_false in E1 as (n & -> & E1).
      apply not_float_or_false in E2 as (cr & Ecr & E2).
      apply not_float_or_false in E3 as (fw & Efw & E3).
      apply not_int_or_false in E4 as (mg & -> & E4).
      apply not_int_or_false in E5 as (dz & -> & E5).
      apply orb_false_elim in E2 as [E2a E2b].
      apply orb_false_elim in E3 as [E3a E3b].
      apply Qltb_ge in E2a, E2b, E3b. apply Qle_bool_false in E3a, E6.
      split; [exists n; split; [reflexivity | lia]|].
      split; [exists cr; split; [exact Ecr | lra]|].
      split; [exists fw; split; [exact Efw | lra]|].
      split; [exists mg; split; [reflexivity | lia]|].
      split; [exists dz; split; [reflexivity | lia]|].
      exists b0, b1. split; [reflexivity | lra].
    - intros (-> & H0 & Hnp & Hcr & Hf & Hmg & Hd & b0 & b1 & -> & Hb).
      rewrite (check_param_after_smoke _ _ _ _ _ _ _ _ _ _ H0).
      destruct Hnp as (n & -> & Hn). destruct Hmg as (mg & -> & Hmg).
      destruct Hd as (dz & -> & Hdz).
      destruct Hcr as (cr & Ecr & Hcr).
      destruct Hf as (fw & Efw & Hfw).
      assert (E1 : not_int_or (fun z => z <? 4)%Z (PInt n) = false)
        by (apply not_int_or_false; exists n; split; [reflexivity | lia]).
      assert (E2 : not_float_or (fun q => Qltb q 0 || Qltb 1 q) CR = false).
      { apply not_float_or_false. exists cr. split; [exact Ecr|].
        apply orb_false_intro; apply Qltb_ge; lra. }
      assert (E3 : not_float_or (fun q => Qle_bool q 0 || Qltb 2 q) F
                   = false).
      { apply not_float_or_false. exists fw. split; [exact Efw|].
        apply orb_false_intro; [apply Qle_bool_false | apply Qltb_ge]; lra. }
      assert (E4 : not_int_or (fun z => z <=? 0)%Z (PInt mg) = false)
        by (apply not_int_or_false; exists mg; split; [reflexivity | lia]).
      assert (E5 : not_int_or (fun z => z <=? 0)%Z (PInt dz) = false)
        by (apply not_int_or_false; exists dz; split; [reflexivity | lia]).
      rewrite E1, E2, E3, E4, E5.
      assert (Hb' : Qle_bool b1 b0 = false) by (apply Qle_bool_false; lra).
      rewrite Hb'. reflexivity. }
  split; [exact Hiff|].
  intros (Hnp & Hcr & Hf & Hmg & Hd & b0 & b1 & -> & Hb) w1 H0.
  apply Hiff. split; [reflexivity|]. split; [exact H0|].
  destruct Hnp as (n & -> & Hn). destruct Hmg as (mg & -> & Hmg).
  destruct Hd as (dz & -> & Hdz).
  destruct Hcr as (cr & Ecr & Hcr0 & Hcr1).
  destruct Hf as (fw & Efw & Hf0 & Hf2).
  split; [exists n; split; [reflexivity | lia]|].
  split; [exists cr; split; [exact Ecr | lra]|].
  split; [exists fw; split; [exact Efw | lra]|].
  split; [exists mg; split; [reflexivity | lia]|].
  split; [exists dz; split; [reflexivity | lia]|].
  exists b0, b1. split; [reflexivity | lra].
Qed.

Lemma check_param_accepts_witness :
  check_param (PInt 30) first_coord (PFloat (9#10)) (PNpFloat64 (8#10))
    (PInt 100) (PInt 1) [-1; 1]%Q (counting 3) start
  = Ok (0%Z, World 1 [[0 # 4]]).
Proof.
  apply (proj2 (check_param_accepts (PInt 30) first_coord (PFloat (9#10))
                  (PNpFloat64 (8#10)) (PInt 100) (PInt 1) [-1; 1]%Q
                  (counting 3) start)).
  - split; [exists 30%Z; split; [reflexivity | lia]|].
    split; [exists (9#10); split; [left; reflexivity | lra]|].
    split; [exists (8#10); split; [right; reflexivity | lra]|].
    split; [exists 100%Z; split; [reflexivity | lia]|].
    split; [exists 1%Z; split; [reflexivity | lia]|].
    exists (-1)%Q, 1%Q. split; [reflexivity | lra].
  - reflexivity.
Defined.

(** X2. The type tests are strict: a [CR] that is not a float (an int such
    as [1], say) is rejected with the CR message, and so is a non-float [F]
    with the F message, whatever its value. *)
Theorem check_param_rejects_non_float f d obj_bounds t w w1 np :
  check_obj_func f d t w = Ok (0%Z, w1) -> (4 <= np)%Z ->
  (forall CR F max_gen, ~ is_float CR ->
     check_param (PInt np) f CR F max_gen d obj_bounds t w
       = Raise (Exception msg_CR)) /\
  (forall cr F max_gen, (0 <= cr)%Q -> (cr <= 1)%Q -> ~ is_float F ->
     check_param (PInt np) f (PFloat cr) F max_gen d obj_bounds t w
       = Raise (Exception msg_F)).
Proof.
  intros H Hnp.
  assert (E1 : not_int_or (fun z => z <? 4)%Z (PInt np) = false)
    by (apply not_int_or_false; exists np; split; [reflexivity | lia]).
  assert (Hnf : forall p v, ~ is_float v -> not_float_or p v = true).
  { intros p v Hv. destruct v; try reflexivity;
      exfalso; apply Hv; eexists; eauto. }
  split.
  - intros CR F max_gen HCR.
    rewrite (check_param_after_smoke _ _ _ _ _ _ _ _ _ _ H), E1,
      (Hnf _ CR HCR).
    reflexivity.
  - intros cr F max_gen H0 H1 HF.
    rewrite (check_param_after_smoke _ _ _ _ _ _ _ _ _ _ H), E1.
    assert (E2 : not_float_or (fun q => Qltb q 0 || Qltb 1 q) (PFloat cr)
                 = false).
    { apply not_float_or_false. exists cr. split; [left; reflexivity|].
      apply orb_false_intro; apply Qltb_ge; assumption. }
    rewrite E2, (Hnf _ F HF). reflexivity.
Qed.

Lemma check_param_rejects_non_float_witness :
  check_param (PInt 30) first_coord (PInt 1) (PFloat (8#10)) (PInt 100)
    (PInt 1) [0; 1]%Q (counting 3) start = Raise (Exception msg_CR) /\
  check_param (PInt 30) first_coord (PFloat (9#10)) (PInt 1) (PInt 100)
    (PInt 1) [0; 1]%Q (counting 3) start = Raise (Exception msg_F).
Proof.
  assert (E : check_obj_func first_coord (PInt 1) (counting 3) start
              = Ok (0%Z, World 1 [[0 # 4]])) by reflexivity.
  assert (Hi : forall z, ~ is_float (PInt z))
    by (intros z [q [Hq | Hq]]; discriminate).
  destruct (check_param_rejects_non_float first_coord (PInt 1) [0; 1]%Q
              (counting 3) start (World 1 [[0 # 4]]) 30%Z E ltac:(lia))
    as [H1 H2].
  split.
  - apply H1, Hi.
  - apply H2; [unfold Qle; cbn; lia | unfold Qle; cbn; lia | apply Hi].
Defined.

Lemma check_obj_func_run f z t w :
  (0 <= z)%Z -> exists c w1, check_obj_func f (PInt z) t w = Ok (c, w1).
Proof.
  intros Hz. cbn [check_obj_func].
  rewrite bind_run, init_population_run by lia.
  cbn beta iota. rewrite bind_run.
  change (Z.to_nat 1) with 1. cbn [seq fmap list_fmap lookup list_lookup].
  cbn [lift_idx]. rewrite ret_run. cbn beta iota.
  unfold try_f. destruct (f _); eexists _, _; reflexivity.
Qed.

(** X3. A bad [d] is met by the smoke test before [check_param] looks at
    it: a negative int [d] raises numpy's [ValueError] and a [d] of type
    [float] or [np.float64] a [TypeError], whatever the other arguments.
    For an int [d] the message about [d] is raised for [d = 0] only; it is
    raised for [d = 0] when the objective accepts the empty vector and
    [NP], [CR], [F] and [max_gen] are valid. *)
Theorem check_param_bad_dimension NP f CR F max_gen obj_bounds t w :
  (forall z, (z < 0)%Z ->
     check_param NP f CR F max_gen (PInt z) obj_bounds t w
       = Raise ValueError) /\
  (forall d, is_float d ->
     check_param NP f CR F max_gen d obj_bounds t w = Raise TypeError) /\
  (forall z, check_param NP f CR F max_gen (PInt z) obj_bounds t w
               = Raise (Exception msg_d) -> z = 0%Z) /\
  (forall w1, check_obj_func f (PInt 0) t w = Ok (0%Z, w1) ->
     is_int_in (fun z => 4 <= z)%Z NP ->
     is_float_in (fun q => 0 <= q /\ q <= 1)%Q CR ->
     is_float_in (fun q => 0 < q /\ q <= 2)%Q F ->
     is_int_in (fun z => 0 < z)%Z max_gen ->
     check_param NP f CR F max_gen (PInt 0) obj_bounds t w
       = Raise (Exception msg_d)).
Proof.
  assert (Hneg : forall z, (z < 0)%Z ->
            check_param NP f CR F max_gen (PInt z) obj_bounds t w
              = Raise ValueError).
  { intros z Hz. unfold check_param, check_obj_func, init_population.
    destruct (Z.ltb_spec z 0); [|lia]. reflexivity. }
  split; [exact Hneg|]. split; [|split].
  - intros d [q [-> | ->]]; reflexivity.
  - intros z H.
    destruct (Z.lt_trichotomy z 0) as [Hz | [-> | Hz]]; [|reflexivity|].
    { rewrite (Hneg z Hz) in H. discriminate. }
    exfalso.
    destruct (check_obj_func_run f z t w ltac:(lia)) as (c & w1 & E).
    destruct (check_obj_func_code _ _ _ _ _ _ E) as [-> | ->].
    + rewrite (check_param_after_smoke _ _ _ _ _ _ _ _ _ _ E) in H.
      destruct (not_int_or _ NP); [discriminate|].
      destruct (not_float_or _ CR); [discriminate|].
      destruct (not_float_or _ F); [discriminate|].
      destruct (not_int_or _ max_gen); [discriminate|].
      cbn [not_int_or] in H. destruct (Z.leb_spec z 0); [lia|].
      destruct obj_bounds as [|b0 [|b1 [|? ?]]]; try discriminate.
      destruct (Qle_bool b1 b0); discriminate.
    + unfold check_param in H. rewrite bind_run, E in H.
      cbn in H. discriminate.
  - intros w1 H0 (n & -> & Hn) (cr & Ecr & Hcr0 & Hcr1)
      (fw & Efw & Hf0 & Hf2) (mg & -> & Hmg).
    rewrite (check_param_after_smoke _ _ _ _ _ _ _ _ _ _ H0).
    assert (E1 : not_int_or (fun z => z <? 4)%Z (PInt n) = false)
      by (apply not_int_or_false; exists n; split; [reflexivity | lia]).
    assert (E2 : not_float_or (fun q => Qltb q 0 || Qltb 1 q) CR = false).
    { apply not_float_or_false. exists cr. split; [exact Ecr|].
      apply orb_false_intro; apply Qltb_ge; assumption. }
    assert (E3 : not_float_or (fun q => Qle_bool q 0 || Qltb 2 q) F = false).
    { apply not_float_or_false. exists fw. split; [exact Efw|].
      apply orb_false_intro; [apply Qle_bool_false | apply Qltb_ge];
        assumption. }
    assert (E4 : not_int_or (fun z => z <=? 0)%Z (PInt mg) = false)
      by (apply not_int_or_false; exists mg; split; [reflexivity | lia]).
    rewrite E1, E2, E3, E4. reflexivity.
Qed.

Lemma check_param_bad_dimension_witness :
  check_param (PInt 30) first_coord (PFloat (9#10)) (PFloat (8#10))
    (PInt 100) (PInt (-2)) [0; 1]%Q (counting 3) start = Raise ValueError /\
  check_param (PInt 30) first_coord (PFloat (9#10)) (PFloat (8#10))
    (PInt 100) (PFloat 2) [0; 1]%Q (counting 3) start = Raise TypeError /\
  0%Z = 0%Z /\
  check_param (PInt 30) first_coord (PFloat (9#10)) (PFloat (8#10))
    (PInt 100) (PInt 0) [0; 1]%Q (counting 3) start
    = Raise (Exception msg_d).
Proof.
  destruct (check_param_bad_dimension (PInt 30) first_coord (PFloat (9#10))
              (PFloat (8#10)) (PInt 100) [0; 1]%Q (counting 3) start)
    as (H1 & H2 & H3 & H4).
  split; [apply H1; lia|].
  split; [apply H2; exists 2%Q; left; reflexivity|].
  split; [apply H3; reflexivity|].
  apply (H4 (World 0 [[]])); [reflexivity | | | |].
  - exists 30%Z. split; [reflexivity | lia].
  - exists (9#10). split; [left; reflexivity | lra].
  - exists (8#10). split; [left; reflexivity | lra].
  - exists 100%Z. split; [reflexivity | lia].
Defined.

(** X4. When the objective, a function object, raises on the vectors of
    dimension [d], [check_param] raises the message about the objective,
    which quotes [d], whatever the other parameters are (valid or not);
    the objective has been called once, on a vector of [d] fresh draws.
    (For a callable without a [__name__] the [print] of the [except]
    branch would itself raise; such callables are outside [objective].) *)
Theorem check_param_smoke_failure NP f CR F max_gen z obj_bounds t w :
  (0 <= z)%Z -> (forall v, length v = Z.to_nat z -> f v = None) ->
  check_param NP f CR F max_gen (PInt z) obj_bounds t w
    = Raise (Exception
        ("Objective function must be able to handle " ++ str_int z
         ++ " dimensional vectors")) /\
  exists sample,
    check_obj_func f (PInt z) t w
      = Ok ((-1)%Z, World (pos w + Z.to_nat z) (evals w ++ [sample])) /\
    length sample = Z.to_nat z.
Proof.
  intros Hz Hf.
  assert (E : exists sample,
    check_obj_func f (PInt z) t w
      = Ok ((-1)%Z, World (pos w + Z.to_nat z) (evals w ++ [sample])) /\
    length sample = Z.to_nat z).
  { cbn [check_obj_func].
    rewrite bind_run, init_population_run by lia.
    cbn beta iota. rewrite bind_run.
    change (Z.to_nat 1) with 1. cbn [seq fmap list_fmap lookup list_lookup].
    cbn [lift_idx]. rewrite ret_run. cbn beta iota.
    unfold try_f.
    rewrite Hf by (rewrite !length_fmap, length_seq; reflexivity).
    eexists. split.
    - unfold log_eval. cbn [pos evals]. do 3 f_equal. lia.
    - rewrite !length_fmap, length_seq. reflexivity. }
  split; [|exact E]. destruct E as (sample & E & _).
  unfold check_param. rewrite bind_run, E. reflexivity.
Qed.

Lemma check_param_smoke_failure_witness :
  check_param (PInt 3) (fun _ => None) POther POther POther (PInt 2) []
    (counting 3) start
  = Raise (Exception
      "Objective function must be able to handle 2 dimensional vectors").
Proof.
  exact (proj1 (check_param_smoke_failure (PInt 3) (fun _ => None) POther
                  POther POther 2 [] (counting 3) start ltac:(lia)
                  (fun _ _ => eq_refl))).
Defined.

(** ** [init_population] at the edges *)

(** X5. [init_population] refuses a negative size or dimension with a
    [ValueError]; with [NP = 0] it returns the empty population and with
    [d = 0] a population of [NP] empty vectors, in both cases without
    drawing anything. *)
Theorem init_population_degenerate NP d lb ub t w :
  ((NP < 0)%Z \/ (d < 0)%Z ->
   init_population NP d lb ub t w = Raise ValueError) /\
  ((0 <= d)%Z -> init_population 0 d lb ub t w = Ok ([], w)) /\
  ((0 <= NP)%Z ->
   init_population NP 0 lb ub t w = Ok (replicate (Z.to_nat NP) [], w)).
Proof.
  split; [|split].
  - intros H. unfold init_population.
    destruct (Z.ltb_spec NP 0), (Z.ltb_spec d 0); try reflexivity. lia.
  - intros Hd. rewrite init_population_run by lia.
    cbn. rewrite Nat.add_0_r. destruct w; reflexivity.
  - intros HNP. rewrite init_population_run by lia.
    change (Z.to_nat 0) with 0. cbn [seq fmap list_fmap].
    rewrite Nat.mul_0_r, Nat.add_0_r. f_equal. f_equal; [|destruct w; reflexivity].
    generalize (Z.to_nat NP) as n. intros n. generalize 0 as a.
    induction n as [|n IH]; intros a; [reflexivity|].
    cbn [seq fmap list_fmap replicate]. f_equal. apply IH.
Qed.

Lemma init_population_degenerate_witness :
  init_population (-1) 2 0 1 (counting 3) start = Raise ValueError /\
  init_population 0 2 0 1 (counting 3) start = Ok ([], start) /\
  init_population 3 0 0 1 (counting 3) start = Ok ([[]; []; []], start).
Proof.
  destruct (init_population_degenerate (-1) 2 0 1 (counting 3) start)
    as (H1 & _).
  destruct (init_population_degenerate 0 2 0 1 (counting 3) start)
    as (_ & H2 & _).
  destruct (init_population_degenerate 3 0 0 1 (counting 3) start)
    as (_ & _ & H3).
  split; [apply H1; left; lia|]. split; [apply H2; lia | apply H3; lia].
Defined.

Lemma f64_unit_finite r : f64_unit r = true -> f64_is_finite r = true.
Proof.
  intros H. destruct r as [s | s | | s m e]; try reflexivity;
    [destruct s | ]; vm_compute in H; discriminate.
Qed.

Lemma f64_sub_diag x :
  f64_is_finite x = true -> f64_sub x x = SpecFloat.S754_zero false.
Proof.
  destruct x as [[|] | s | | s m e]; try discriminate; intros _;
    try reflexivity.
  unfold f64_sub, SpecFloat.SFsub. cbv zeta. rewrite Z.sub_diag.
  reflexivity.
Qed.

Lemma f64_mul_zero r :
  f64_is_finite r = true ->
  exists s, f64_mul r (SpecFloat.S754_zero false) = SpecFloat.S754_zero s.
Proof.
  destruct r as [s | s | | s m e]; try discriminate; intros _;
    eexists; reflexivity.
Qed.

Lemma f64_eqb_refl x : f64_is_finite x = true -> f64_eqb x x = true.
Proof.
  destruct x as [s | s | | s m e]; try discriminate; intros _;
    [reflexivity|].
  unfold f64_eqb, SpecFloat.SFeqb, SpecFloat.SFcompare.
  rewrite Z.compare_refl, Pos.compare_cont_refl. destruct s; reflexivity.
Qed.

Lemma f64_add_zero s x :
  f64_is_finite x = true ->
  f64_eqb (f64_add (SpecFloat.S754_zero s) x) x = true /\
  (forall s' m e, x = SpecFloat.S754_finite s' m e ->
     f64_add (SpecFloat.S754_zero s) x = x).
Proof.
  destruct x as [sx | sx | | sx m e]; try discriminate; intros Hx.
  - split; [|discriminate]. destruct s, sx; reflexivity.
  - split; [|reflexivity].
    change (f64_add (SpecFloat.S754_zero s) (SpecFloat.S754_finite sx m e))
      with (SpecFloat.S754_finite sx m e).
    apply f64_eqb_refl. reflexivity.
Qed.

(** X6. The bounds are not validated, and equal bounds give a constant
    population: in binary64, with [lb = ub] finite, every component of the
    population equals [lb], whatever was drawn ([ub - lb] is zero, its
    product with the draw is a zero, and adding [lb] gives [lb]); the
    population keeps the shape of the draws. *)
Theorem init_population_equal_bounds draws lb :
  f64_is_finite lb = true ->
  Forall (Forall (fun r => f64_unit r = true)) draws ->
  length <$> init_population_f64 draws lb lb = length <$> draws /\
  Forall (Forall (fun c => f64_eqb c lb = true /\
                           (forall s m e, lb = SpecFloat.S754_finite s m e ->
                                          c = lb)))
         (init_population_f64 draws lb lb).
Proof.
  intros Hlb Hdraws. unfold init_population_f64. split.
  - rewrite <- list_fmap_compose. apply list_fmap_ext.
    intros _ row _. cbn. apply length_fmap.
  - apply Forall_fmap. eapply Forall_impl; [exact Hdraws|].
    intros row Hrow. cbn. apply Forall_fmap.
    eapply Forall_impl; [exact Hrow|].
    intros r Hr. cbn. apply f64_unit_finite in Hr.
    rewrite (f64_sub_diag lb Hlb).
    destruct (f64_mul_zero r Hr) as [s ->].
    apply f64_add_zero, Hlb.
Qed.

Lemma init_population_equal_bounds_witness :
  length <$> init_population_f64
               [[f64_draw 0; f64_draw (2 ^ 53 - 1)]; [f64_draw (2 ^ 52)]]
               (f64_of_Z 3 0) (f64_of_Z 3 0)
  = length <$> [[f64_draw 0; f64_draw (2 ^ 53 - 1)]; [f64_draw (2 ^ 52)]] /\
  Forall (Forall (fun c => f64_eqb c (f64_of_Z 3 0) = true /\
                           (forall s m e,
                              f64_of_Z 3 0 = SpecFloat.S754_finite s m e ->
                              c = f64_of_Z 3 0)))
         (init_population_f64
            [[f64_draw 0; f64_draw (2 ^ 53 - 1)]; [f64_draw (2 ^ 52)]]
            (f64_of_Z 3 0) (f64_of_Z 3 0)).
Proof.
  apply (init_population_equal_bounds
           [[f64_draw 0; f64_draw (2 ^ 53 - 1)]; [f64_draw (2 ^ 52)]]
           (f64_of_Z 3 0)).
  - vm_compute. reflexivity.
  - repeat constructor; vm_compute; reflexivity.
Defined.

(** X24. Whatever the bounds, for [NP >= 0] and [d >= 0]
    [init_population] returns [NP] vectors of dimension [d]; component
    [b] of vector [a] is computed, by the expression [r*(ub-lb)+lb], from
    the draw of its own tape cell [pos + a*d + b], so no draw is shared by
    two components; the call consumes [NP * d] draws and never calls the
    objective. *)
Theorem init_population_shape NP d lb ub t w :
  (0 <= NP)%Z -> (0 <= d)%Z ->
  exists m w',
    init_population NP d lb ub t w = Ok (m, w') /\
    shaped (Z.to_nat NP) (Z.to_nat d) m /\
    (forall a b,
       at2 m a b =
       if decide (a < Z.to_nat NP /\ b < Z.to_nat d)
       then Some (unit_of (t (pos w + a * Z.to_nat d + b)%nat) * (ub - lb)
                  + lb)%Q
       else None) /\
    pos w' = pos w + Z.to_nat NP * Z.to_nat d /\
    evals w' = evals w.
Proof.
  intros HNP Hd. eexists _, _.
  split; [apply init_population_run; lia|].
  split; [apply shaped_fmap_seq|].
  split; [|split; reflexivity].
  intros a b.
  rewrite (at2_fmap_seq _ _
             (fun a b => unit_of (t (pos w + a * Z.to_nat d + b)))).
  reflexivity.
Qed.

Lemma init_population_shape_witness :
  exists m w',
    init_population 2 2 1 (-1) (counting 3) start = Ok (m, w') /\
    shaped (Z.to_nat 2) (Z.to_nat 2) m /\
    (forall a b,
       at2 m a b =
       if decide (a < Z.to_nat 2 /\ b < Z.to_nat 2)
       then Some (unit_of (counting 3 (pos start + a * Z.to_nat 2 + b)%nat)
                  * (-1 - 1) + 1)%Q
       else None) /\
    pos w' = pos start + Z.to_nat 2 * Z.to_nat 2 /\
    evals w' = evals start.
Proof.
  apply (init_population_shape 2 2 1 (-1) (counting 3) start); lia.
Defined.

(** ** [pick_rand_idx] and [mutate_at_pos] *)

(** X7. When the first three draws are already pairwise distinct and
    different from [i], [pick_rand_idx] returns them as they are, having
    consumed exactly three draws, and needs no fuel. *)
Theorem pick_rand_idx_first_try fuel i NP t w :
  0 < NP ->
  let a := num (t (pos w)) mod NP in
  let b := num (t (S (pos w))) mod NP in
  let c := num (t (S (S (pos w)))) mod NP in
  a <> i -> b <> a -> b <> i -> c <> b -> c <> a -> c <> i ->
  pick_rand_idx fuel i NP t w
    = Ok ((a, b, c), World (pos w + 3) (evals w)).
Proof.
  intros HNP a b c Ha Hba Hb Hcb Hca Hc. unfold pick_rand_idx.
  rewrite bind_run, randint3_pos by exact HNP. cbn beta iota.
  fold a b c.
  rewrite bind_run, redraw_good by (apply Nat.eqb_neq; exact Ha).
  cbn beta iota.
  rewrite bind_run, redraw_good
    by (apply orb_false_intro; apply Nat.eqb_neq; assumption).
  cbn beta iota.
  rewrite bind_run, redraw_good
    by (repeat apply orb_false_intro; apply Nat.eqb_neq; assumption).
  cbn beta iota. rewrite ret_run.
  replace (pos w + 3) with (S (S (S (pos w)))) by lia. reflexivity.
Qed.

Lemma pick_rand_idx_first_try_witness :
  pick_rand_idx 0 0 5 (counting 0) (World 7 [])
    = Ok ((2, 3, 4), World 10 []).
Proof.
  apply (pick_rand_idx_first_try 0 0 5 (counting 0) (World 7 []));
    cbn; lia.
Defined.

(** X8. A converged population is a fixed point of the mutation: when all
    members agree in dimension [k], the mutated value is that common
    value, whatever the donors and [F]. *)
Theorem mutate_at_pos_converged fuel (m : matrix) F i k t w v w' c :
  (forall r a, at2 m r k = Some a -> (a == c)%Q) ->
  mutate_at_pos fuel m F i k t w = Ok (v, w') ->
  (v == c)%Q.
Proof.
  intros Hall H.
  apply mutate_at_pos_Ok in H
    as (r1 & r2 & r3 & a & b & c' & _ & Ha & Hb & Hc & ->).
  rewrite (Hall _ _ Ha), (Hall _ _ Hb), (Hall _ _ Hc). ring.
Qed.

Lemma mutate_at_pos_converged_witness :
  exists v w',
    mutate_at_pos 5 [[1#2]; [2#4]; [4#8]; [1#2]]%Q (8#10) 1 0
      (counting 0) start = Ok (v, w') /\
    (v == 1#2)%Q.
Proof.
  destruct (mutate_at_pos 5 [[1#2]; [2#4]; [4#8]; [1#2]]%Q (8#10) 1 0
              (counting 0) start) as [[v w']| |] eqn:E;
    [| vm_compute in E; discriminate..].
  exists v, w'. split; [reflexivity|].
  apply (mutate_at_pos_converged 5 [[1#2]; [2#4]; [4#8]; [1#2]]%Q (8#10) 1 0
           (counting 0) start v w' (1#2)); [|exact E].
  intros [|[|[|[|r]]]] a Ha; cbn in Ha; try discriminate;
    injection Ha as <-; reflexivity.
Defined.

(** ** The engine: budget, edges and invariants *)

Lemma while_lt_inv {St} (body : St -> M St) max_gen t
    (I : St -> world -> Prop) :
  (forall s w, I s w -> exists s' w', body s t w = Ok (s', w') /\ I s' w') ->
  forall gas n_gen s w, Z.to_nat (max_gen - n_gen) <= gas -> I s w ->
  exists s' w', while_lt gas max_gen body n_gen s t w = Ok (s', w') /\ I s' w'.
Proof.
  intros Hb. induction gas as [|g IH]; intros n_gen s w Hg HI; cbn [while_lt];
    destruct (Z.ltb_spec n_gen max_gen) as [Hlt|Hge]; try lia.
  - exists s, w. auto.
  - destruct (Hb s w HI) as (s1 & w1 & H1 & HI1). rewrite bind_run, H1.
    apply IH; [lia | exact HI1].
  - exists s, w. auto.
Qed.

Lemma sweep_budget fuel f CR F d t : forall n a s w s' w',
  for_each (seq a n) (evolve_member fuel f CR F d) s t w = Ok (s', w') ->
  length (x_g s') = length (x_g s) /\
  length (evals w') = length (evals w) + 2 * n.
Proof.
  induction n as [|n IH]; intros a s w s' w' H.
  - cbn in H. inv_ret H. split; [reflexivity | lia].
  - cbn [seq for_each] in H. inv_bind H.
    unfold evolve_member in H0. inv_bind H0. destruct a1 as [[rnbr randb] s1].
    apply build_trial_Ok in H1 as (_ & _ & _ & E2 & _ & _ & Hev & _).
    apply select_Ok in H0 as (? & ? & ? & ? & _ & _ & _ & _ & _ & -> & ->).
    apply IH in H as [Hl He]. cbn [x_g] in Hl. rewrite length_insert in Hl.
    split; [congruence|].
    rewrite He. unfold log_eval. cbn [evals]. rewrite !length_app, Hev.
    cbn [length]. lia.
Qed.

(** What [n] generations leave behind. *)
Lemma generations_Ok fuel f CR F NP d t : forall n s w s' w',
  iterate n (generation fuel f CR F NP d) s t w = Ok (s', w') ->
  arr0 s' = arr0 s /\
  length (x_g s') = length (x_g s) /\
  (0 < n -> x s' = Lx_g) /\
  (n = 0 -> s' = s) /\
  length (evals w') = length (evals w) + 2 * NP * n.
Proof.
  induction n as [|n IH]; intros s w s' w' H.
  - cbn in H. inv_ret H. repeat split; auto; lia.
  - cbn [iterate] in H. inv_bind H. unfold generation in H0. inv_bind H0.
    inv_ret H0. pose proof H1 as Hb.
    apply sweep_Ok in H1 as (E1 & _ & _ & _).
    apply sweep_budget in Hb as [Hl He].
    apply IH in H as (E1' & Hl' & Hx & Hs & He').
    cbn [rebind_x arr0 x_g] in *.
    split; [congruence|]. split; [congruence|]. split.
    + intros _. destruct n; [rewrite (Hs eq_refl); reflexivity|].
      apply Hx. lia.
    + split; [discriminate|]. rewrite He', He. lia.
Qed.

Lemma length_zeros NP d : length (zeros NP d) = NP.
Proof. apply length_replicate. Qed.

(** X9. A run of [differential_evolution] that returns has called the
    objective exactly [2 * NP * max_gen + NP] times: twice per member and
    generation, and once per member for the final choice. *)
Theorem differential_evolution_budget fuel NP f CR F max_gen d obj_bounds
    t w v w' :
  differential_evolution fuel NP f CR F max_gen d obj_bounds t w
    = Ok (v, w') ->
  length (evals w') =
  length (evals w)
  + 2 * Z.to_nat NP * Z.to_nat max_gen + Z.to_nat NP.
Proof.
  intros H.
  apply differential_evolution_Ok in H
    as (x0 & w1 & s & w2 & fits & idx & H1 & H2 & _ & _ & _ & _ & He).
  apply init_population_star_Ok in H1 as [Hev [Hlen _]].
  apply generations_Ok in H2 as (E1 & Hl & Hx & Hs & He2).
  cbn [arr0 x_g] in *. rewrite length_zeros in Hl.
  assert (Hcur : length (cur s) = Z.to_nat NP).
  { destruct (Z.to_nat max_gen) as [|n] eqn:En.
    - rewrite (Hs eq_refl). cbn. exact Hlen.
    - unfold cur. rewrite Hx by lia. exact Hl. }
  rewrite He, length_app, He2, Hev, Hcur. lia.
Qed.

Lemma differential_evolution_budget_witness :
  exists v w',
    differential_evolution 10 4 first_coord (9#10) 2 2 1 [0; 1]%Q
      (counting 3) start = Ok (v, w') /\
    length (evals w') =
    length (evals start) + 2 * Z.to_nat 4 * Z.to_nat 2 + Z.to_nat 4.
Proof.
  destruct (differential_evolution 10 4 first_coord (9#10) 2 2 1 [0; 1]%Q
              (counting 3) start) as [[v w']| |] eqn:E;
    [| vm_compute in E; discriminate..].
  exists v, w'. split; [reflexivity|].
  exact (differential_evolution_budget _ _ _ _ _ _ _ _ _ _ _ _ E).
Defined.

Lemma generation_empty fuel f CR F d s t w :
  generation fuel f CR F 0 d s t w = Ok (rebind_x s, w).
Proof. reflexivity. Qed.

(** X10. On an empty population ([NP = 0]) [differential_evolution] runs
    its generations over no member and then raises [ValueError], from
    [np.argmin] of an empty sequence. *)
Theorem differential_evolution_empty fuel f CR F max_gen d obj_bounds t w :
  (0 <= d)%Z -> length obj_bounds <= 2 -> Z.to_nat max_gen <= fuel ->
  differential_evolution fuel 0 f CR F max_gen d obj_bounds t w
    = Raise ValueError.
Proof.
  intros Hd Hlen Hfuel. unfold differential_evolution.
  destruct (init_population_star_run 0 d obj_bounds t w)
    as (x0 & w1 & Hinit & [Hx0 _] & _); [lia | exact Hd | exact Hlen |].
  destruct x0; [|discriminate].
  rewrite bind_run, Hinit. cbn beta iota zeta. rewrite bind_run.
  destruct (while_lt_inv (generation fuel f CR F (Z.to_nat 0) (Z.to_nat d))
              max_gen t (fun s _ => arr0 s = [] /\ x_g s = [])) with
    (gas := fuel) (n_gen := 0%Z)
    (s := Store [] (zeros (Z.to_nat 0) (Z.to_nat d))
                   (zeros (Z.to_nat 0) (Z.to_nat d)) Larr0) (w := w1)
    as (s & w2 & Hloop & Ha & Hg).
  - intros s w0 Hs. exists (rebind_x s), w0. split; [reflexivity | exact Hs].
  - lia.
  - split; reflexivity.
  - rewrite Hloop. cbn beta iota.
    assert (Hcur : cur s = []) by (unfold cur; destruct (x s); assumption).
    rewrite Hcur. reflexivity.
Qed.

Lemma differential_evolution_empty_witness :
  differential_evolution 5 0 first_coord (9#10) (8#10) 3 2 [0; 1]%Q
    (counting 3) start = Raise ValueError.
Proof.
  apply (differential_evolution_empty 5 first_coord (9#10) (8#10) 3 2
           [0; 1]%Q (counting 3) start); [lia | cbn; lia | cbn; lia].
Defined.

(** X11. With [d = 0] and at least one member, the first generation
    raises [ValueError], from [np.random.randint(0)]; without any
    generation ([max_gen <= 0]) the engine returns the empty vector. *)
Theorem differential_evolution_zero_dim fuel NP f CR F max_gen obj_bounds t w :
  (0 < NP)%Z -> length obj_bounds <= 2 ->
  ((0 < max_gen)%Z -> 0 < fuel ->
   differential_evolution fuel NP f CR F max_gen 0 obj_bounds t w
     = Raise ValueError) /\
  ((max_gen <= 0)%Z -> total f ->
   exists w',
     differential_evolution fuel NP f CR F max_gen 0 obj_bounds t w
       = Ok ([], w')).
Proof.
  intros HNP Hlen.
  destruct (init_population_star_run NP 0 obj_bounds t w)
    as (x0 & w1 & Hinit & Hx0 & _); [lia | lia | exact Hlen |].
  split.
  - intros Hmg Hfuel. unfold differential_evolution.
    rewrite bind_run, Hinit. cbn beta iota zeta. rewrite bind_run.
    destruct fuel as [|g]; [lia|]. cbn [while_lt].
    destruct (Z.ltb_spec 0 max_gen); [|lia].
    rewrite bind_run. unfold generation at 1. rewrite bind_run.
    destruct (Z.to_nat NP) as [|n] eqn:En; [lia|].
    reflexivity.
  - intros Hmg Hf. unfold differential_evolution.
    rewrite bind_run, Hinit. cbn beta iota zeta. rewrite bind_run.
    assert (Hw : forall (s : store),
              while_lt fuel max_gen
                (generation fuel f CR F (Z.to_nat NP) (Z.to_nat 0)) 0%Z s t w1
              = Ok (s, w1)).
    { intros s. destruct fuel; cbn [while_lt];
        destruct (Z.ltb_spec 0 max_gen); try lia; reflexivity. }
    rewrite Hw. cbn beta iota. cbn [cur x arr0].
    destruct (best_run f x0 t w1 Hf) as (v & w' & Hbest).
    { rewrite (proj1 Hx0). lia. }
    exists w'. rewrite Hbest. do 2 f_equal.
    rewrite bind_run in Hbest.
    destruct (fitness_all f x0 t w1) as [[fits w2]| |]; try discriminate.
    cbn beta iota in Hbest. inv_bind Hbest.
    apply lift_idx_Ok in Hbest as [Hv _].
    destruct Hx0 as [_ Hrows].
    pose proof (proj1 (Forall_lookup _ _) Hrows _ _ Hv) as Hl.
    destruct v; [reflexivity | discriminate].
Qed.

Lemma differential_evolution_zero_dim_witness :
  differential_evolution 5 4 first_coord (9#10) (8#10) 3 0 [0; 1]%Q
    (counting 3) start = Raise ValueError /\
  exists w',
    differential_evolution 5 4 first_coord (9#10) (8#10) 0 0 [0; 1]%Q
      (counting 3) start = Ok ([], w').
Proof.
  split.
  - apply (proj1 (differential_evolution_zero_dim 5 4 first_coord (9#10)
                    (8#10) 3 [0; 1]%Q (counting 3) start ltac:(lia)
                    ltac:(cbn; lia))); lia.
  - apply (proj2 (differential_evolution_zero_dim 5 4 first_coord (9#10)
                    (8#10) 0 [0; 1]%Q (counting 3) start ltac:(lia)
                    ltac:(cbn; lia))); [lia | apply total_first_coord].
Defined.

Lemma mutate_at_pos_small NP d (m : matrix) F i k t w fuel :
  shaped NP d m -> i < NP -> NP < 4 ->
  mutate_at_pos fuel m F i k t w = OutOfFuel.
Proof.
  intros Hm Hi HNP. unfold mutate_at_pos.
  rewrite bind_run, (proj1 Hm), (pick_rand_idx_small i NP t w Hi HNP fuel).
  reflexivity.
Qed.

(** On a population of fewer than four members the loop over the
    dimensions never gets past dimension [rnbr]. *)
Lemma crossover_loop_small NP d fuel CR F i rnbr randb t :
  i < NP -> NP < 4 -> length randb = d ->
  forall n a s w, store_ok NP d s -> a <= rnbr < a + n -> a + n <= d ->
  for_each (seq a n) (crossover_at fuel CR F i rnbr randb) s t w = OutOfFuel.
Proof.
  intros Hi HNP Hlen. induction n as [|n IH]; intros a s w Hs Hr Hd; [lia|].
  cbn [seq for_each]. rewrite bind_run.
  destruct (lookup_lt_is_Some_2 randb a ltac:(lia)) as [rb Hrb].
  assert (Hstep : crossover_at fuel CR F i rnbr randb s a t w = OutOfFuel \/
            (a <> rnbr /\ exists s', store_ok NP d s' /\
               crossover_at fuel CR F i rnbr randb s a t w = Ok (s', w))).
  { unfold crossover_at. rewrite bind_run.
    destruct (Nat.eqb_spec a rnbr) as [->|Hne].
    - left. rewrite ret_run. cbn beta iota. rewrite bind_run.
      rewrite (mutate_at_pos_small NP d (cur s) F i rnbr t w fuel
                 (store_ok_cur _ _ _ Hs) Hi HNP).
      reflexivity.
    - rewrite bind_run, Hrb. cbn [lift_idx]. rewrite ret_run.
      cbn beta iota. rewrite ret_run. cbn beta iota.
      destruct (Qltb rb CR).
      + left. rewrite bind_run.
        rewrite (mutate_at_pos_small NP d (cur s) F i a t w fuel
                   (store_ok_cur _ _ _ Hs) Hi HNP).
        reflexivity.
      + right. split; [exact Hne|].
        destruct (get2_run NP d (cur s) i a t w (store_ok_cur _ _ _ Hs) Hi
                    ltac:(lia)) as [v Hv].
        destruct (set_u_run NP d s i a v t w Hs Hi ltac:(lia))
          as (s' & Hset & Hok).
        exists s'. split; [exact Hok|]. rewrite bind_run, Hv. exact Hset. }
  destruct Hstep as [-> | (Hne & s' & Hok & ->)]; [reflexivity|].
  apply IH; [exact Hok | lia | lia].
Qed.

(** X12. With one, two or three members, at least one dimension and at
    least one generation, the unvalidated engine never returns: on every
    tape and with any fuel it is still drawing donors for member 0. *)
Theorem differential_evolution_small_population NP f CR F max_gen d
    obj_bounds t w :
  (0 < NP < 4)%Z -> (0 < d)%Z -> (0 < max_gen)%Z -> length obj_bounds <= 2 ->
  diverges
    (fun fuel => differential_evolution fuel NP f CR F max_gen d obj_bounds)
    t w.
Proof.
  intros HNP Hd Hmg Hlen fuel. unfold differential_evolution.
  destruct (init_population_star_run NP d obj_bounds t w)
    as (x0 & w1 & Hinit & Hx0 & _); [lia | lia | exact Hlen |].
  rewrite bind_run, Hinit. cbn beta iota zeta. rewrite bind_run.
  destruct fuel as [|g]; cbn [while_lt];
    destruct (Z.ltb_spec 0 max_gen); try lia; [reflexivity|].
  rewrite bind_run. unfold generation at 1. rewrite bind_run.
  destruct (Z.to_nat NP) as [|n] eqn:En; [lia|].
  cbn [seq for_each]. rewrite bind_run.
  unfold evolve_member at 1. rewrite bind_run.
  unfold build_trial. rewrite bind_run, randint_pos by lia.
  cbn beta iota. rewrite bind_run, random_sample_run. cbn beta iota.
  rewrite bind_run.
  rewrite (crossover_loop_small (S n) (Z.to_nat d) (S g) CR F 0 _ _ t);
    try reflexivity; try lia.
  - rewrite length_fmap, length_seq. reflexivity.
  - split; [exact Hx0|]. split; apply shaped_zeros.
  - pose proof (Nat.mod_upper_bound (num (t (pos w1))) (Z.to_nat d)
                  ltac:(lia)).
    lia.
Qed.

Lemma differential_evolution_small_population_witness :
  diverges
    (fun fuel =>
       differential_evolution fuel 3 first_coord (9#10) (8#10) 1 1 [0; 1]%Q)
    (counting 3) start.
Proof.
  apply (differential_evolution_small_population 3 first_coord (9#10) (8#10)
           1 1 [0; 1]%Q (counting 3) start); [lia | lia | lia | cbn; lia].
Defined.

Lemma generation_forward fuel f CR F NP d s t w s' w' :
  generation fuel f CR F NP d s t w = Ok (s', w') ->
  forall i target, i < NP -> cur s !! i = Some target ->
    exists next fn fx,
      cur s' !! i = Some next /\ f next = Some fn /\ f target = Some fx /\
      (fn <= fx)%Q.
Proof.
  unfold generation. intros H i target Hi Ht. inv_bind H. inv_ret H.
  apply sweep_Ok in H0 as (_ & _ & _ & Hin).
  destruct (Hin i ltac:(lia))
    as (trial & target' & ft & fx & Hu & Hx & Hft & Hfx & Hg).
  rewrite Ht in Hx. injection Hx as <-.
  cbn [rebind_x cur x x_g]. rewrite Hg.
  destruct (Qltb ft fx) eqn:Hlt.
  - exists trial, ft, fx. apply Qltb_lt in Hlt.
    repeat split; auto. apply Qlt_le_weak, Hlt.
  - exists target, fx, fx. repeat split; auto. apply Qle_refl.
Qed.

Lemma generations_forward fuel f CR F NP d t : forall n s w s' w',
  iterate n (generation fuel f CR F NP d) s t w = Ok (s', w') ->
  forall i target, i < NP -> cur s !! i = Some target ->
    exists next, cur s' !! i = Some next /\
      forall fn, f next = Some fn ->
        exists fx, f target = Some fx /\ (fn <= fx)%Q.
Proof.
  induction n as [|n IH]; intros s w s' w' H i target Hi Ht.
  - cbn in H. inv_ret H. exists target. split; [exact Ht|].
    intros fn Hfn. exists fn. split; [exact Hfn | apply Qle_refl].
  - cbn [iterate] in H. inv_bind H.
    destruct (generation_forward _ _ _ _ _ _ _ _ _ _ _ H0 i target Hi Ht)
      as (next1 & fn1 & fx & Hn1 & Hfn1 & Hfx & Hle1).
    destruct (IH _ _ _ _ H i next1 Hi Hn1) as (next & Hn & Hchain).
    exists next. split; [exact Hn|].
    intros fn Hfn. destruct (Hchain fn Hfn) as (fx1 & Hfx1 & Hle).
    rewrite Hfn1 in Hfx1. injection Hfx1 as <-.
    exists fx. split; [exact Hfx|]. eapply Qle_trans; eassumption.
Qed.

(** X13. The vector that [differential_evolution] returns is at least as
    fit as every member of the initial population. *)
Theorem differential_evolution_no_worse fuel NP f CR F max_gen d obj_bounds
    t w v w' :
  differential_evolution fuel NP f CR F max_gen d obj_bounds t w
    = Ok (v, w') ->
  exists x0 w1 y,
    init_population_star NP d obj_bounds t w = Ok (x0, w1) /\
    f v = Some y /\
    forall i v0, x0 !! i = Some v0 ->
      exists y0, f v0 = Some y0 /\ (y <= y0)%Q.
Proof.
  intros H.
  apply differential_evolution_Ok in H
    as (x0 & w1 & s & w2 & fits & idx & H1 & H2 & Hfit & Hmin & Hv & _).
  destruct Hmin as (y & Hy & Hle & _).
  destruct (Forall2_lookup_l _ _ _ _ _ Hfit Hv) as (y' & Hy' & Hfv).
  rewrite Hy in Hy'. injection Hy' as <-.
  exists x0, w1, y. split; [exact H1|]. split; [exact Hfv|].
  intros i v0 Hv0.
  apply init_population_star_Ok in H1 as [_ [Hlen _]].
  pose proof (lookup_lt_Some _ _ _ Hv0) as Hi. rewrite Hlen in Hi.
  destruct (generations_forward _ _ _ _ _ _ _ _ _ _ _ _ H2 i v0 Hi Hv0)
    as (next & Hn & Hchain).
  destruct (Forall2_lookup_l _ _ _ _ _ Hfit Hn) as (z & Hz & Hfz).
  destruct (Hchain z Hfz) as (y0 & Hy0 & Hzy).
  exists y0. split; [exact Hy0|].
  eapply Qle_trans; [eapply Hle; exact Hz | exact Hzy].
Qed.

Lemma differential_evolution_no_worse_witness :
  exists v w' x0 w1 y,
    differential_evolution 10 4 first_coord (9#10) 2 2 1 [0; 1]%Q
      tape_two_gens start = Ok (v, w') /\
    init_population_star 4 1 [0; 1]%Q tape_two_gens start = Ok (x0, w1) /\
    first_coord v = Some y /\
    forall i v0, x0 !! i = Some v0 ->
      exists y0, first_coord v0 = Some y0 /\ (y <= y0)%Q.
Proof.
  destruct (differential_evolution 10 4 first_coord (9#10) 2 2 1 [0; 1]%Q
              tape_two_gens start) as [[v w']| |] eqn:E;
    [| vm_compute in E; discriminate..].
  destruct (differential_evolution_no_worse _ _ _ _ _ _ _ _ _ _ _ _ E)
    as (x0 & w1 & y & H1 & H2 & H3).
  exists v, w', x0, w1, y. auto.
Defined.

(** X14. The first generation is synchronous: with at most one
    generation the engine and the synchronous reference give the same
    result, whatever the draws. *)
Theorem differential_evolution_first_generation_sync fuel NP f CR F max_gen d
    obj_bounds t w :
  (max_gen <= 1)%Z ->
  differential_evolution fuel NP f CR F max_gen d obj_bounds t w =
  differential_evolution_sync fuel NP f CR F max_gen d obj_bounds t w.
Proof.
  intros Hmg. unfold differential_evolution, differential_evolution_sync.
  rewrite !bind_run.
  destruct (init_population_star NP d obj_bounds t w) as [[x0 w1]| |];
    [|reflexivity..].
  cbn beta iota zeta. rewrite !bind_run.
  destruct fuel as [|g]; cbn [while_lt];
    destruct (Z.ltb_spec 0 max_gen); try reflexivity.
  rewrite !bind_run. unfold generation at 1, generation_sync at 1.
  cbn [cur x arr0 u] . rewrite !bind_run.
  destruct (for_each (seq 0 (Z.to_nat NP))
              (evolve_member (S g) f CR F (Z.to_nat d))
              (Store x0 (zeros (Z.to_nat NP) (Z.to_nat d))
                        (zeros (Z.to_nat NP) (Z.to_nat d)) Larr0) t w1)
    as [[s' w2]| |]; [|reflexivity..].
  cbn beta iota. rewrite !ret_run. cbn beta iota.
  assert (Hstop : forall St (body : St -> M St) (s : St),
            while_lt g max_gen body (0 + 1)%Z s t w2 = Ok (s, w2)).
  { intros St body s. destruct g; cbn [while_lt];
      destruct (Z.ltb_spec (0 + 1) max_gen); try lia; reflexivity. }
  rewrite !Hstop. reflexivity.
Qed.

Lemma differential_evolution_first_generation_sync_witness :
  differential_evolution 10 4 first_coord (9#10) 2 1 1 [0; 1]%Q
    tape_two_gens start =
  differential_evolution_sync 10 4 first_coord (9#10) 2 1 1 [0; 1]%Q
    tape_two_gens start.
Proof.
  apply (differential_evolution_first_generation_sync 10 4 first_coord
           (9#10) 2 1 1 [0; 1]%Q tape_two_gens start).
  lia.
Defined.

(** ** [rand_search]: edges and budget *)

(** X15. On an empty population ([NP = 0]) [rand_search] raises
    [IndexError], from [x[0]], before the objective is called. *)
Theorem rand_search_empty fuel f max_gen d obj_bounds t w :
  (0 <= d)%Z -> length obj_bounds <= 2 ->
  rand_search fuel 0 f max_gen d obj_bounds t w = Raise IndexError.
Proof.
  intros Hd Hlen. unfold rand_search.
  destruct (init_population_star_run 0 d obj_bounds t w)
    as (x0 & w1 & Hinit & [Hx0 _] & _); [lia | exact Hd | exact Hlen |].
  destruct x0; [|discriminate].
  rewrite bind_run, Hinit. reflexivity.
Qed.

Lemma rand_search_empty_witness :
  rand_search 5 0 sphere 3 2 [0; 1]%Q (counting 3) start = Raise IndexError.
Proof.
  apply (rand_search_empty 5 sphere 3 2 [0; 1]%Q (counting 3) start);
    [lia | cbn; lia].
Defined.

Lemma init_population_star_cost NP d obj_bounds t w m w' :
  init_population_star NP d obj_bounds t w = Ok (m, w') ->
  pos w' = pos w + Z.to_nat NP * Z.to_nat d /\ evals w' = evals w /\
  length m = Z.to_nat NP.
Proof.
  assert (H : forall lb ub, init_population NP d lb ub t w = Ok (m, w') ->
            pos w' = pos w + Z.to_nat NP * Z.to_nat d /\ evals w' = evals w /\
            length m = Z.to_nat NP).
  { intros lb ub H. unfold init_population in H.
    destruct ((NP <? 0)%Z || (d <? 0)%Z); [discriminate|].
    rewrite bind_run, rand_run in H. cbn beta iota in H. inv_ret H.
    rewrite !length_fmap, length_seq. auto. }
  destruct obj_bounds as [|lb [|ub [|? ?]]]; cbn [init_population_star];
    try discriminate; apply H.
Qed.

Lemma keep_best_cost f t : forall xs best w best' w',
  for_each xs (keep_best f) best t w = Ok (best', w') ->
  pos w' = pos w /\ evals w' = evals w ++ xs.
Proof.
  induction xs as [|v xs IH]; intros best w best' w' H.
  - cbn in H. inv_ret H. rewrite app_nil_r. auto.
  - cbn [for_each] in H. inv_bind H. unfold keep_best in H0.
    inv_bind H0. apply call_f_Ok in H1 as [_ ->].
    destruct (Qltb _ _); inv_ret H0; apply IH in H as [Hp He];
      rewrite Hp, He; cbn; rewrite <- app_assoc; auto.
Qed.

Lemma search_rounds_cost f NP d obj_bounds t : forall n best w best' w',
  iterate n (search_round f NP d obj_bounds) best t w = Ok (best', w') ->
  pos w' = pos w + n * (Z.to_nat NP * Z.to_nat d) /\
  length (evals w') = length (evals w) + n * Z.to_nat NP.
Proof.
  induction n as [|n IH]; intros best w best' w' H.
  - cbn in H. inv_ret H. lia.
  - cbn [iterate] in H. inv_bind H. unfold search_round in H0.
    inv_bind H0. apply init_population_star_cost in H1 as (Hp & He & Hl).
    apply keep_best_cost in H0 as [Hp1 He1].
    apply IH in H as [Hp2 He2].
    rewrite Hp2, He2, Hp1, He1, length_app, Hp, He, Hl. lia.
Qed.

(** X16. A run of [rand_search] that returns has drawn exactly
    [(max_gen + 1) * NP * d] random numbers and called the objective
    exactly [1 + max_gen * NP] times. *)
Theorem rand_search_budget fuel NP f max_gen d obj_bounds t w v w' :
  rand_search fuel NP f max_gen d obj_bounds t w = Ok (v, w') ->
  pos w' = pos w + (Z.to_nat max_gen + 1) * (Z.to_nat NP * Z.to_nat d) /\
  length (evals w') = length (evals w) + 1 + Z.to_nat max_gen * Z.to_nat NP.
Proof.
  unfold rand_search. intros H. inv_bind H.
  apply init_population_star_cost in H0 as (Hp & He & _).
  inv_bind H. apply lift_idx_Ok in H0 as [_ ->].
  inv_bind H. apply call_f_Ok in H0 as [_ ->].
  inv_bind H. inv_ret H.
  apply while_lt_iterate in H0. rewrite Z.sub_0_r in H0.
  apply search_rounds_cost in H0 as [Hp2 He2].
  rewrite Hp2, He2. unfold log_eval. cbn [pos evals].
  rewrite length_app, Hp, He. cbn [length]. lia.
Qed.

Lemma rand_search_budget_witness :
  exists v w',
    rand_search 3 4 sphere 2 1 [-1; 1]%Q (counting 3) start = Ok (v, w') /\
    pos w' = pos start + (Z.to_nat 2 + 1) * (Z.to_nat 4 * Z.to_nat 1) /\
    length (evals w') = length (evals start) + 1 + Z.to_nat 2 * Z.to_nat 4.
Proof.
  destruct (rand_search 3 4 sphere 2 1 [-1; 1]%Q (counting 3) start)
    as [[v w']| |] eqn:E; [| vm_compute in E; discriminate..].
  exists v, w'. split; [reflexivity|].
  exact (rand_search_budget _ _ _ _ _ _ _ _ _ _ E).
Defined.

(** ** [grad] *)

Lemma grad_at_Ok f v fv ret i t w ret' w' :
  grad_at f v fv ret i t w = Ok (ret', w') ->
  exists y,
    f (vadd v (unit_step (length v) i)) = Some y /\ i < length ret /\
    ret' = <[i := ((y - fv) / eps)%Q]> ret /\
    w' = log_eval (vadd v (unit_step (length v) i)) w.
Proof.
  unfold grad_at. intros H. inv_bind H. apply call_f_Ok in H0 as [Hy ->].
  destruct (Nat.ltb_spec i (length ret)); [|discriminate].
  inv_ret H. exists a. auto.
Qed.

Lemma grad_loop_Ok f v fv t : forall n a ret w ret' w',
  for_each (seq a n) (grad_at f v fv) ret t w = Ok (ret', w') ->
  length ret' = length ret /\
  (forall j, j < a \/ a + n <= j -> ret' !! j = ret !! j) /\
  (forall i, a <= i < a + n ->
     exists y, f (vadd v (unit_step (length v) i)) = Some y /\
               ret' !! i = Some ((y - fv) / eps)%Q) /\
  pos w' = pos w /\
  evals w' =
  evals w ++ ((fun i => vadd v (unit_step (length v) i)) <$> seq a n).
Proof.
  induction n as [|n IH]; intros a ret w ret' w' H.
  - cbn in H. inv_ret H. rewrite app_nil_r.
    repeat split; auto. intros i Hi. lia.
  - cbn [seq for_each] in H. inv_bind H.
    apply grad_at_Ok in H0 as (y & Hy & Hi & -> & ->).
    apply IH in H as (Hl & Hout & Hin & Hp & He).
    rewrite length_insert in Hl.
    split; [exact Hl|]. split; [|split; [|split]].
    + intros j Hj. rewrite Hout by lia. apply list_lookup_insert_ne. lia.
    + intros i Hia. destruct (decide (i = a)) as [->|Hne].
      * exists y. split; [exact Hy|]. rewrite Hout by lia.
        apply list_lookup_insert_eq. exact Hi.
      * apply Hin. lia.
    + exact Hp.
    + rewrite He. cbn. rewrite <- app_assoc. reflexivity.
Qed.

Lemma grad_Ok v f t w g w' :
  grad v f t w = Ok (g, w') ->
  exists fv,
    f v = Some fv /\ length g = length v /\
    (forall i, i < length v ->
       exists y, f (vadd v (unit_step (length v) i)) = Some y /\
                 g !! i = Some ((y - fv) / eps)%Q) /\
    pos w' = pos w /\
    evals w' =
    evals w ++ v :: ((fun i => vadd v (unit_step (length v) i))
                       <$> seq 0 (length v)).
Proof.
  unfold grad. intros H. inv_bind H. apply call_f_Ok in H0 as [Hfv ->].
  apply grad_loop_Ok in H as (Hl & _ & Hin & Hp & He).
  rewrite length_replicate in Hl.
  exists a. split; [exact Hfv|]. split; [exact Hl|]. split; [|split].
  - intros i Hi. apply Hin. lia.
  - exact Hp.
  - rewrite He. cbn. rewrite <- app_assoc. reflexivity.
Qed.

Lemma grad_run v f t w :
  total f -> exists g w', grad v f t w = Ok (g, w').
Proof.
  intros Hf. unfold grad. destruct (Hf v) as [fv Hfv].
  rewrite bind_run. unfold call_f at 1. rewrite Hfv. cbn beta iota.
  assert (H : forall n a ret w0, a + n <= length ret ->
            exists ret' w', for_each (seq a n) (grad_at f v fv) ret t w0
                            = Ok (ret', w') /\ length ret' = length ret).
  { induction n as [|n IH]; intros a ret w0 Hn.
    - eexists _, _. split; reflexivity.
    - cbn [seq for_each]. rewrite bind_run. unfold grad_at at 1.
      destruct (Hf (vadd v (unit_step (length v) a))) as [y Hy].
      rewrite bind_run. unfold call_f at 1. rewrite Hy. cbn beta iota.
      destruct (Nat.ltb_spec a (length ret)); [|lia].
      rewrite ret_run. cbn beta iota.
      destruct (IH (S a) (<[a := ((y - fv) / eps)%Q]> ret)
                  (log_eval (vadd v (unit_step (length v) a)) w0))
        as (ret' & w' & Hr & Hl).
      { rewrite length_insert. lia. }
      exists ret', w'. split; [exact Hr|].
      rewrite Hl, length_insert. reflexivity. }
  destruct (H (length v) 0 (replicate (length v) 0%Q) (log_eval v w))
    as (g & w' & Hg & _).
  { rewrite length_replicate. lia. }
  exists g, w'. exact Hg.
Qed.

(** X17. [grad(v, f)] returns one forward difference
    [(f(v + e*e_i) - f(v)) / e] per dimension; it calls the objective
    exactly [len(v) + 1] times, first on [v] and then on the perturbed
    vectors in order, and draws no random number. *)
Theorem grad_forward_differences v f t w g w' :
  grad v f t w = Ok (g, w') ->
  length g = length v /\
  (exists fv, f v = Some fv /\
     forall i, i < length v ->
       exists y, f (vadd v (unit_step (length v) i)) = Some y /\
                 g !! i = Some ((y - fv) / eps)%Q) /\
  pos w' = pos w /\
  evals w' =
  evals w ++ v :: ((fun i => vadd v (unit_step (length v) i))
                     <$> seq 0 (length v)) /\
  length (evals w') = length (evals w) + length v + 1.
Proof.
  intros H. apply grad_Ok in H as (fv & Hfv & Hl & Hin & Hp & He).
  split; [exact Hl|]. split; [exists fv; auto|]. split; [exact Hp|].
  split; [exact He|].
  rewrite He, length_app. cbn [length]. rewrite length_fmap, length_seq. lia.
Qed.

Lemma grad_forward_differences_witness :
  exists g w',
    grad [1; 2]%Q sphere (counting 0) start = Ok (g, w') /\
    length g = length [1; 2]%Q /\
    pos w' = pos start /\
    length (evals w') = length (evals start) + length [1; 2]%Q + 1.
Proof.
  destruct (grad [1; 2]%Q sphere (counting 0) start) as [[g w']| |] eqn:E;
    [| vm_compute in E; discriminate..].
  destruct (grad_forward_differences _ _ _ _ _ _ E) as (H1 & _ & H2 & _ & H3).
  exists g, w'. auto.
Defined.

(** ** [grad_descent] *)

Lemma descend_Ok f lr (x : matrix) i t w x' w' :
  descend f lr x i t w = Ok (x', w') ->
  exists v g,
    x !! i = Some v /\ grad v f t w = Ok (g, w') /\
    x' = <[i := vsub v (vscale g lr)]> x.
Proof.
  unfold descend. intros H. inv_bind H. apply lift_idx_Ok in H0 as [Hv ->].
  inv_bind H. inv_ret H. exists a, a0. auto.
Qed.

(** What a sweep over the points [a, a+n) leaves in the population. *)
Lemma descent_loop_Ok f lr t : forall n a (x : matrix) w x' w',
  for_each (seq a n) (descend f lr) x t w = Ok (x', w') ->
  length x' = length x /\
  (forall j, j < a \/ a + n <= j -> x' !! j = x !! j) /\
  (forall i, a <= i < a + n ->
     exists v g wa wb,
       x !! i = Some v /\ grad v f t wa = Ok (g, wb) /\
       x' !! i = Some (vsub v (vscale g lr))) /\
  pos w' = pos w.
Proof.
  induction n as [|n IH]; intros a x w x' w' H.
  - cbn in H. inv_ret H. repeat split; auto. intros i Hi. lia.
  - cbn [seq for_each] in H. inv_bind H.
    apply descend_Ok in H0 as (v & g & Hv & Hg & ->).
    apply IH in H as (Hl & Hout & Hin & Hp).
    rewrite length_insert in Hl.
    pose proof (lookup_lt_Some _ _ _ Hv) as Hlt.
    pose proof Hg as Hg'. apply grad_Ok in Hg' as (_ & _ & _ & _ & Hpg & _).
    split; [exact Hl|]. split; [|split].
    + intros j Hj. rewrite Hout by lia. apply list_lookup_insert_ne. lia.
    + intros i Hi. destruct (decide (i = a)) as [->|Hne].
      * exists v, g, w, w0. split; [exact Hv|]. split; [exact Hg|].
        rewrite Hout by lia. apply list_lookup_insert_eq. exact Hlt.
      * destruct (Hin i ltac:(lia)) as (v' & g' & wa & wb & Hv' & Hg'' & Hx').
        exists v', g', wa, wb.
        rewrite list_lookup_insert_ne in Hv' by lia. auto.
    + lia.
Qed.

Lemma length_vsub_vscale v g lr :
  length g = length v -> length (vsub v (vscale g lr)) = length v.
Proof.
  intros H. unfold vsub, vscale. rewrite length_zip_with, length_fmap. lia.
Qed.

(** A sweep keeps the shape of the population and calls the objective
    [d + 1] times per point. *)
Lemma descent_loop_shape f lr t NP d : forall n a (x : matrix) w x' w',
  for_each (seq a n) (descend f lr) x t w = Ok (x', w') ->
  shaped NP d x ->
  shaped NP d x' /\ length (evals w') = length (evals w) + n * (d + 1).
Proof.
  induction n as [|n IH]; intros a x w x' w' H Hx.
  - cbn in H. inv_ret H. split; [exact Hx | lia].
  - cbn [seq for_each] in H. inv_bind H.
    apply descend_Ok in H0 as (v & g & Hv & Hg & ->).
    apply grad_Ok in Hg as (_ & _ & Hl & _ & _ & He).
    assert (Hd : length v = d)
      by exact (proj1 (Forall_lookup _ _) (proj2 Hx) _ _ Hv).
    apply IH in H as [Hs He'].
    + split; [exact Hs|]. rewrite He', He, length_app. cbn [length].
      rewrite length_fmap, length_seq, Hd. lia.
    + apply shaped_insert; [exact Hx|].
      rewrite length_vsub_vscale by exact Hl. exact Hd.
Qed.

Lemma descent_sweeps_shape f lr t NP d : forall n (x : matrix) w x' w',
  iterate n (descent_sweep f lr) x t w = Ok (x', w') ->
  shaped NP d x ->
  shaped NP d x' /\ pos w' = pos w /\
  length (evals w') = length (evals w) + n * (NP * (d + 1)).
Proof.
  induction n as [|n IH]; intros x w x' w' H Hx.
  - cbn in H. inv_ret H. split; [exact Hx|]. lia.
  - cbn [iterate] in H. inv_bind H. unfold descent_sweep in H0.
    pose proof H0 as Hp. apply descent_loop_Ok in Hp as (_ & _ & _ & Hp).
    apply (descent_loop_shape f lr t NP d) in H0 as [Hs He]; [|exact Hx].
    apply IH in H as (Hs' & Hp' & He'); [|exact Hs].
    split; [exact Hs'|]. rewrite Hp', Hp, He', He, (proj1 Hx). lia.
Qed.

Lemma pick_best_loop f t : forall xs p best w best' w',
  for_each xs (pick_best f) best t w = Ok (best', w') ->
  first_best f p best ->
  first_best f (p ++ xs) best' /\ pos w' = pos w /\
  evals w' = evals w ++ xs.
Proof.
  induction xs as [|v xs IH]; intros p best w best' w' H Hinv.
  - cbn in H. inv_ret H. rewrite !app_nil_r. auto.
  - cbn [for_each] in H. inv_bind H. unfold pick_best in H0.
    inv_bind H0. apply call_f_Ok in H1 as [Hv ->].
    replace (p ++ v :: xs) with ((p ++ [v]) ++ xs)
      by (rewrite <- app_assoc; reflexivity).
    replace (evals w ++ v :: xs) with ((evals w ++ [v]) ++ xs)
      by (rewrite <- app_assoc; reflexivity).
    assert (Hnext : first_best f (p ++ [v]) a /\ w0 = log_eval v w).
    { destruct best as [[bv bscore]|].
      - destruct Hinv as (fits & idx & Hfit & (y & Hy & Hle & Hfirst) & Hb & Hby).
        rewrite Hy in Hby. injection Hby as ->.
        pose proof (Forall2_length _ _ _ Hfit) as Hlen.
        pose proof (lookup_lt_Some _ _ _ Hb) as Hidx.
        assert (Hfit' : Forall2 (fun c z => f c = Some z) (p ++ [v])
                          (fits ++ [a0]))
          by (apply Forall2_app; [exact Hfit | repeat constructor; exact Hv]).
        destruct (Qltb a0 bscore) eqn:Hlt; inv_ret H0; split; try reflexivity.
        + apply Qltb_lt in Hlt. exists (fits ++ [a0]), (length p).
          split; [exact Hfit'|]. split; [|split].
          * exists a0. split; [|split].
            -- rewrite lookup_app_r by lia. rewrite Hlen, Nat.sub_diag.
               reflexivity.
            -- intros j z Hj. apply lookup_app_Some in Hj as [Hj | [_ Hj]].
               ++ apply Qlt_le_weak. eapply Qlt_le_trans; [exact Hlt|].
                  eapply Hle, Hj.
               ++ destruct (j - length fits); cbn in Hj; [|discriminate].
                  injection Hj as <-. apply Qle_refl.
            -- intros j z Hjl Hj. rewrite lookup_app_l in Hj by lia.
               eapply Qlt_le_trans; [exact Hlt|]. eapply Hle, Hj.
          * rewrite lookup_app_r by lia. rewrite Nat.sub_diag. reflexivity.
          * rewrite lookup_app_r by lia. rewrite Hlen, Nat.sub_diag.
            reflexivity.
        + apply Qltb_ge in Hlt. exists (fits ++ [a0]), idx.
          split; [exact Hfit'|]. split; [|split].
          * exists bscore. split; [|split].
            -- rewrite lookup_app_l by lia. exact Hy.
            -- intros j z Hj. apply lookup_app_Some in Hj as [Hj | [_ Hj]].
               ++ eapply Hle, Hj.
               ++ destruct (j - length fits); cbn in Hj; [|discriminate].
                  injection Hj as <-. exact Hlt.
            -- intros j z Hjl Hj. rewrite lookup_app_l in Hj by lia.
               eapply Hfirst; [exact Hjl | exact Hj].
          * rewrite lookup_app_l by lia. exact Hb.
          * rewrite lookup_app_l by lia. exact Hy.
      - cbn in Hinv. subst p. inv_ret H0. split; [|reflexivity].
        exists [a0], 0. split; [repeat constructor; exact Hv|].
        split; [|split; reflexivity].
        exists a0. split; [reflexivity|]. split.
        + intros [|j] z Hj; cbn in Hj; [|discriminate].
          injection Hj as <-. apply Qle_refl.
        + intros j z Hj. lia. }
    destruct Hnext as [Hinv' ->].
    apply (IH (p ++ [v])) in H as (Hfb & Hp & He); [|exact Hinv'].
    auto.
Qed.

Lemma grad_descent_Ok fuel NP f lr max_gen d obj_bounds t w r w' :
  grad_descent fuel NP f lr max_gen d obj_bounds t w = Ok (r, w') ->
  exists x0 w1 xn w2 best,
    init_population_star NP d obj_bounds t w = Ok (x0, w1) /\
    iterate (Z.to_nat max_gen) (descent_sweep f lr) x0 t w1 = Ok (xn, w2) /\
    first_best f xn best /\ r = fst <$> best /\
    pos w' = pos w2 /\ evals w' = evals w2 ++ xn.
Proof.
  unfold grad_descent. intros H. inv_bind H. inv_bind H.
  apply while_lt_iterate in H1. rewrite Z.sub_0_r in H1.
  inv_bind H. inv_ret H.
  apply (pick_best_loop f t a0 []) in H2 as (Hfb & Hp & He);
    [|reflexivity].
  exists a, w0, a0, w1, a1. auto 10.
Qed.

(** X19. [grad_descent] returns [None] exactly when the population is
    empty; otherwise it returns the first member of least fitness of the
    population left by exactly [max_gen] descent sweeps. *)
Theorem grad_descent_returns_first_best fuel NP f lr max_gen d obj_bounds
    t w r w' :
  grad_descent fuel NP f lr max_gen d obj_bounds t w = Ok (r, w') ->
  exists x0 w1 xn w2,
    init_population_star NP d obj_bounds t w = Ok (x0, w1) /\
    iterate (Z.to_nat max_gen) (descent_sweep f lr) x0 t w1 = Ok (xn, w2) /\
    (r = None <-> Z.to_nat NP = 0) /\
    forall v, r = Some v ->
      exists fits idx,
        Forall2 (fun c z => f c = Some z) xn fits /\ first_min fits idx /\
        xn !! idx = Some v.
Proof.
  intros H.
  apply grad_descent_Ok in H
    as (x0 & w1 & xn & w2 & best & H1 & H2 & Hfb & -> & _).
  exists x0, w1, xn, w2. split; [exact H1|]. split; [exact H2|].
  apply init_population_star_Ok in H1 as [_ Hx0].
  apply (descent_sweeps_shape f lr t _ _ _ _ _ _ _ H2) in Hx0 as ([Hl _] & _).
  split.
  - destruct best as [[bv bscore]|]; cbn in *.
    + destruct Hfb as (fits & idx & _ & _ & Hb & _).
      apply lookup_lt_Some in Hb. split; [discriminate | lia].
    + subst xn. cbn in Hl. split; [intros _; lia | reflexivity].
  - intros v Hv. destruct best as [[bv bscore]|]; [|discriminate].
    cbn in Hv. injection Hv as ->.
    destruct Hfb as (fits & idx & Hfit & Hmin & Hb & _).
    exists fits, idx. auto.
Qed.

Lemma grad_descent_returns_first_best_witness :
  exists r w' x0 w1 xn w2,
    grad_descent 3 2 sphere (1#2) 2 1 [0; 1]%Q (counting 3) start
      = Ok (r, w') /\
    init_population_star 2 1 [0; 1]%Q (counting 3) start = Ok (x0, w1) /\
    iterate (Z.to_nat 2) (descent_sweep sphere (1#2)) x0 (counting 3) w1
      = Ok (xn, w2) /\
    (r = None <-> Z.to_nat 2 = 0) /\
    forall v, r = Some v ->
      exists fits idx,
        Forall2 (fun c z => sphere c = Some z) xn fits /\
        first_min fits idx /\ xn !! idx = Some v.
Proof.
  destruct (grad_descent 3 2 sphere (1#2) 2 1 [0; 1]%Q (counting 3) start)
    as [[r w']| |] eqn:E; [| vm_compute in E; discriminate..].
  destruct (grad_descent_returns_first_best _ _ _ _ _ _ _ _ _ _ _ E)
    as (x0 & w1 & xn & w2 & H).
  exists r, w', x0, w1, xn, w2. split; [reflexivity | exact H].
Defined.

Lemma descent_loop_run f lr t :
  total f ->
  forall n a (x : matrix) w, a + n <= length x ->
  exists x' w', for_each (seq a n) (descend f lr) x t w = Ok (x', w') /\
                length x' = length x.
Proof.
  intros Hf. induction n as [|n IH]; intros a x w Hn.
  - eexists _, _. split; reflexivity.
  - cbn [seq for_each]. rewrite bind_run. unfold descend at 1.
    destruct (lookup_lt_is_Some_2 x a ltac:(lia)) as [v Hv].
    destruct (grad_run v f t w Hf) as (g & w1 & Hg).
    rewrite bind_run, Hv. cbn [lift_idx]. rewrite ret_run. cbn beta iota.
    rewrite bind_run, Hg. cbn beta iota. rewrite ret_run. cbn beta iota.
    destruct (IH (S a) (<[a := vsub v (vscale g lr)]> x) w1)
      as (x' & w' & Hx' & Hl).
    { rewrite length_insert. lia. }
    exists x', w'. split; [exact Hx'|]. rewrite Hl, length_insert.
    reflexivity.
Qed.

Lemma pick_best_run f t : total f -> forall xs best w,
  exists best' w', for_each xs (pick_best f) best t w = Ok (best', w').
Proof.
  intros Hf. induction xs as [|v xs IH]; intros best w.
  - eexists _, _. reflexivity.
  - destruct (Hf v) as [y Hy]. cbn [for_each]. rewrite bind_run.
    unfold pick_best at 1. rewrite bind_run. unfold call_f at 1. rewrite Hy.
    cbn beta iota.
    destruct best as [[bv bscore]|]; [destruct (Qltb y bscore)|];
      rewrite ret_run; apply IH.
Qed.

(** X20. With a total objective [grad_descent] returns on every tape,
    whatever the population size (it has no rejection loop); it draws the
    [NP * d] numbers of the initial population and nothing more, and calls
    the objective [max_gen * NP * (d + 1) + NP] times. *)
Theorem grad_descent_budget fuel NP f lr max_gen d obj_bounds t w :
  (0 <= NP)%Z -> (0 <= d)%Z -> length obj_bounds <= 2 -> total f ->
  Z.to_nat max_gen <= fuel ->
  exists r w',
    grad_descent fuel NP f lr max_gen d obj_bounds t w = Ok (r, w') /\
    pos w' = pos w + Z.to_nat NP * Z.to_nat d /\
    length (evals w') =
    length (evals w)
    + Z.to_nat max_gen * (Z.to_nat NP * (Z.to_nat d + 1)) + Z.to_nat NP.
Proof.
  intros HNP Hd Hlen Hf Hfuel.
  destruct (init_population_star_run NP d obj_bounds t w)
    as (x0 & w1 & Hinit & Hx0 & Hp0 & He0); [lia | lia | exact Hlen |].
  destruct (while_lt_inv (descent_sweep f lr) max_gen t (fun _ _ => True))
    with (gas := fuel) (n_gen := 0%Z) (s := x0) (w := w1)
    as (xn & w2 & Hloop & _).
  { intros x w0 _. unfold descent_sweep.
    destruct (descent_loop_run f lr t Hf (length x) 0 x w0 ltac:(lia))
      as (x' & w' & Hx' & _).
    exists x', w'. split; [exact Hx' | exact I]. }
  { lia. }
  { exact I. }
  destruct (pick_best_run f t Hf xn None w2) as (best & w' & Hbest).
  assert (Hrun : grad_descent fuel NP f lr max_gen d obj_bounds t w
                 = Ok (fst <$> best, w')).
  { unfold grad_descent. rewrite bind_run, Hinit. cbn beta iota.
    rewrite bind_run, Hloop. cbn beta iota. rewrite bind_run, Hbest.
    reflexivity. }
  exists (fst <$> best), w'. split; [exact Hrun|].
  apply grad_descent_Ok in Hrun
    as (x0' & w1' & xn' & w2' & best' & H1 & H2 & _ & _ & Hp & He).
  rewrite Hinit in H1. injection H1 as <- <-.
  apply (descent_sweeps_shape f lr t _ _ _ _ _ _ _ H2) in Hx0
    as ([Hl _] & Hp2 & He2).
  rewrite Hp, Hp2, Hp0, He, length_app, He2, He0, Hl. lia.
Qed.

Lemma grad_descent_budget_witness :
  exists r w',
    grad_descent 3 2 sphere (1#2) 2 1 [0; 1]%Q (counting 3) start
      = Ok (r, w') /\
    pos w' = pos start + Z.to_nat 2 * Z.to_nat 1 /\
    length (evals w') =
    length (evals start)
    + Z.to_nat 2 * (Z.to_nat 2 * (Z.to_nat 1 + 1)) + Z.to_nat 2.
Proof.
  apply (grad_descent_budget 3 2 sphere (1#2) 2 1 [0; 1]%Q (counting 3)
           start); [lia | lia | cbn; lia | apply total_sphere | cbn; lia].
Defined.

(** ** [rosenbrock] *)

Lemma Qsq_nonneg q : (0 <= q ^ 2)%Q.
Proof.
  change (q ^ 2)%Q with (q * q)%Q. destruct q as [n d].
  unfold Qle, Qmult. cbn [Qnum Qden]. nia.
Qed.

Lemma Qsq_zero q : (q ^ 2 == 0)%Q -> (q == 0)%Q.
Proof.
  intros H. change (q ^ 2)%Q with (q * q)%Q in H.
  destruct (Qmult_integral _ _ H); assumption.
Qed.

Lemma ros_term_nonneg xi xn :
  (0 <= 100 * (xn - xi * xi) ^ 2 + (1 - xi) ^ 2)%Q.
Proof.
  pose proof (Qsq_nonneg (xn - xi * xi)). pose proof (Qsq_nonneg (1 - xi)).
  lra.
Qed.

Lemma ros_term_zero xi xn :
  (100 * (xn - xi * xi) ^ 2 + (1 - xi) ^ 2 == 0)%Q <->
  (xi == 1)%Q /\ (xn == 1)%Q.
Proof.
  split.
  - intros H.
    pose proof (Qsq_nonneg (xn - xi * xi)) as H1.
    pose proof (Qsq_nonneg (1 - xi)) as H2.
    assert (E1 : ((xn - xi * xi) ^ 2 == 0)%Q) by lra.
    assert (E2 : ((1 - xi) ^ 2 == 0)%Q) by lra.
    apply Qsq_zero in E1, E2.
    assert (Hxi : (xi == 1)%Q) by lra.
    split; [exact Hxi|]. rewrite Hxi in E1. lra.
  - intros [-> ->]. reflexivity.
Qed.

Lemma ros_fold (x : vec) : forall n a acc,
  a + n < length x \/ n = 0 ->
  exists r,
    foldl (rosenbrock_step x) (Some acc) (seq a n) = Some r /\
    (acc <= r)%Q /\
    ((r == acc)%Q <->
     forall i, a <= i < a + n ->
       exists xi xn, x !! i = Some xi /\ x !! (i + 1) = Some xn /\
                     (xi == 1)%Q /\ (xn == 1)%Q).
Proof.
  induction n as [|n IH]; intros a acc Hn.
  - exists acc. split; [reflexivity|]. split; [apply Qle_refl|].
    split; [intros _ i Hi; lia | reflexivity].
  - destruct Hn as [Hn | Hn]; [|discriminate].
    destruct (lookup_lt_is_Some_2 x a ltac:(lia)) as [xi Hxi].
    destruct (lookup_lt_is_Some_2 x (a + 1) ltac:(lia)) as [xn Hxn].
    cbn [seq foldl]. unfold rosenbrock_step at 2. cbn [mbind option_bind].
    rewrite Hxi. cbn [mbind option_bind]. rewrite Hxn. cbn [mbind option_bind].
    set (term := (100 * (xn - xi * xi) ^ 2 + (1 - xi) ^ 2)%Q).
    destruct (IH (S a) (acc + term)%Q ltac:(lia)) as (r & Hr & Hle & Hiff).
    pose proof (ros_term_nonneg xi xn) as Hterm. fold term in Hterm.
    exists r. split; [exact Hr|]. split; [lra|]. split.
    + intros E.
      assert (Et : (term == 0)%Q) by lra.
      assert (Er : (r == acc + term)%Q) by lra.
      intros i Hi. destruct (decide (i = a)) as [->|Hne].
      * exists xi, xn. apply ros_term_zero in Et. tauto.
      * apply (proj1 Hiff Er). lia.
    + intros Hall.
      destruct (Hall a ltac:(lia)) as (xi' & xn' & Hxi' & Hxn' & H1 & H2).
      rewrite Hxi in Hxi'. injection Hxi' as <-.
      rewrite Hxn in Hxn'. injection Hxn' as <-.
      assert (Et : (term == 0)%Q) by (apply ros_term_zero; auto).
      assert (Er : (r == acc + term)%Q)
        by (apply (proj2 Hiff); intros i Hi; apply Hall; lia).
      lra.
Qed.

(** X22. [rosenbrock] never raises and is never negative; on a vector of
    fewer than two components it is 0 whatever the vector; on a longer
    vector it is 0 exactly at the all-ones vector. *)
Theorem rosenbrock_minimum (x : vec) :
  exists y,
    rosenbrock x = Some y /\ (0 <= y)%Q /\
    (length x <= 1 -> y = 0%Q) /\
    (2 <= length x -> ((y == 0)%Q <-> Forall (fun c => (c == 1)%Q) x)).
Proof.
  unfold rosenbrock.
  replace (Z.to_nat (Z.of_nat (length x) - 1)) with (length x - 1) by lia.
  destruct (ros_fold x (length x - 1) 0 0%Q ltac:(lia))
    as (y & Hy & Hle & Hiff).
  exists y. split; [exact Hy|]. split; [exact Hle|]. split.
  - intros Hl. replace (length x - 1) with 0 in Hy by lia.
    cbn in Hy. congruence.
  - intros Hl. rewrite Hiff. split.
    + intros Hall. apply Forall_lookup. intros j c Hc.
      pose proof (lookup_lt_Some _ _ _ Hc) as Hj.
      destruct (decide (j < length x - 1)) as [Hlt|Hge].
      * destruct (Hall j ltac:(lia)) as (xi & xn & Hxi & _ & H1 & _).
        rewrite Hc in Hxi. injection Hxi as <-. exact H1.
      * destruct (Hall (j - 1) ltac:(lia)) as (xi & xn & _ & Hxn & _ & H2).
        replace (j - 1 + 1) with j in Hxn by lia.
        rewrite Hc in Hxn. injection Hxn as <-. exact H2.
    + intros Hall i Hi.
      destruct (lookup_lt_is_Some_2 x i ltac:(lia)) as [xi Hxi].
      destruct (lookup_lt_is_Some_2 x (i + 1) ltac:(lia)) as [xn Hxn].
      exists xi, xn.
      pose proof (proj1 (Forall_lookup _ _) Hall).
      split; [exact Hxi|]. split; [exact Hxn|]. split; eauto.
Qed.

Lemma rosenbrock_minimum_witness :
  (exists y, rosenbrock [5]%Q = Some y /\ y = 0%Q) /\
  (exists y, rosenbrock [1; 1; 1]%Q = Some y /\ (y == 0)%Q) /\
  (exists y, rosenbrock [0; 0]%Q = Some y /\ ~ (y == 0)%Q).
Proof.
  split; [|split].
  - destruct (rosenbrock_minimum [5]%Q) as (y & Hy & _ & H1 & _).
    exists y. split; [exact Hy | apply H1; cbn; lia].
  - destruct (rosenbrock_minimum [1; 1; 1]%Q) as (y & Hy & _ & _ & H2).
    exists y. split; [exact Hy|]. apply H2; [cbn; lia|].
    repeat constructor.
  - destruct (rosenbrock_minimum [0; 0]%Q) as (y & Hy & _ & _ & H2).
    exists y. split; [exact Hy|]. intros E.
    apply H2 in E; [|cbn; lia].
    inversion E as [|? ? H0 _]. discriminate H0.
Defined.
